(** * MTGRulesWorker: the rules parser (RulesParser.ts) and its data model

    A shallow embedding of the text-to-structure core of the worker:
    the section extractors [getRules] and [getGlossary], the hierarchy
    parser [parseRules], the glossary parser [parseGlossary], the
    effective-date extractor [getEffectiveDate] and the composition step
    [getRulesObject].

    Conventions of the embedding.
    - A JavaScript string is the list of its UTF-16 code units ([list N]).
    - A JavaScript array is a [list]; an index is a [Z], because
      [indexOf] and [findIndex] answer [-1] when nothing is found.
    - Reading a property of [undefined] throws a [TypeError]; functions
      that can do so return a [result].
    - [await] on an already computed value is the identity, so the
      [async] functions are modelled by their bodies. *)

From Stdlib Require Import ZArith NArith Lia.
From Stdlib Require Import Strings.String Strings.Ascii.
From stdpp Require Import base list numbers option strings.

Local Open Scope Z_scope.

(* ================================================================== *)
(** ** JavaScript strings and arrays *)
(* ================================================================== *)

Module JS.

(** A string: its UTF-16 code units. *)
Abbreviation jsstring := (list N) (only parsing).

(** An ASCII literal as a JavaScript string. *)
Fixpoint str (s : string) : jsstring :=
  match s with
  | EmptyString => []
  | String a s' => N_of_ascii a :: str s'
  end.

Definition CR : N := 13%N.   (* "\r" *)
Definition LF : N := 10%N.   (* "\n" *)
(** U+201D, the right double quotation mark. *)
Definition RDQUO : N := 8221%N.

(** LineTerminator of ECMAScript: LF, CR, U+2028, U+2029. *)
Definition is_line_terminator (c : N) : bool :=
  (c =? 10)%N || (c =? 13)%N || (c =? 8232)%N || (c =? 8233)%N.

(** WhiteSpace of ECMAScript: TAB, VT, FF, U+FEFF and the space
    separators (category Zs). *)
Definition is_white_space (c : N) : bool :=
  (c =? 9)%N || (c =? 11)%N || (c =? 12)%N || (c =? 32)%N ||
  (c =? 160)%N || (c =? 5760)%N ||
  ((8192 <=? c)%N && (c <=? 8202)%N) ||
  (c =? 8239)%N || (c =? 8287)%N || (c =? 12288)%N || (c =? 65279)%N.

(** What [String.prototype.trim] strips. *)
Definition is_trimmed_char (c : N) : bool :=
  is_white_space c || is_line_terminator c.

Fixpoint trimStart (s : jsstring) : jsstring :=
  match s with
  | [] => []
  | c :: s' => if is_trimmed_char c then trimStart s' else s
  end.

Definition trimEnd (s : jsstring) : jsstring := rev (trimStart (rev s)).

(** [s.trim()] *)
Definition trim (s : jsstring) : jsstring := trimEnd (trimStart s).

(** [s.split(sep)] for a one-unit separator: never the empty array. *)
Fixpoint split (sep : N) (s : jsstring) : list jsstring :=
  match s with
  | [] => [[]]
  | c :: s' =>
      if (c =? sep)%N then [] :: split sep s'
      else match split sep s' with
           | [] => [[c]]
           | l :: ls => (c :: l) :: ls
           end
  end.

(** [s.startsWith(p)] *)
Fixpoint startsWith (p s : jsstring) : bool :=
  match p, s with
  | [], _ => true
  | _ :: _, [] => false
  | a :: p', b :: s' => (a =? b)%N && startsWith p' s'
  end.

(** [s.endsWith(p)] *)
Definition endsWith (p s : jsstring) : bool := startsWith (rev p) (rev s).

(** [s.includes(p)] *)
Fixpoint includes (p s : jsstring) : bool :=
  startsWith p s ||
  match s with
  | [] => false
  | _ :: s' => includes p s'
  end.

(** The first position ([nat]) of an element satisfying [P], as a JS
    index: [-1] when there is none. *)
Definition index_where {A} (P : A → bool) (l : list A) : Z :=
  match list_find (λ x, P x = true) l with
  | Some (i, _) => Z.of_nat i
  | None => -1
  end.

(** [l.findIndex(P)] *)
Definition findIndex {A} (P : A → bool) (l : list A) : Z := index_where P l.

(** [l.indexOf(x, fromIndex)] (Array.prototype.indexOf): a negative
    [fromIndex] counts from the end, the search includes position
    [fromIndex] itself. *)
Definition indexOfFrom `{EqDecision A} (x : A) (fromIndex : Z) (l : list A) : Z :=
  let len := Z.of_nat (length l) in
  if decide (len = 0) then -1
  else if decide (len ≤ fromIndex) then -1
  else
    let k := if decide (fromIndex < 0) then Z.max (len + fromIndex) 0
             else fromIndex in
    match index_where (λ y, bool_decide (y = x)) (drop (Z.to_nat k) l) with
    | -1 => -1
    | i => k + i
    end.

(** [l.indexOf(x)] *)
Definition indexOf `{EqDecision A} (x : A) (l : list A) : Z := indexOfFrom x 0 l.

(** [l.splice(start, deleteCount)]: the array as it is left. *)
Definition splice {A} (start deleteCount : Z) (l : list A) : list A :=
  let len := Z.of_nat (length l) in
  let actualStart :=
    if decide (start < 0) then Z.max (len + start) 0 else Z.min start len in
  let actualDeleteCount := Z.min (Z.max deleteCount 0) (len - actualStart) in
  take (Z.to_nat actualStart) l
    ++ drop (Z.to_nat (actualStart + actualDeleteCount)) l.

(** [l[i]]: [None] stands for [undefined]. *)
Definition at_index {A} (l : list A) (i : Z) : option A :=
  if decide (i < 0) then None else l !! Z.to_nat i.

(** [l.some(P)] *)
Definition some {A} (P : A → bool) (l : list A) : bool := existsb P l.

(** A number as [Date.parse] returns it: an integral time value or NaN. *)
Inductive number := NaN | Num (z : Z).

(** ToBoolean on a number: NaN and 0 are falsy. *)
Definition truthy (n : number) : bool :=
  match n with
  | NaN => false
  | Num z => negb (z =? 0)
  end.

(** The exception raised by reading property [reading] of [undefined]. *)
Inductive error := TypeError (reading : string).

Inductive result (A : Type) := Ok (a : A) | Throw (e : error).
Arguments Ok {A} a.
Arguments Throw {A} e.

Definition bind {A B} (m : result A) (k : A → result B) : result B :=
  match m with
  | Ok a => k a
  | Throw e => Throw e
  end.

(** [l[i].p]: the element, or the TypeError of reading [p]. *)
Definition read {A} (l : list A) (i : Z) (p : string) : result A :=
  match at_index l i with
  | Some x => Ok x
  | None => Throw (TypeError p)
  end.

#[global] Instance result_bind : MBind result := λ A B k m, bind m k.
#[global] Instance result_ret : MRet result := @Ok.

(** [l.forEach(f)] threading a state; an exception ends the loop. *)
Fixpoint forEach {S A} (f : S → A → result S) (l : list A) (s : S) : result S :=
  match l with
  | [] => Ok s
  | x :: l' => s' ← f s x; forEach f l' s'
  end.

End JS.
Import JS.

(* ================================================================== *)
(** ** Regular expressions *)
(* ================================================================== *)

(** The patterns of the parser use classes, concatenation, alternation
    and [+] only; none has a back-reference or a look-around, so a
    pattern matches exactly the words of its regular language.  The
    matcher works by derivatives and needs no fuel. *)

Module Regex.

Inductive re :=
| Void                      (* matches nothing *)
| Eps                       (* the empty word *)
| Cls (p : N → bool)        (* one code unit of a class *)
| Cat (r1 r2 : re)
| Alt (r1 r2 : re)
| Star (r : re).

(** [r+] *)
Definition Plus (r : re) : re := Cat r (Star r).

(** One given code unit. *)
Definition Chr (c : N) : re := Cls (N.eqb c).

(** A literal word. *)
Fixpoint Lit (s : jsstring) : re :=
  match s with
  | [] => Eps
  | c :: s' => Cat (Chr c) (Lit s')
  end.

Fixpoint nullable (r : re) : bool :=
  match r with
  | Void => false
  | Eps => true
  | Cls _ => false
  | Cat r1 r2 => nullable r1 && nullable r2
  | Alt r1 r2 => nullable r1 || nullable r2
  | Star _ => true
  end.

Fixpoint deriv (c : N) (r : re) : re :=
  match r with
  | Void => Void
  | Eps => Void
  | Cls p => if p c then Eps else Void
  | Cat r1 r2 =>
      if nullable r1 then Alt (Cat (deriv c r1) r2) (deriv c r2)
      else Cat (deriv c r1) r2
  | Alt r1 r2 => Alt (deriv c r1) (deriv c r2)
  | Star r1 => Cat (deriv c r1) (Star r1)
  end.

(** Does the whole of [s] match [r] (the pattern [^r$])? *)
Fixpoint matches (r : re) (s : jsstring) : bool :=
  match s with
  | [] => nullable r
  | c :: s' => matches (deriv c r) s'
  end.

(** The language of a pattern. *)
Inductive lang : re → jsstring → Prop :=
| lang_eps : lang Eps []
| lang_cls p c : p c = true → lang (Cls p) [c]
| lang_cat r1 r2 s1 s2 : lang r1 s1 → lang r2 s2 → lang (Cat r1 r2) (s1 ++ s2)
| lang_alt_l r1 r2 s : lang r1 s → lang (Alt r1 r2) s
| lang_alt_r r1 r2 s : lang r2 s → lang (Alt r1 r2) s
| lang_star_nil r : lang (Star r) []
| lang_star_app r s1 s2 : lang r s1 → lang (Star r) s2 → lang (Star r) (s1 ++ s2).

(** The lengths a greedy group tries, longest first. *)
Definition greedy_lengths (s : jsstring) : list nat :=
  rev (seq 0 (S (length s))).

(** [s.match(/^(g1)sep(g2)$/)]: the two captured groups.  The first
    group is tried at its longest extent first, as a greedy
    quantifier does. *)
Definition exec2 (g1 : re) (sep : jsstring) (g2 : re) (s : jsstring)
  : option (jsstring * jsstring) :=
  let fits n :=
    matches g1 (take n s) && startsWith sep (drop n s)
    && matches g2 (drop (n + length sep) s) in
  match list_find (λ n, fits n = true) (greedy_lengths s) with
  | Some (_, n) => Some (take n s, drop (n + length sep) s)
  | None => None
  end.

(** [/lit(g)c/] tried at the very start of [s], where [c] is one code
    unit of class [last]: the captured group, longest first.  Nothing
    anchors the end of the match. *)
Definition exec_here (lit : jsstring) (g : re) (last : N → bool) (s : jsstring)
  : option jsstring :=
  if startsWith lit s then
    let rest := drop (length lit) s in
    let fits n :=
      matches g (take n rest)
      && match rest !! n with Some c => last c | None => false end in
    match list_find (λ n, fits n = true) (greedy_lengths rest) with
    | Some (_, n) => Some (take n rest)
    | None => None
    end
  else None.

(** [s.match(/lit(g)c/)]: the group of the leftmost match. *)
Fixpoint exec_search (lit : jsstring) (g : re) (last : N → bool) (s : jsstring)
  : option jsstring :=
  match exec_here lit g last s with
  | Some x => Some x
  | None =>
      match s with
      | [] => None
      | _ :: s' => exec_search lit g last s'
      end
  end.

(** Character classes. *)
Definition is_digit (c : N) : bool := (48 <=? c)%N && (c <=? 57)%N.   (* \d *)
Definition is_upper (c : N) : bool := (65 <=? c)%N && (c <=? 90)%N.   (* [A-Z] *)
Definition is_lower (c : N) : bool := (97 <=? c)%N && (c <=? 122)%N.  (* [a-z] *)
Definition is_lower_or_comma (c : N) : bool := is_lower c || (c =? 44)%N. (* [a-z,] *)
(** [.] without the [s] flag: anything but a line terminator. *)
Definition is_dot (c : N) : bool := negb (is_line_terminator c).

End Regex.
Import Regex.

(* ================================================================== *)
(** ** The data model (models.ts) *)
(* ================================================================== *)

Record Subrule := mkSubrule {
  subrule_id : jsstring;
  subrule_rule : jsstring
}.

Record Rule := mkRule {
  rule_id : jsstring;
  rule_rule : jsstring;
  subrules : list Subrule
}.

Record Subcategory := mkSubcategory {
  subcategory_id : jsstring;
  subcategory_title : jsstring;
  rules : list Rule
}.

Record Category := mkCategory {
  category_id : jsstring;
  category_title : jsstring;
  subcategories : list Subcategory
}.

Record GlossaryTerm := mkGlossaryTerm {
  term : jsstring;
  meanings : list jsstring
}.

Record RulesObject := mkRulesObject {
  ro_rules : list Category;
  ro_glossary : list GlossaryTerm;
  effectiveDate : number
}.

(** [l[i] = x] for an index that is in range (the object at [l[i]]
    mutated in place). *)
Definition store {A} (i : Z) (x : A) (l : list A) : list A :=
  <[Z.to_nat i := x]> l.

(* ================================================================== *)
(** ** parseRules *)
(* ================================================================== *)

(** The four patterns of [parseRules], group by group. *)
Module Patterns.

Definition SP : N := 32%N.

(** [/^(\d)\.((?: (?:[A-Z][a-z,]+|of|a|and))+)$/] *)
Definition category_g1 : re := Cls is_digit.
Definition category_g2 : re :=
  Plus (Cat (Chr SP)
            (Alt (Cat (Cls is_upper) (Plus (Cls is_lower_or_comma)))
                 (Alt (Lit (str "of")) (Alt (Lit (str "a")) (Lit (str "and")))))).
Definition categoryMatch : jsstring → option (jsstring * jsstring) :=
  exec2 category_g1 (str ".") category_g2.

(** [/^(\d\d+)\.((?: (?:[A-Z][a-z]+|of|a))+)$/] *)
Definition subcategory_g1 : re := Cat (Cls is_digit) (Plus (Cls is_digit)).
Definition subcategory_g2 : re :=
  Plus (Cat (Chr SP)
            (Alt (Cat (Cls is_upper) (Plus (Cls is_lower)))
                 (Alt (Lit (str "of")) (Lit (str "a"))))).
Definition subcategoryMatch : jsstring → option (jsstring * jsstring) :=
  exec2 subcategory_g1 (str ".") subcategory_g2.

(** [/^(\d\d+\.\d)\. (.+)$/] *)
Definition rule_g1 : re :=
  Cat (Cls is_digit) (Cat (Plus (Cls is_digit)) (Cat (Chr 46) (Cls is_digit))).
Definition rule_g2 : re := Plus (Cls is_dot).
Definition ruleMatch : jsstring → option (jsstring * jsstring) :=
  exec2 rule_g1 (str ". ") rule_g2.

(** [/^(\d\d+\.\d[a-z]) (.+)$/] *)
Definition subrule_g1 : re :=
  Cat (Cls is_digit)
      (Cat (Plus (Cls is_digit)) (Cat (Chr 46) (Cat (Cls is_digit) (Cls is_lower)))).
Definition subrule_g2 : re := Plus (Cls is_dot).
Definition subruleMatch : jsstring → option (jsstring * jsstring) :=
  exec2 subrule_g1 (str " ") subrule_g2.

End Patterns.
Import Patterns.

(** Which branch of the [if]/[else if] chain a line takes, with the
    values the branch reads off the match. *)
Inductive LineKind :=
| IsCategory (id title : jsstring)
| IsSubcategory (id title : jsstring)
| IsRule (id rule : jsstring)
| IsSubrule (id rule : jsstring)
| Ignored.

Definition classify (line : jsstring) : LineKind :=
  if decide (line = []) then Ignored
  else
    let trimmed := trim line in
    match categoryMatch trimmed with
    | Some (g1, g2) => IsCategory g1 (trim g2)
    | None =>
        match subcategoryMatch trimmed with
        | Some (g1, g2) => IsSubcategory g1 (trim g2)
        | None =>
            match ruleMatch trimmed with
            | Some (g1, g2) => IsRule g1 g2
            | None =>
                match subruleMatch trimmed with
                | Some (g1, g2) => IsSubrule g1 g2
                | None => Ignored
                end
            end
        end
    end.

(** The variables the callback of [parseRules] closes over. *)
Record RulesState := mkRulesState {
  rulesArr : list Category;
  lastCategoryIndex : Z;
  lastSubcategoryIndex : Z;
  lastRuleIndex : Z
}.

Definition rulesInit : RulesState := mkRulesState [] 0 0 0.

(** One call of the callback, once the line is classified. *)
Definition rulesStep (st : RulesState) (k : LineKind) : result RulesState :=
  let '(mkRulesState arr ci si ri) := st in
  match k with
  | IsCategory id title =>
      let category := mkCategory id title [] in
      let categoryExists := some (λ cat, bool_decide (category_id cat = id)) arr in
      let arr' := if categoryExists then arr else arr ++ [category] in
      Ok (mkRulesState arr' (indexOf id (category_id <$> arr')) si ri)
  | IsSubcategory id title =>
      cat ← read arr ci "subcategories";
      let subcategory := mkSubcategory id title [] in
      let subcategoryExists :=
        some (λ subcat, bool_decide (subcategory_id subcat = id)) (subcategories cat) in
      let subs' :=
        if subcategoryExists then subcategories cat
        else subcategories cat ++ [subcategory] in
      let cat' := mkCategory (category_id cat) (category_title cat) subs' in
      Ok (mkRulesState (store ci cat' arr) ci
            (indexOf id (subcategory_id <$> subs')) ri)
  | IsRule id rule =>
      cat ← read arr ci "subcategories";
      sub ← read (subcategories cat) si "rules";
      let rules' := rules sub ++ [mkRule id rule []] in
      let sub' := mkSubcategory (subcategory_id sub) (subcategory_title sub) rules' in
      let cat' :=
        mkCategory (category_id cat) (category_title cat)
          (store si sub' (subcategories cat)) in
      Ok (mkRulesState (store ci cat' arr) ci si (indexOf id (rule_id <$> rules')))
  | IsSubrule id rule =>
      cat ← read arr ci "subcategories";
      sub ← read (subcategories cat) si "rules";
      r ← read (rules sub) ri "subrules";
      let r' := mkRule (rule_id r) (rule_rule r) (subrules r ++ [mkSubrule id rule]) in
      let sub' :=
        mkSubcategory (subcategory_id sub) (subcategory_title sub)
          (store ri r' (rules sub)) in
      let cat' :=
        mkCategory (category_id cat) (category_title cat)
          (store si sub' (subcategories cat)) in
      Ok (mkRulesState (store ci cat' arr) ci si ri)
  | Ignored => Ok st
  end.

(** The loop of [parseRules], from any state. *)
Definition rulesLoop (lines : list jsstring) (st : RulesState) : result RulesState :=
  forEach (λ st line, rulesStep st (classify line)) lines st.

Definition parseRules (lines : list jsstring) : result (list Category) :=
  st ← rulesLoop lines rulesInit; Ok (rulesArr st).

(* ================================================================== *)
(** ** parseGlossary *)
(* ================================================================== *)

Record GlossaryState := mkGlossaryState {
  termsArr : list GlossaryTerm;
  lastTermIndex : Z
}.

Definition glossaryInit : GlossaryState := mkGlossaryState [] 0.

(** The test of the [if] in the callback: the line opens a new term. *)
Definition isTermLine (cleanLine : jsstring) : bool :=
  negb (endsWith (str ".") cleanLine)
  && negb (endsWith [RDQUO] cleanLine)
  && negb (includes (str "See rule") cleanLine).

Definition glossaryStep (st : GlossaryState) (line : jsstring) : result GlossaryState :=
  let '(mkGlossaryState arr idx) := st in
  let cleanLine := trim line in
  if decide (cleanLine = []) then Ok st
  else if isTermLine cleanLine then
    let arr' := arr ++ [mkGlossaryTerm cleanLine []] in
    Ok (mkGlossaryState arr'
          (findIndex (λ t, bool_decide (term t = cleanLine)) arr'))
  else
    t ← read arr idx "meanings";
    Ok (mkGlossaryState
          (store idx (mkGlossaryTerm (term t) (meanings t ++ [cleanLine])) arr) idx).

Definition glossaryLoop (lines : list jsstring) (st : GlossaryState)
  : result GlossaryState :=
  forEach glossaryStep lines st.

Definition parseGlossary (lines : list jsstring) : result (list GlossaryTerm) :=
  st ← glossaryLoop lines glossaryInit; Ok (termsArr st).

(* ================================================================== *)
(** ** The section extractors *)
(* ================================================================== *)

(** The lines [getRules] hands to [parseRules]. *)
Definition rulesLines (rulesText : jsstring) : list jsstring :=
  let lines := split CR rulesText in
  let startingLine := findIndex (λ line, bool_decide (line = str "Credits")) lines + 2 in
  splice 0 startingLine lines.

Definition getRules (rulesText : jsstring) : result (list Category) :=
  parseRules (rulesLines rulesText).

(** ["\nGlossary"] and ["\nCredits"] *)
Definition GLOSSARY : jsstring := LF :: str "Glossary".
Definition CREDITS : jsstring := LF :: str "Credits".

(** The lines [getGlossary] hands to [parseGlossary]. *)
Definition glossaryLines (rulesText : jsstring) : list jsstring :=
  let lines := split CR rulesText in
  let glossaryInTableOfContents := indexOf GLOSSARY lines in
  let startingLine := indexOfFrom GLOSSARY glossaryInTableOfContents lines + 1 in
  let lines := splice 0 startingLine lines in
  let endingLine := indexOf CREDITS lines in
  splice endingLine (Z.of_nat (length lines) - endingLine) lines.

Definition getGlossary (rulesText : jsstring) : result (list GlossaryTerm) :=
  parseGlossary (glossaryLines rulesText).

(* ================================================================== *)
(** ** getEffectiveDate and getRulesObject *)
(* ================================================================== *)

(** ['These rules are effective as of (.+)\.'] is a string literal: the
    backslash is dropped before the pattern is compiled, so the last
    [.] of the pattern stands for any one character of a line. *)
Definition effectiveDatePrefix : jsstring := str "These rules are effective as of ".

Definition effectiveDateMatch (dateLine : jsstring) : option jsstring :=
  exec_search effectiveDatePrefix (Plus (Cls is_dot)) is_dot dateLine.

Section Host.

(** [Date.parse] of the host: for a phrase that is not in the ISO
    format its reading is left to the implementation. *)
Variable Date_parse : jsstring → number.

(** [Some d] is the number returned, [None] is [undefined]. *)
Definition getEffectiveDate (rulesText : jsstring) : result (option number) :=
  dateLine ← read (split CR rulesText) 2 "match";
  match effectiveDateMatch dateLine with
  | Some g1 => Ok (Some (Date_parse g1))
  | None => Ok None
  end.

(** [fetched] is what [getRulesText] resolved to ([None]: undefined). *)
Definition getRulesObject (fetched : option jsstring) : result (option RulesObject) :=
  match fetched with
  | None => Ok None
  | Some [] => Ok None
  | Some rulesText =>
      rules ← getRules rulesText;
      glossary ← getGlossary rulesText;
      effectiveDate ← getEffectiveDate rulesText;
      match effectiveDate with
      | Some d =>
          if truthy d then Ok (Some (mkRulesObject rules glossary d))
          else Ok None
      | None => Ok None
      end
  end.

End Host.

(** Hosts to run the extractor on.  The phrase handed to [Date.parse]
    is not in the ISO format, so a host reads it in its local time
    zone: a phrase of the form [Month D, YYYY], with [D] from 1 to 31
    counted on from the first of the month, is midnight of that day on
    the clock of the host, in milliseconds since the epoch; anything
    else is NaN. *)
Module HostDate.

Definition monthNames : list jsstring :=
  [str "January"; str "February"; str "March"; str "April"; str "May";
   str "June"; str "July"; str "August"; str "September"; str "October";
   str "November"; str "December"].

(** The value of a non-empty decimal numeral. *)
Fixpoint decimal_from (acc : Z) (s : jsstring) : option Z :=
  match s with
  | [] => Some acc
  | c :: s' =>
      if is_digit c then decimal_from (10 * acc + (Z.of_N c - 48)) s'
      else None
  end.

Definition decimal (s : jsstring) : option Z :=
  match s with
  | [] => None
  | _ => decimal_from 0 s
  end.

(** Days from 1970-01-01 to the civil date [y]-[m]-[d] (Gregorian). *)
Definition days_from_civil (y m d : Z) : Z :=
  let y' := if m <=? 2 then y - 1 else y in
  let era := y' / 400 in
  let yoe := y' - era * 400 in
  let mp := (m + 9) mod 12 in
  let doy := (153 * mp + 2) / 5 + d - 1 in
  let doe := yoe * 365 + yoe / 4 - yoe / 100 + doy in
  era * 146097 + doe - 719468.

Definition msPerDay : Z := 86400000.

Definition msPerMinute : Z := 60000.

(** [Date.parse] of a host whose clock is [utcOffset] minutes ahead of
    UTC (negative to the west: -300 is UTC-5). *)
Definition Date_parse_zone (utcOffset : Z) (s : jsstring) : number :=
  match split 32%N s with
  | [mon; day; year] =>
      match list_find (λ n, n = mon) monthNames with
      | Some (i, _) =>
          if endsWith (str ",") day then
            match decimal (take (length day - 1) day), decimal year with
            | Some d, Some y =>
                if (1 <=? d) && (d <=? 31) then
                  Num (days_from_civil y (Z.of_nat i + 1) d * msPerDay
                       - utcOffset * msPerMinute)
                else NaN
            | _, _ => NaN
            end
          else NaN
      | None => NaN
      end
  | _ => NaN
  end.

(** A host whose local time zone is UTC. *)
Definition Date_parse_utc : jsstring → number := Date_parse_zone 0.

End HostDate.

(* ================================================================== *)
(** ** getRulesText, the network, and the worker (index.ts) *)
(* ================================================================== *)

(** What the parser reads of a response of [fetch]. *)
Record HttpResponse := mkHttpResponse {
  ok : bool;
  statusText : jsstring;
  responseText : jsstring       (* what [text()] resolves to *)
}.

(** How a promise is rejected: by a TypeError of the parsers, by the
    [Error] that [getRulesText] throws, or by [fetch] itself. *)
Inductive rejection :=
| TypeErrorThrown (e : error)
| ErrorThrown (message : jsstring)
| FetchRejected.

Inductive promise (A : Type) := Resolved (a : A) | Rejected (r : rejection).
Arguments Resolved {A} a.
Arguments Rejected {A} r.

(** The pattern of the link: the word href, an equals sign and a double
    quote, then the group [(.+/downloads/.+\.txt)], then a double quote
    and the word target with an equals sign.  The pattern is written as
    a string literal, so the backslash is dropped and the character
    before [txt] is any character of the line. *)
Module LinkPattern.

Definition QUOTE : N := 34%N.
Definition linkOpen : jsstring := str "href=" ++ [QUOTE].
Definition DOWNLOADS : jsstring := str "/downloads/".
Definition linkEnd : jsstring := str "txt" ++ QUOTE :: str " target=".

(** The second [.+] of length [n] at the start of [r], then any
    character, then [linkEnd]. *)
Definition tail_fits (r : jsstring) (n : nat) : bool :=
  matches (Plus (Cls is_dot)) (take n r)
  && match r !! n with Some c => is_dot c | None => false end
  && startsWith linkEnd (drop (S n) r).

(** The length the second [.+] takes: the longest that fits. *)
Definition tail_length (r : jsstring) : option nat :=
  snd <$> list_find (λ n, tail_fits r n = true) (greedy_lengths r).

(** With the first [.+] of length [n], the length of the whole group. *)
Definition group_length (rest : jsstring) (n : nat) : option nat :=
  if matches (Plus (Cls is_dot)) (take n rest) && startsWith DOWNLOADS (drop n rest)
  then
    match tail_length (drop (n + length DOWNLOADS) rest) with
    | Some n2 => Some (n + length DOWNLOADS + n2 + 4)%nat
    | None => None
    end
  else None.

(** The pattern tried at the very start of [s]: the captured group,
    the first [.+] at its longest extent first. *)
Definition link_here (s : jsstring) : option jsstring :=
  if startsWith linkOpen s then
    let rest := drop (length linkOpen) s in
    match list_find (λ n, is_Some (group_length rest n)) (greedy_lengths rest) with
    | Some (_, n) =>
        match group_length rest n with
        | Some len => Some (take len rest)
        | None => None
        end
    | None => None
    end
  else None.

(** [page.match(regex)[1]], the group of the leftmost match. *)
Fixpoint linkMatch (page : jsstring) : option jsstring :=
  match link_here page with
  | Some url => Some url
  | None =>
      match page with
      | [] => None
      | _ :: page' => linkMatch page'
      end
  end.

End LinkPattern.
Import LinkPattern.

Definition rulesPageUrl : jsstring := str "https://magic.wizards.com/en/rules".

(** [s.replaceAll(c, "")] for a one-unit [c]. *)
Definition removeAll (c : N) (s : jsstring) : jsstring := filter (λ x, x ≠ c) s.

(** The body of a [Response] of the worker, its status, and the
    [Content-Type] the handler sets, if it sets one. *)
Record Response := mkResponse {
  body : jsstring;
  status : Z;
  contentType : option jsstring
}.

Section Worker.

(** The network at the time of the call, [Date.parse] and
    [JSON.stringify] of the host. *)
Variable fetch : jsstring → promise HttpResponse.
Variable Date_parse : jsstring → number.
Variable JSON_stringify : RulesObject → jsstring.

Definition getRulesText : promise (option jsstring) :=
  match fetch rulesPageUrl with
  | Rejected r => Rejected r
  | Resolved rulesPageResponse =>
      if negb (ok rulesPageResponse) then
        Rejected (ErrorThrown (str "Recieved bad response from rules page: "
                               ++ statusText rulesPageResponse))
      else
        match linkMatch (responseText rulesPageResponse) with
        | Some url =>
            match fetch url with
            | Rejected r => Rejected r
            | Resolved response => Resolved (Some (removeAll 0%N (responseText response)))
            end
        | None => Resolved None
        end
  end.

(** [getRulesObject()] as the worker calls it: the text is fetched,
    then parsed. *)
Definition getRulesObjectFetched : promise (option RulesObject) :=
  match getRulesText with
  | Rejected r => Rejected r
  | Resolved rulesText =>
      match getRulesObject Date_parse rulesText with
      | Ok v => Resolved v
      | Throw e => Rejected (TypeErrorThrown e)
      end
  end.

(** The [fetch] handler of the worker, on the URL of the request. *)
Definition handleRequest (url : jsstring) : promise Response :=
  if includes (str "/v1/rules") url then
    match getRulesObjectFetched with
    | Rejected r => Rejected r
    | Resolved (Some rules) =>
        Resolved (mkResponse (JSON_stringify rules) 200 (Some (str "application/json")))
    | Resolved None =>
        Resolved (mkResponse (str "Couldn't get effective date") 500 None)
    end
  else Resolved (mkResponse (str "Invalid url") 404 None).

End Worker.

(* ================================================================== *)
(** * Vocabulary of the properties *)
(* ================================================================== *)

(** The four levels of the hierarchy and the pattern of each. *)
Inductive Level := LCategory | LSubcategory | LRule | LSubrule.

Definition patternOf (lv : Level) : jsstring → option (jsstring * jsstring) :=
  match lv with
  | LCategory => categoryMatch
  | LSubcategory => subcategoryMatch
  | LRule => ruleMatch
  | LSubrule => subruleMatch
  end.

Definition levelMatches (lv : Level) (trimmed : jsstring) : bool :=
  match patternOf lv trimmed with
  | Some _ => true
  | None => false
  end.

(** The order in which [parseRules] tests the patterns. *)
Definition priority : list Level := [LCategory; LSubcategory; LRule; LSubrule].

(** The level a chain of tests in the given order assigns. *)
Definition firstMatch (order : list Level) (trimmed : jsstring) : option Level :=
  List.find (λ lv, levelMatches lv trimmed) order.

Definition levelOf (k : LineKind) : option Level :=
  match k with
  | IsCategory _ _ => Some LCategory
  | IsSubcategory _ _ => Some LSubcategory
  | IsRule _ _ => Some LRule
  | IsSubrule _ _ => Some LSubrule
  | Ignored => None
  end.

(** A run of decimal digits. *)
Definition digits (ds : jsstring) : Prop := Forall (λ c, is_digit c = true) ds.

(** What tells the levels apart in a line [ds ++ "." ++ rest] that
    starts with a run of digits and a period: the length of the run and
    what follows the period. *)
Definition signature (lv : Level) (ds rest : jsstring) : Prop :=
  match lv with
  | LCategory => length ds = 1%nat
  | LSubcategory => (2 ≤ length ds)%nat ∧ ∃ r, rest = SP :: r
  | LRule =>
      (2 ≤ length ds)%nat ∧ ∃ d r, is_digit d = true ∧ rest = d :: 46%N :: r
  | LSubrule =>
      (2 ≤ length ds)%nat
      ∧ ∃ d x r, is_digit d = true ∧ is_lower x = true ∧ rest = d :: x :: r
  end.

(** A document with the glossary heading in the table of contents and
    again at the head of the glossary, then the credits. *)
Definition twoHeadingsDocument : jsstring :=
  str "Contents" ++ CR :: GLOSSARY ++ CR :: LF :: str "Introduction"
  ++ CR :: GLOSSARY ++ CR :: LF :: str "Abandon" ++ CR :: CREDITS.

(** The time value of midnight UTC of a civil date, in milliseconds. *)
Definition midnightUTC (y m d : Z) : Z :=
  HostDate.days_from_civil y m d * HostDate.msPerDay.

(** The trimmed non-blank lines, as [parseGlossary] sees them. *)
Definition cleanLines (lines : list jsstring) : list jsstring :=
  filter (λ c, c ≠ []) (trim <$> lines).

(** The lines that open a term. *)
Definition termLines (lines : list jsstring) : list jsstring :=
  filter (λ c, isTermLine c = true) (cleanLines lines).

(** A continuation line, or a blank one. *)
Definition continues (line : jsstring) : Prop :=
  trim line = [] ∨ isTermLine (trim line) = false.

(** The first non-blank line, if there is one, opens a term. *)
Definition opensWithTerm (lines : list jsstring) : Prop :=
  match cleanLines lines with
  | [] => True
  | c :: _ => isTermLine c = true
  end.

(** Entry [i] is the first one that carries its term. *)
Definition firstOfItsTerm (arr : list GlossaryTerm) (i : nat) : Prop :=
  ∃ t, arr !! i = Some t
       ∧ ∀ j tj, (j < i)%nat → arr !! j = Some tj → term tj ≠ term t.

(** An entry that repeats the term of an earlier entry has no meaning. *)
Definition laterDuplicatesEmpty (arr : list GlossaryTerm) : Prop :=
  ∀ i j ti tj, (i < j)%nat → arr !! i = Some ti → arr !! j = Some tj →
               term ti = term tj → meanings tj = [].

(** What every state of the loop of [parseGlossary] satisfies. *)
Definition GlossaryInv (st : GlossaryState) : Prop :=
  laterDuplicatesEmpty (termsArr st)
  ∧ (termsArr st = []
     ∨ ∃ i : nat, lastTermIndex st = Z.of_nat i ∧ firstOfItsTerm (termsArr st) i).

(** *** The tree of [parseRules] *)

(** Paths of the tree, by id. *)
Definition hasCategory (tree : list Category) (c : jsstring) : Prop :=
  ∃ cat, cat ∈ tree ∧ category_id cat = c.

Definition hasSubcategory (tree : list Category) (c s : jsstring) : Prop :=
  ∃ cat sub, cat ∈ tree ∧ category_id cat = c
             ∧ sub ∈ subcategories cat ∧ subcategory_id sub = s.

Definition hasRule (tree : list Category) (c s r text : jsstring) : Prop :=
  ∃ cat sub rule, cat ∈ tree ∧ category_id cat = c
                  ∧ sub ∈ subcategories cat ∧ subcategory_id sub = s
                  ∧ rule ∈ rules sub ∧ rule_id rule = r ∧ rule_rule rule = text.

Definition hasSubrule (tree : list Category) (c s r q text : jsstring) : Prop :=
  ∃ cat sub rule, cat ∈ tree ∧ category_id cat = c
                  ∧ sub ∈ subcategories cat ∧ subcategory_id sub = s
                  ∧ rule ∈ rules sub ∧ rule_id rule = r
                  ∧ mkSubrule q text ∈ subrules rule.

(** The ancestors a line can rely on, read off the lines before it: the
    id of the last Category line; the id of the last Subcategory line,
    if no Category line came after it; the id of the last Rule line, if
    no Category or Subcategory line came after it. *)
Record Ancestors := mkAncestors {
  ofCategory : option jsstring;
  ofSubcategory : option jsstring;
  ofRule : option jsstring
}.

Definition advance (a : Ancestors) (k : LineKind) : Ancestors :=
  match k with
  | IsCategory id _ => mkAncestors (Some id) None None
  | IsSubcategory id _ => mkAncestors (ofCategory a) (Some id) None
  | IsRule id _ => mkAncestors (ofCategory a) (ofSubcategory a) (Some id)
  | IsSubrule _ _ => a
  | Ignored => a
  end.

Definition ancestorsFrom (a : Ancestors) (lines : list jsstring) : Ancestors :=
  fold_left (λ a line, advance a (classify line)) lines a.

Definition ancestorsAfter (lines : list jsstring) : Ancestors :=
  ancestorsFrom (mkAncestors None None None) lines.

(** The ids of the Rule lines and of the Subrule lines of an input. *)
Definition ruleLineIds (lines : list jsstring) : list jsstring :=
  omap (λ line, match classify line with IsRule id _ => Some id | _ => None end) lines.

Definition subruleLineIds (lines : list jsstring) : list jsstring :=
  omap (λ line, match classify line with IsSubrule id _ => Some id | _ => None end) lines.

(** All rule ids and all subrule ids of a tree. *)
Definition allRuleIds (tree : list Category) : list jsstring :=
  cat ← tree; sub ← subcategories cat; rule_id <$> rules sub.

Definition allSubruleIds (tree : list Category) : list jsstring :=
  cat ← tree; sub ← subcategories cat; rule ← rules sub; subrule_id <$> subrules rule.

(** The cursors point at the ancestors the lines so far have named. *)
Definition Coherent (a : Ancestors) (st : RulesState) : Prop :=
  match ofCategory a with
  | None => True
  | Some c =>
      ∃ cat, at_index (rulesArr st) (lastCategoryIndex st) = Some cat
             ∧ category_id cat = c
             ∧ match ofSubcategory a with
               | None => True
               | Some s =>
                   ∃ sub, at_index (subcategories cat) (lastSubcategoryIndex st) = Some sub
                          ∧ subcategory_id sub = s
                          ∧ match ofRule a with
                            | None => True
                            | Some r =>
                                ∃ rule, at_index (rules sub) (lastRuleIndex st) = Some rule
                                        ∧ rule_id rule = r
                            end
               end
  end.

(** Categories are unique by id, and so are the subcategories of a
    category. *)
Definition Deduplicated (tree : list Category) : Prop :=
  NoDup (category_id <$> tree)
  ∧ ∀ cat, cat ∈ tree → NoDup (subcategory_id <$> subcategories cat).

(** Growth of the tree: an entity keeps its place, its id and its text,
    and its children only grow. *)
Definition listExt {A} (R : A → A → Prop) (l l' : list A) : Prop :=
  ∀ i x, l !! i = Some x → ∃ x', l' !! i = Some x' ∧ R x x'.

Definition ruleExt (r r' : Rule) : Prop :=
  rule_id r = rule_id r' ∧ rule_rule r = rule_rule r'
  ∧ listExt eq (subrules r) (subrules r').

Definition subcategoryExt (s s' : Subcategory) : Prop :=
  subcategory_id s = subcategory_id s' ∧ subcategory_title s = subcategory_title s'
  ∧ listExt ruleExt (rules s) (rules s').

Definition categoryExt (c c' : Category) : Prop :=
  category_id c = category_id c' ∧ category_title c = category_title c'
  ∧ listExt subcategoryExt (subcategories c) (subcategories c').

Definition treeExt : list Category → list Category → Prop := listExt categoryExt.

(** Where a line is attached, given the ancestors named before it. *)
Definition Attached (a : Ancestors) (k : LineKind) (tree : list Category) : Prop :=
  match k with
  | IsCategory c _ => hasCategory tree c
  | IsSubcategory s _ =>
      ∀ c, ofCategory a = Some c → hasSubcategory tree c s
  | IsRule r text =>
      ∀ c s, ofCategory a = Some c → ofSubcategory a = Some s →
             hasRule tree c s r text
  | IsSubrule q text =>
      ∀ c s r, ofCategory a = Some c → ofSubcategory a = Some s →
               ofRule a = Some r → hasSubrule tree c s r q text
  | Ignored => True
  end.

(** The array after [if (!l.some(y => y.id === k)) l.push(x)]. *)
Definition pushIfNew {A} (key : A → jsstring) (k : jsstring) (x : A) (l : list A)
  : list A :=
  if some (λ y, bool_decide (key y = k)) l then l else l ++ [x].

(** Inputs on which the claims are run. *)

(** The header of category 1 comes back after category 2, then the same
    Rule line twice. *)
Definition repeatedRuleLines : list jsstring :=
  [str "1. Game Concepts"; str "100. General"; str "2. Parts of a Card";
   str "200. General"; str "1. Game Concepts"; str "100.1. Text";
   str "100.1. Text"].

(** The same Subcategory header under two categories. *)
Definition repeatedSubcategoryLines : list jsstring :=
  [str "1. Game Concepts"; str "100. General"; str "2. Parts of a Card";
   str "100. General"].

(** Both headers repeated, then a rule and a subrule. *)
Definition repeatedHeaderLines : list jsstring :=
  [str "1. Game Concepts"; str "100. General"; str "1. Game Concepts";
   str "100. General"; str "100.1. These are the rules.";
   str "100.1a This means something."].

(** *** Vocabulary of the further properties *)

(** The ancestors a line of kind [k] is attached under are named. *)
Definition named (k : LineKind) (a : Ancestors) : bool :=
  let isSome (o : option jsstring) := match o with Some _ => true | None => false end in
  match k with
  | IsCategory _ _ => true
  | IsSubcategory _ _ => isSome (ofCategory a)
  | IsRule _ _ => isSome (ofCategory a) && isSome (ofSubcategory a)
  | IsSubrule _ _ =>
      isSome (ofCategory a) && isSome (ofSubcategory a) && isSome (ofRule a)
  | Ignored => true
  end.

(** Every line comes after the headers it belongs under: a Subcategory
    line after a Category line, a Rule line after a Subcategory line of
    the current category, a Subrule line after a Rule line of the
    current subcategory. *)
Fixpoint wellNestedFrom (a : Ancestors) (lines : list jsstring) : bool :=
  match lines with
  | [] => true
  | line :: lines' =>
      named (classify line) a && wellNestedFrom (advance a (classify line)) lines'
  end.

Definition wellNested (lines : list jsstring) : bool :=
  wellNestedFrom (mkAncestors None None None) lines.

(** The Category lines of an input, as (id, title). *)
Definition categoryHeaders (lines : list jsstring) : list (jsstring * jsstring) :=
  omap (λ line, match classify line with
                | IsCategory id title => Some (id, title)
                | _ => None
                end) lines.

(** The headers with an id not seen before, in order. *)
Definition firstHeaders (hs : list (jsstring * jsstring)) : list (jsstring * jsstring) :=
  fold_left (λ acc h, if bool_decide (h.1 ∈ acc.*1) then acc else acc ++ [h]) hs [].

(** The glossary read from the end: the continuation lines not yet
    given to a term, and the terms with their meanings. *)
Definition grouped (cs : list jsstring) : list jsstring * list GlossaryTerm :=
  foldr (λ c acc, if isTermLine c then ([], mkGlossaryTerm c acc.1 :: acc.2)
                  else (c :: acc.1, acc.2))
        ([], []) cs.

Definition allMeanings (terms : list GlossaryTerm) : list jsstring :=
  t ← terms; meanings t.

Definition continuationLines (lines : list jsstring) : list jsstring :=
  filter (λ c, isTermLine c = false) (cleanLines lines).

(** The forms of the ids. *)
Definition categoryIdForm (id : jsstring) : Prop :=
  ∃ d, is_digit d = true ∧ id = [d].

Definition subcategoryIdForm (id : jsstring) : Prop :=
  digits id ∧ (2 ≤ length id)%nat.

Definition ruleIdForm (id : jsstring) : Prop :=
  ∃ ds d, digits ds ∧ (2 ≤ length ds)%nat ∧ is_digit d = true
          ∧ id = ds ++ [46%N; d].

Definition subruleIdForm (id : jsstring) : Prop :=
  ∃ ds d x, digits ds ∧ (2 ≤ length ds)%nat ∧ is_digit d = true
            ∧ is_lower x = true ∧ id = ds ++ [46%N; d; x].

(** Every id of the tree satisfies the predicate of its level. *)
Definition TreeIds (Pc Ps Pr Pq : jsstring → Prop) (tree : list Category) : Prop :=
  ∀ cat, cat ∈ tree →
    Pc (category_id cat)
    ∧ ∀ sub, sub ∈ subcategories cat →
        Ps (subcategory_id sub)
        ∧ ∀ rule, rule ∈ rules sub →
            Pr (rule_id rule)
            ∧ ∀ q, q ∈ subrules rule → Pq (subrule_id q).

(** The id a line carries satisfies the predicate of its level. *)
Definition kindOk (Pc Ps Pr Pq : jsstring → Prop) (k : LineKind) : Prop :=
  match k with
  | IsCategory id _ => Pc id
  | IsSubcategory id _ => Ps id
  | IsRule id _ => Pr id
  | IsSubrule id _ => Pq id
  | Ignored => True
  end.

(** A network to run the worker on: the rules page links to a text
    file, and the server answers 404 with a body for that file. *)
Definition sampleLink : jsstring := str "https://media.wizards.com/downloads/Rules.txt".

Definition sampleDocument : jsstring :=
  str "Rules" ++ CR :: CR :: 0%N
  :: str "These rules are effective as of November 8, 2024." ++ 0%N :: CR
  :: str "Credits" ++ CR :: CR :: str "1. Game Concepts".

Definition sampleNetwork (url : jsstring) : promise HttpResponse :=
  if decide (url = rulesPageUrl) then
    Resolved (mkHttpResponse true (str "OK")
                (str "<a href=" ++ [QUOTE] ++ sampleLink ++ [QUOTE] ++ str " target=_blank>"))
  else if decide (url = sampleLink) then
    Resolved (mkHttpResponse false (str "Not Found") sampleDocument)
  else Rejected FetchRejected.

(** A stand-in for [JSON.stringify]: it prints the numbers of
    categories and of glossary terms in unary. *)
Definition sampleStringify (obj : RulesObject) : jsstring :=
  str "rules:" ++ replicate (length (ro_rules obj)) 49%N
  ++ str ",glossary:" ++ replicate (length (ro_glossary obj)) 49%N.

(* ================================================================== *)
(** * Properties *)
(* ================================================================== *)

(** ** Arrays *)

Section ArrayFacts.
Context {A : Type}.
Implicit Types (l : list A) (P : A → bool).

Lemma index_where_found P l i x :
  l !! i = Some x → P x = true →
  (∀ j y, l !! j = Some y → (j < i)%nat → P y = false) →
  index_where P l = Z.of_nat i.
Proof.
  intros Hi HP Hmin. unfold index_where.
  destruct (list_find _ l) as [[j y]|] eqn:E.
  - apply list_find_Some in E as (Hj & HPy & Hlt).
    destruct (lt_eq_lt_dec i j) as [[Hlt'| -> ]|Hgt]; [|done|].
    + exfalso. by apply (Hlt i x).
    + rewrite (Hmin j y) in HPy; done.
  - apply list_find_None in E. rewrite Forall_forall in E.
    exfalso. eapply E; [|done]. by eapply list_elem_of_lookup_2.
Qed.

Lemma index_where_inv P l :
  (index_where P l = -1 ∧ ∀ x, x ∈ l → P x = false)
  ∨ (∃ i x, index_where P l = Z.of_nat i ∧ l !! i = Some x ∧ P x = true
            ∧ ∀ j y, l !! j = Some y → (j < i)%nat → P y = false).
Proof.
  unfold index_where. destruct (list_find _ l) as [[j y]|] eqn:E.
  - right. apply list_find_Some in E as (Hj & HPy & Hlt).
    exists j, y. repeat split; [done..|].
    intros k z Hk Hkj. specialize (Hlt k z Hk Hkj).
    by destruct (P z).
  - left. split; [done|]. apply list_find_None in E.
    rewrite Forall_forall in E. intros x Hx.
    specialize (E x Hx). by destruct (P x).
Qed.

Lemma index_where_absent P l :
  (∀ x, x ∈ l → P x = false) → index_where P l = -1.
Proof.
  intros H. destruct (index_where_inv P l) as [[? _]|(i & x & _ & Hi & HP & _)]; [done|].
  rewrite H in HP; [done|]. by eapply list_elem_of_lookup_2.
Qed.

Lemma splice_front (n : Z) l : 0 ≤ n → splice 0 n l = drop (Z.to_nat n) l.
Proof.
  intros Hn. unfold splice. rewrite decide_False by lia.
  rewrite Z.min_l by lia. simpl.
  destruct (decide (n ≤ Z.of_nat (length l))).
  - f_equal. lia.
  - rewrite !drop_ge; [done|lia..].
Qed.

Lemma splice_tail (e : Z) l :
  0 ≤ e → splice e (Z.of_nat (length l) - e) l = take (Z.to_nat e) l.
Proof.
  intros He. unfold splice. rewrite decide_False by lia.
  destruct (decide (e ≤ Z.of_nat (length l))).
  - rewrite Z.min_l by lia. rewrite drop_ge by lia. by rewrite app_nil_r.
  - rewrite Z.min_r by lia. rewrite drop_ge by lia.
    rewrite app_nil_r. rewrite !take_ge; [done|lia..].
Qed.

Lemma splice_tail_absent l :
  splice (-1) (Z.of_nat (length l) - -1) l = take (length l - 1) l.
Proof.
  unfold splice. rewrite decide_True by lia.
  destruct l as [|a l]; [done|].
  rewrite Z.max_l by (simpl; lia). rewrite drop_ge by (simpl; lia).
  rewrite app_nil_r. f_equal. simpl. lia.
Qed.

Lemma at_index_nat l (i : nat) : at_index l (Z.of_nat i) = l !! i.
Proof. unfold at_index. rewrite decide_False by lia. by rewrite Nat2Z.id. Qed.

Lemma read_nat l (i : nat) p x : l !! i = Some x → read l (Z.of_nat i) p = Ok x.
Proof. intros H. unfold read. by rewrite at_index_nat, H. Qed.

Lemma read_empty (i : Z) p : read (@nil A) i p = Throw (TypeError p).
Proof. unfold read, at_index. case_decide; [done|]. by rewrite lookup_nil. Qed.

Lemma bind_Ok {B} (a : A) (k : A → result B) : (x ← Ok a; k x) = k a.
Proof. done. Qed.

Lemma bind_Throw {B} e (k : A → result B) : (x ← Throw e; k x) = Throw e.
Proof. done. Qed.

Lemma forEach_app {S} (f : S → A → result S) l1 l2 s :
  forEach f (l1 ++ l2) s = (s' ← forEach f l1 s; forEach f l2 s').
Proof.
  revert s. induction l1 as [|x l1 IH]; intros s; [done|].
  simpl. destruct (f s x) as [s'|e]; [apply IH|done].
Qed.

Lemma forEach_skip {S} (f : S → A → result S) l s :
  Forall (λ x, f s x = Ok s) l → forEach f l s = Ok s.
Proof. induction 1 as [|x l Hx _ IH]; [done|]. simpl. by rewrite Hx. Qed.

End ArrayFacts.

Section IndexOfFacts.
Context `{EqDecision A}.
Implicit Types (l : list A) (x : A).

Lemma indexOf_index_where x l :
  indexOf x l = index_where (λ y, bool_decide (y = x)) l.
Proof.
  unfold indexOf, indexOfFrom. destruct l as [|a l]; [done|].
  rewrite decide_False by (simpl; lia). rewrite decide_False by (simpl; lia).
  rewrite decide_False by lia. simpl drop.
  destruct (index_where_inv (λ y, bool_decide (y = x)) (a :: l))
    as [[-> _]|(i & y & -> & _)]; [done|].
  destruct i; [done|]. simpl. lia.
Qed.

Lemma indexOf_absent x l : x ∉ l → indexOf x l = -1.
Proof.
  intros H. rewrite indexOf_index_where. apply index_where_absent.
  intros y Hy. apply bool_decide_eq_false. by intros ->.
Qed.

Lemma indexOf_inv x l :
  (indexOf x l = -1 ∧ x ∉ l)
  ∨ (∃ i : nat, indexOf x l = Z.of_nat i ∧ l !! i = Some x
                ∧ ∀ j, (j < i)%nat → l !! j ≠ Some x).
Proof.
  rewrite indexOf_index_where.
  destruct (index_where_inv (λ y, bool_decide (y = x)) l)
    as [[-> H]|(i & y & -> & Hi & HP & Hmin)].
  - left. split; [done|]. intros Hx. specialize (H x Hx).
    by rewrite bool_decide_eq_false in H.
  - right. exists i. apply bool_decide_eq_true in HP as ->.
    repeat split; [done|]. intros j Hj Hl. specialize (Hmin j x Hl Hj).
    by rewrite bool_decide_eq_false in Hmin.
Qed.

Lemma indexOf_present x l :
  x ∈ l → ∃ i : nat, indexOf x l = Z.of_nat i ∧ l !! i = Some x
                     ∧ ∀ j, (j < i)%nat → l !! j ≠ Some x.
Proof. intros H. by destruct (indexOf_inv x l) as [[_ ?]|?]. Qed.

(** Searching again from the position just found finds the same
    position: [fromIndex] is inclusive. *)
Lemma indexOfFrom_same x l : indexOfFrom x (indexOf x l) l = indexOf x l.
Proof.
  destruct (indexOf_inv x l) as [[E Hx]|(i & E & Hi & Hmin)]; rewrite E.
  - unfold indexOfFrom. destruct (decide (Z.of_nat (length l) = 0)); [done|].
    rewrite decide_False by lia. rewrite decide_True by lia.
    rewrite index_where_absent; [done|].
    intros y Hy. apply bool_decide_eq_false. intros ->.
    by apply (subseteq_drop _ l) in Hy.
  - pose proof (lookup_lt_Some _ _ _ Hi) as Hlt.
    unfold indexOfFrom. rewrite decide_False by lia.
    rewrite decide_False by lia. rewrite decide_False by lia.
    rewrite Nat2Z.id.
    rewrite (index_where_found _ _ 0%nat x).
    + destruct i; simpl; lia.
    + rewrite lookup_drop. by rewrite Nat.add_0_r.
    + by apply bool_decide_eq_true.
    + intros; lia.
Qed.

End IndexOfFacts.

(** ** The section extractors *)

(** The second search of [getGlossary] starts at the table-of-contents
    heading itself, so the body starts after the first heading. *)
Lemma glossaryLines_first_heading rulesText :
  glossaryLines rulesText =
    let lines := split CR rulesText in
    let lines := splice 0 (indexOf GLOSSARY lines + 1) lines in
    let endingLine := indexOf CREDITS lines in
    splice endingLine (Z.of_nat (length lines) - endingLine) lines.
Proof. unfold glossaryLines. by rewrite indexOfFrom_same. Qed.

(** C1, evaluated on the code: on [twoHeadingsDocument] the lines
    handed to [parseGlossary] start right after the FIRST glossary
    heading; they contain the line between the two headings and the
    second heading itself, and all three become glossary terms.  The
    lines strictly between the second heading and the credits would be
    the single line ["\nAbandon"]. *)
Theorem getGlossary_starts_after_first_heading :
  split CR twoHeadingsDocument =
    [str "Contents"; GLOSSARY; LF :: str "Introduction"; GLOSSARY;
     LF :: str "Abandon"; CREDITS]
  ∧ glossaryLines twoHeadingsDocument =
      [LF :: str "Introduction"; GLOSSARY; LF :: str "Abandon"]
  ∧ glossaryLines twoHeadingsDocument ≠ [LF :: str "Abandon"]
  ∧ getGlossary twoHeadingsDocument =
      Ok [mkGlossaryTerm (str "Introduction") [];
          mkGlossaryTerm (str "Glossary") [];
          mkGlossaryTerm (str "Abandon") []].
Proof.
  split; [vm_compute; reflexivity|].
  split; [vm_compute; reflexivity|].
  split; [vm_compute; discriminate|vm_compute; reflexivity].
Qed.

(** C3, as stated, fails: a document without any line ["Credits"] is
    not rejected by [getRules]; the lines after the first are parsed
    and a category comes back. *)
Lemma getRules_without_credits_parses :
  let doc := str "Contents" ++ CR :: str "1. Game Concepts" in
  ((str "Credits" ∉ split CR doc)
   ∧ getRules doc = Ok [mkCategory (str "1") (str "Game Concepts") []]).
Proof.
  split; [|vm_compute; reflexivity].
  apply (bool_decide_unpack _). vm_compute. exact I.
Qed.

(** C3, amended: an absent anchor does not make an extractor fail.
    Without a line ["Credits"], [getRules] parses every line but the
    first.  Without a glossary heading, [getGlossary] parses from the
    first line on.  Without a credits marker after the start of the
    glossary, [getGlossary] parses the range without its last line. *)
Theorem extractors_without_anchor rulesText :
  let lines := split CR rulesText in
  (str "Credits" ∉ lines → getRules rulesText = parseRules (drop 1 lines))
  ∧ (GLOSSARY ∉ lines →
     ∀ n : nat, indexOf CREDITS lines = Z.of_nat n →
       getGlossary rulesText = parseGlossary (take n lines))
  ∧ (CREDITS ∉ lines →
     let body := drop (Z.to_nat (indexOf GLOSSARY lines + 1)) lines in
     getGlossary rulesText = parseGlossary (take (length body - 1) body)).
Proof.
  intros lines. repeat split.
  - intros H. unfold getRules, rulesLines. fold lines.
    unfold findIndex. rewrite index_where_absent.
    + by rewrite splice_front.
    + intros y Hy. apply bool_decide_eq_false. by intros ->.
  - intros H n Hn. unfold getGlossary. rewrite glossaryLines_first_heading.
    fold lines. cbv zeta. rewrite (indexOf_absent _ _ H).
    rewrite splice_front by lia. change (Z.to_nat (-1 + 1)) with 0%nat.
    rewrite drop_0. rewrite Hn.
    rewrite splice_tail by lia. by rewrite Nat2Z.id.
  - intros H body. unfold getGlossary. rewrite glossaryLines_first_heading.
    fold lines. cbv zeta.
    assert (-1 ≤ indexOf GLOSSARY lines) as Hge.
    { destruct (indexOf_inv GLOSSARY lines) as [[-> _]|(i & -> & _)]; lia. }
    rewrite splice_front by lia. fold body.
    rewrite indexOf_absent.
    + by rewrite splice_tail_absent.
    + intros Hin. apply H. by apply (subseteq_drop _ lines) in Hin.
Qed.

Lemma extractors_without_anchor_witness :
  let doc := str "Contents" ++ CR :: str "1. Game Concepts" in
  getRules doc = parseRules (drop 1 (split CR doc)).
Proof.
  intros doc. apply (proj1 (extractors_without_anchor doc)).
  apply (bool_decide_unpack _). vm_compute. exact I.
Defined.

(** ** The effective date *)

(** The group captured from the sentence: the date phrase, without the
    final period. *)
Lemma effectiveDateMatch_november_8_2024 :
  effectiveDateMatch (str "These rules are effective as of November 8, 2024.")
  = Some (str "November 8, 2024").
Proof. vm_compute. reflexivity. Qed.

(** C7, as stated, does not hold on every host: [getEffectiveDate]
    returns what [Date.parse] makes of the phrase and normalises
    nothing.  On a host five hours behind UTC the third line is the
    sentence and the result is 1731042000000, midnight of 2024-11-08 on
    the clock of the host, five hours after midnight UTC. *)
Lemma getEffectiveDate_follows_host_zone :
  let doc :=
    str "Magic: The Gathering Comprehensive Rules" ++ CR :: CR ::
    str "These rules are effective as of November 8, 2024." ++ CR :: str "Introduction" in
  split CR doc !! 2%nat
    = Some (str "These rules are effective as of November 8, 2024.")
  ∧ getEffectiveDate (HostDate.Date_parse_zone (-300)) doc
    = Ok (Some (Num 1731042000000))
  ∧ 1731042000000 ≠ midnightUTC 2024 11 8.
Proof. split_and!; [vm_compute; reflexivity..|vm_compute; discriminate]. Qed.

(** C7, amended.  When the third line is exactly the sentence for
    November 8, 2024, [getEffectiveDate] returns [Date.parse] of the
    phrase ["November 8, 2024"], the sentence without its words and its
    period, as the host reads it.  The result is the time value of
    midnight UTC of 2024-11-08, 1731024000000 ms, exactly when that is
    the reading of the host. *)
Theorem getEffectiveDate_november_8_2024
    (Date_parse : jsstring → number) (rulesText : jsstring) :
  split CR rulesText !! 2%nat
    = Some (str "These rules are effective as of November 8, 2024.") →
  getEffectiveDate Date_parse rulesText
    = Ok (Some (Date_parse (str "November 8, 2024")))
  ∧ (getEffectiveDate Date_parse rulesText = Ok (Some (Num (midnightUTC 2024 11 8)))
     ↔ Date_parse (str "November 8, 2024") = Num (midnightUTC 2024 11 8))
  ∧ midnightUTC 2024 11 8 = 1731024000000.
Proof.
  intros Hline.
  assert (getEffectiveDate Date_parse rulesText
          = Ok (Some (Date_parse (str "November 8, 2024")))) as Hret.
  { unfold getEffectiveDate.
    rewrite (read_nat _ 2 _ _ Hline), bind_Ok.
    by rewrite effectiveDateMatch_november_8_2024. }
  split_and!; [done| |done].
  rewrite Hret. split; intros H; congruence.
Qed.

Lemma getEffectiveDate_november_8_2024_witness :
  getEffectiveDate HostDate.Date_parse_utc
    (str "Magic: The Gathering Comprehensive Rules" ++ CR :: CR ::
     str "These rules are effective as of November 8, 2024." ++ CR :: str "Introduction")
  = Ok (Some (Num (midnightUTC 2024 11 8))).
Proof.
  apply (getEffectiveDate_november_8_2024 HostDate.Date_parse_utc);
    vm_compute; reflexivity.
Defined.




(** ** Regular expressions: the matcher decides the language *)

Lemma lang_void_inv s : lang Void s → False.
Proof. inversion 1. Qed.

Lemma lang_eps_inv s : lang Eps s → s = [].
Proof. by inversion 1. Qed.

Lemma lang_cls_inv p s : lang (Cls p) s → ∃ c, s = [c] ∧ p c = true.
Proof. inversion 1; subst. eauto. Qed.

Lemma lang_cat_inv r1 r2 s :
  lang (Cat r1 r2) s → ∃ s1 s2, s = s1 ++ s2 ∧ lang r1 s1 ∧ lang r2 s2.
Proof. inversion 1; subst. eauto. Qed.

Lemma lang_alt_inv r1 r2 s : lang (Alt r1 r2) s → lang r1 s ∨ lang r2 s.
Proof. inversion 1; subst; auto. Qed.

Lemma lang_cat_cons r1 r2 c s1 s2 :
  lang r1 (c :: s1) → lang r2 s2 → lang (Cat r1 r2) (c :: s1 ++ s2).
Proof. intros H1 H2. apply (lang_cat r1 r2 (c :: s1) s2 H1 H2). Qed.

Lemma nullable_lang r : nullable r = true ↔ lang r [].
Proof.
  split.
  - induction r; simpl; intros H; try done.
    + constructor.
    + apply andb_true_iff in H as [H1 H2].
      apply (lang_cat _ _ [] []); auto.
    + apply orb_true_iff in H as [H|H]; [apply lang_alt_l|apply lang_alt_r]; auto.
    + constructor.
  - induction r as [| |p|r1 IH1 r2 IH2|r1 IH1 r2 IH2|r1 IH1]; simpl; intros H.
    + by apply lang_void_inv in H.
    + done.
    + apply lang_cls_inv in H as (c & ? & _). done.
    + apply lang_cat_inv in H as (s1 & s2 & E & H1 & H2).
      symmetry in E. apply app_eq_nil in E as [-> ->].
      apply andb_true_iff; auto.
    + apply lang_alt_inv in H as [H|H]; apply orb_true_iff; auto.
    + done.
Qed.

Lemma lang_star_cons_inv r c s :
  lang (Star r) (c :: s) →
  ∃ s1 s2, s = s1 ++ s2 ∧ lang r (c :: s1) ∧ lang (Star r) s2.
Proof.
  intros H. remember (Star r) as r' eqn:Er. remember (c :: s) as w eqn:Ew.
  revert s Ew. induction H as [| | | | | |r0 s1 s2 H1 _ H2 IH2]; intros w Ew; try done.
  injection Er as ->. destruct s1 as [|c1 s1].
  - simpl in Ew. by apply IH2.
  - simpl in Ew. injection Ew as -> <-. by exists s1, s2.
Qed.

Lemma deriv_lang c r s : lang (deriv c r) s ↔ lang r (c :: s).
Proof.
  split.
  - revert s. induction r as [| |p|r1 IH1 r2 IH2|r1 IH1 r2 IH2|r1 IH1];
      simpl; intros s H.
    + by apply lang_void_inv in H.
    + by apply lang_void_inv in H.
    + destruct (p c) eqn:Hp; [|by apply lang_void_inv in H].
      apply lang_eps_inv in H as ->. by constructor.
    + assert (∀ w, lang (Cat (deriv c r1) r2) w → lang (Cat r1 r2) (c :: w)) as Hcat.
      { intros w (s1 & s2 & -> & H1 & H2)%lang_cat_inv.
        apply lang_cat_cons; auto. }
      destruct (nullable r1) eqn:Hn; [|by apply Hcat].
      apply lang_alt_inv in H as [H|H]; [by apply Hcat|].
      apply (lang_cat _ _ [] (c :: s)); [|auto].
      by apply nullable_lang.
    + apply lang_alt_inv in H as [H|H]; [apply lang_alt_l|apply lang_alt_r]; auto.
    + apply lang_cat_inv in H as (s1 & s2 & -> & H1 & H2).
      apply (lang_star_app _ (c :: s1) s2); auto.
  - revert s. induction r as [| |p|r1 IH1 r2 IH2|r1 IH1 r2 IH2|r1 IH1];
      simpl; intros s H.
    + by apply lang_void_inv in H.
    + by apply lang_eps_inv in H.
    + apply lang_cls_inv in H as (c' & [= <- ->] & Hp).
      rewrite Hp. constructor.
    + apply lang_cat_inv in H as (s1 & s2 & E & H1 & H2).
      destruct s1 as [|c1 s1]; simpl in E; subst.
      * apply nullable_lang in H1. rewrite H1. apply lang_alt_r. auto.
      * injection E as <- ->.
        assert (lang (Cat (deriv c r1) r2) (s1 ++ s2)) by (constructor; auto).
        destruct (nullable r1); [by apply lang_alt_l|done].
    + apply lang_alt_inv in H as [H|H]; [apply lang_alt_l|apply lang_alt_r]; auto.
    + apply lang_star_cons_inv in H as (s1 & s2 & -> & H1 & H2).
      constructor; auto.
Qed.

Lemma matches_lang r s : matches r s = true ↔ lang r s.
Proof.
  revert r. induction s as [|c s IH]; intros r; simpl.
  - apply nullable_lang.
  - rewrite IH. apply deriv_lang.
Qed.

Lemma startsWith_drop p s :
  startsWith p s = true → s = p ++ drop (length p) s.
Proof.
  revert s. induction p as [|a p IH]; intros [|b s]; simpl; try done.
  intros [->%N.eqb_eq H]%andb_true_iff. f_equal. auto.
Qed.

Lemma startsWith_app p s : startsWith p (p ++ s) = true.
Proof. induction p as [|a p IH]; simpl; [done|]. by rewrite N.eqb_refl. Qed.

(** What [exec2] captures: the line is the first group, the separator
    and the second group, and each group is in its language. *)
Lemma exec2_sound g1 sep g2 s a b :
  exec2 g1 sep g2 s = Some (a, b) →
  s = a ++ sep ++ b ∧ lang g1 a ∧ lang g2 b.
Proof.
  unfold exec2. destruct (list_find _ _) as [[i n]|] eqn:E; [|done].
  intros [= <- <-]. apply list_find_Some in E as (_ & H & _).
  apply andb_true_iff in H as [[H1 H2]%andb_true_iff H3].
  apply matches_lang in H1, H3. repeat split; [|done..].
  apply startsWith_drop in H2. rewrite drop_drop in H2.
  rewrite <-(take_drop n s) at 1. by f_equal.
Qed.

(** Every line of that form is matched. *)
Lemma exec2_complete g1 sep g2 a b :
  lang g1 a → lang g2 b → is_Some (exec2 g1 sep g2 (a ++ sep ++ b)).
Proof.
  intros Ha Hb. unfold exec2.
  destruct (list_find _ _) as [[i n]|] eqn:E; [done|].
  exfalso. apply list_find_None in E. rewrite Forall_forall in E.
  apply (E (length a)).
  - unfold greedy_lengths. apply list_elem_of_In. rewrite <-in_rev, in_seq.
    rewrite !length_app. lia.
  - rewrite take_app_length, drop_app_length, startsWith_app.
    rewrite drop_app_add', drop_app_length by done.
    by rewrite !(proj2 (matches_lang _ _)).
Qed.

Lemma lang_lit w s : lang (Lit w) s ↔ s = w.
Proof.
  revert s. induction w as [|c w IH]; intros s; simpl.
  - split; [apply lang_eps_inv|intros ->; constructor].
  - split.
    + intros (s1 & s2 & -> & (c' & -> & ->%N.eqb_eq)%lang_cls_inv & ->%IH)%lang_cat_inv.
      done.
    + intros ->. apply (lang_cat _ _ [c] w); [|by apply IH].
      constructor. apply N.eqb_refl.
Qed.

(** [exec2] answers exactly on the lines of the pattern [^g1 sep g2$]. *)
Lemma exec2_matches g1 sep g2 s :
  is_Some (exec2 g1 sep g2 s) ↔ lang (Cat g1 (Cat (Lit sep) g2)) s.
Proof.
  split.
  - intros [[a b] (-> & Ha & Hb)%exec2_sound].
    constructor; [done|]. constructor; [by apply lang_lit|done].
  - intros (a & r & -> & Ha & (w & b & -> & ->%lang_lit & Hb)%lang_cat_inv)%lang_cat_inv.
    by apply exec2_complete.
Qed.

(** What [exec_here] and [exec_search] capture. *)
Lemma exec_here_sound lit g last s x :
  exec_here lit g last s = Some x →
  ∃ c after, s = lit ++ x ++ c :: after ∧ lang g x ∧ last c = true.
Proof.
  unfold exec_here. destruct (startsWith lit s) eqn:Hp; [|done].
  apply startsWith_drop in Hp. set (rest := drop (length lit) s) in *.
  destruct (list_find _ _) as [[i n]|] eqn:F; [|done].
  intros [= <-]. apply list_find_Some in F as (_ & [Hg Hc]%andb_true_iff & _).
  destruct (rest !! n) as [c|] eqn:Hn; [|done].
  exists c, (drop (S n) rest). split_and!; [|by apply matches_lang|done].
  rewrite Hp at 1. f_equal. symmetry. by apply take_drop_middle.
Qed.

Lemma exec_search_sound lit g last s x :
  exec_search lit g last s = Some x →
  ∃ before c after,
    s = before ++ lit ++ x ++ c :: after ∧ lang g x ∧ last c = true.
Proof.
  induction s as [|y s IH]; simpl.
  - destruct (exec_here lit g last []) as [x'|] eqn:E; [|done].
    intros [= ->]. apply exec_here_sound in E as (c & after & E & ? & ?).
    by exists [], c, after.
  - destruct (exec_here lit g last (y :: s)) as [x'|] eqn:E.
    + intros [= ->]. apply exec_here_sound in E as (c & after & E & ? & ?).
      by exists [], c, after.
    + intros (before & c & after & -> & ? & ?)%IH.
      by exists (y :: before), c, after.
Qed.

(** The group [effectiveDateMatch] captures stands between the fixed
    words and one more character of the line. *)
Lemma effectiveDateMatch_sound dateLine g :
  effectiveDateMatch dateLine = Some g →
  ∃ before c after,
    dateLine = before ++ effectiveDatePrefix ++ g ++ c :: after
    ∧ lang (Plus (Cls is_dot)) g ∧ is_dot c = true.
Proof. apply exec_search_sound. Qed.

(** ** The four patterns exclude one another *)

Lemma lang_star_cls p s : lang (Star (Cls p)) s → Forall (λ c, p c = true) s.
Proof.
  intros H. remember (Star (Cls p)) as r eqn:Er.
  induction H as [| | | | | |r0 s1 s2 H1 _ H2 IH2]; try done.
  injection Er as ->. apply lang_cls_inv in H1 as (c & -> & Hc).
  constructor; auto.
Qed.

Lemma lang_plus_cls p s :
  lang (Plus (Cls p)) s →
  ∃ c s', s = c :: s' ∧ p c = true ∧ Forall (λ c, p c = true) s'.
Proof.
  intros (s1 & s2 & -> & (c & -> & Hc)%lang_cls_inv & H2%lang_star_cls)%lang_cat_inv.
  by exists c, s2.
Qed.

Lemma lang_chr_inv c s : lang (Chr c) s → s = [c].
Proof. by intros (c' & -> & ->%N.eqb_eq)%lang_cls_inv. Qed.

(** A title group starts with the space of its first word. *)
Lemma lang_plus_space r s :
  lang (Plus (Cat (Chr SP) r)) s → ∃ s', s = SP :: s'.
Proof.
  intros (s1 & s2 & -> & H1 & _)%lang_cat_inv.
  apply lang_cat_inv in H1 as (a & b & -> & ->%lang_chr_inv & _).
  simpl. eauto.
Qed.

Lemma digit_not_dot c : is_digit c = true → c ≠ 46%N.
Proof. unfold is_digit. intros [?%N.leb_le ?%N.leb_le]%andb_true_iff. lia. Qed.

Lemma digit_not_space c : is_digit c = true → c ≠ SP.
Proof. unfold is_digit, SP. intros [?%N.leb_le ?%N.leb_le]%andb_true_iff. lia. Qed.

Lemma lower_not_dot c : is_lower c = true → c ≠ 46%N.
Proof. unfold is_lower. intros [?%N.leb_le ?%N.leb_le]%andb_true_iff. lia. Qed.

(** A run of digits closed by a period is read off a line in one way. *)
Lemma digit_run_unique ds ds' r r' :
  digits ds → digits ds' → ds ++ 46%N :: r = ds' ++ 46%N :: r' →
  ds = ds' ∧ r = r'.
Proof.
  intros H. revert ds'. induction H as [|c ds Hc _ IH]; intros ds' H' E.
  - destruct H' as [|c' ds' Hc' _]; simpl in E.
    + by injection E as ->.
    + injection E as <- _. by apply digit_not_dot in Hc'.
  - destruct H' as [|c' ds' Hc' H']; simpl in E.
    + injection E as -> _. by apply digit_not_dot in Hc.
    + injection E as -> E. destruct (IH ds' H' E) as [-> ->]. done.
Qed.

Lemma lang_two_digits s :
  lang (Cat (Cls is_digit) (Plus (Cls is_digit))) s →
  digits s ∧ (2 ≤ length s)%nat.
Proof.
  intros (s1 & s2 & -> & (c & -> & Hc)%lang_cls_inv & H2)%lang_cat_inv.
  apply lang_plus_cls in H2 as (c' & s' & -> & Hc' & Hs').
  split; [by repeat constructor|simpl; lia].
Qed.

Lemma categoryMatch_shape t a b :
  categoryMatch t = Some (a, b) →
  ∃ d, is_digit d = true ∧ a = [d] ∧ t = [d] ++ 46%N :: b.
Proof.
  intros (-> & (d & -> & Hd)%lang_cls_inv & _)%exec2_sound. by exists d.
Qed.

Lemma subcategoryMatch_shape t a b :
  subcategoryMatch t = Some (a, b) →
  ∃ rest, digits a ∧ (2 ≤ length a)%nat ∧ t = a ++ 46%N :: SP :: rest.
Proof.
  intros (-> & [Ha Hlen]%lang_two_digits & [rest ->]%lang_plus_space)%exec2_sound.
  by exists rest.
Qed.

Lemma ruleMatch_shape t a b :
  ruleMatch t = Some (a, b) →
  ∃ ds d, digits ds ∧ (2 ≤ length ds)%nat ∧ is_digit d = true
          ∧ a = ds ++ [46%N; d] ∧ t = ds ++ 46%N :: d :: 46%N :: SP :: b.
Proof.
  intros (-> & Ha & _)%exec2_sound.
  unfold rule_g1 in Ha.
  apply lang_cat_inv in Ha as (s1 & s2 & -> & (c & -> & Hc)%lang_cls_inv & Ha).
  apply lang_cat_inv in Ha as (s2' & s3 & -> & Hds & Ha).
  apply lang_cat_inv in Ha as (s4 & s5 & -> & ->%lang_chr_inv & (d & -> & Hd)%lang_cls_inv).
  apply lang_plus_cls in Hds as (c' & s' & -> & Hc' & Hs').
  exists (c :: c' :: s'), d.
  split_and!; [by repeat constructor|simpl; lia|done|..];
    simpl; by rewrite <-?app_assoc.
Qed.

Lemma subruleMatch_shape t a b :
  subruleMatch t = Some (a, b) →
  ∃ ds d x, digits ds ∧ (2 ≤ length ds)%nat ∧ is_digit d = true
            ∧ is_lower x = true ∧ a = ds ++ [46%N; d; x]
            ∧ t = ds ++ 46%N :: d :: x :: SP :: b.
Proof.
  intros (-> & Ha & _)%exec2_sound.
  unfold subrule_g1 in Ha.
  apply lang_cat_inv in Ha as (s1 & s2 & -> & (c & -> & Hc)%lang_cls_inv & Ha).
  apply lang_cat_inv in Ha as (s2' & s3 & -> & Hds & Ha).
  apply lang_cat_inv in Ha as (s4 & s5 & -> & ->%lang_chr_inv & Ha).
  apply lang_cat_inv in Ha
    as (s6 & s7 & -> & (d & -> & Hd)%lang_cls_inv & (x & -> & Hx)%lang_cls_inv).
  apply lang_plus_cls in Hds as (c' & s' & -> & Hc' & Hs').
  exists (c :: c' :: s'), d, x.
  split_and!; [by repeat constructor|simpl; lia|done|done|..];
    simpl; by rewrite <-?app_assoc.
Qed.

Lemma patternOf_signature lv t a b :
  patternOf lv t = Some (a, b) →
  ∃ ds rest, t = ds ++ 46%N :: rest ∧ digits ds ∧ signature lv ds rest.
Proof.
  destruct lv; simpl; intros H.
  - apply categoryMatch_shape in H as (d & Hd & _ & ->).
    exists [d], b. split_and!; [done|by repeat constructor|done].
  - apply subcategoryMatch_shape in H as (rest & Ha & Hlen & ->).
    exists a, (SP :: rest). split_and!; eauto.
  - apply ruleMatch_shape in H as (ds & d & Hds & Hlen & Hd & _ & ->).
    exists ds, (d :: 46%N :: SP :: b). split_and!; eauto.
  - apply subruleMatch_shape in H as (ds & d & x & Hds & Hlen & Hd & Hx & _ & ->).
    exists ds, (d :: x :: SP :: b). split_and!; eauto 10.
Qed.

Lemma signature_exclusive lv1 lv2 ds rest :
  signature lv1 ds rest → signature lv2 ds rest → lv1 = lv2.
Proof.
  destruct lv1, lv2; simpl; try done; intros H1 H2; exfalso.
  all: repeat match goal with
         | H : _ ∧ _ |- _ => destruct H
         | H : ∃ _, _ |- _ => destruct H
         end; subst; try lia.
  all: repeat match goal with
         | H : _ :: _ = _ :: _ |- _ => injection H as ? ?; subst
         end.
  all: try match goal with
         | H : is_digit SP = true |- _ => by apply digit_not_space in H
         | H : is_lower 46%N = true |- _ => by apply lower_not_dot in H
         end.
Qed.

Lemma levels_exclusive t lv1 lv2 :
  levelMatches lv1 t = true → levelMatches lv2 t = true → lv1 = lv2.
Proof.
  unfold levelMatches.
  destruct (patternOf lv1 t) as [[a1 b1]|] eqn:E1; [|done].
  destruct (patternOf lv2 t) as [[a2 b2]|] eqn:E2; [|done].
  intros _ _.
  apply patternOf_signature in E1 as (ds1 & r1 & -> & Hd1 & S1).
  apply patternOf_signature in E2 as (ds2 & r2 & E & Hd2 & S2).
  apply digit_run_unique in E as [-> ->]; [|done..].
  by eapply signature_exclusive.
Qed.

Lemma firstMatch_priority_inv order t :
  order ≡ₚ priority → firstMatch order t = firstMatch priority t.
Proof.
  intros Hperm. unfold firstMatch.
  destruct (find _ priority) as [lv|] eqn:E.
  - apply find_some in E as [Hin Hlv].
    apply (Permutation_in _ (Permutation_sym Hperm)) in Hin.
    destruct (find _ order) as [lv'|] eqn:E'.
    + apply find_some in E' as [_ Hlv']. f_equal. by eapply levels_exclusive.
    + by rewrite (find_none _ _ E' lv Hin) in Hlv.
  - destruct (find _ order) as [lv'|] eqn:E'; [|done].
    apply find_some in E' as [Hin Hlv'].
    apply (Permutation_in _ Hperm) in Hin.
    by rewrite (find_none _ _ E lv' Hin) in Hlv'.
Qed.

Lemma classify_firstMatch line :
  line ≠ [] → levelOf (classify line) = firstMatch priority (trim line).
Proof.
  intros Hne. unfold classify. rewrite decide_False by done.
  unfold firstMatch, priority, levelMatches. simpl.
  destruct (categoryMatch _) as [[? ?]|]; [done|].
  destruct (subcategoryMatch _) as [[? ?]|]; [done|].
  destruct (ruleMatch _) as [[? ?]|]; [done|].
  by destruct (subruleMatch _) as [[? ?]|].
Qed.

(** C9: at most one of the four patterns matches a line; hence the
    chain of tests assigns the same level in whatever order the four
    patterns are tried, and this level is the one [parseRules] acts on. *)
Theorem patterns_mutually_exclusive (trimmed : jsstring) :
  (∀ lv1 lv2, levelMatches lv1 trimmed = true →
              levelMatches lv2 trimmed = true → lv1 = lv2)
  ∧ (∀ order, order ≡ₚ priority →
              firstMatch order trimmed = firstMatch priority trimmed)
  ∧ (∀ line, line ≠ [] → trim line = trimmed →
             levelOf (classify line) = firstMatch priority trimmed).
Proof.
  split_and!.
  - apply levels_exclusive.
  - intros order. apply firstMatch_priority_inv.
  - intros line Hne <-. by apply classify_firstMatch.
Qed.

Lemma patterns_mutually_exclusive_witness :
  firstMatch [LSubrule; LRule; LSubcategory; LCategory] (str "100.1. Some rule text.")
  = firstMatch priority (str "100.1. Some rule text.")
  ∧ levelOf (classify (str "100.1. Some rule text."))
    = firstMatch priority (str "100.1. Some rule text.").
Proof.
  destruct (patterns_mutually_exclusive (str "100.1. Some rule text."))
    as (_ & Horder & Hline).
  split.
  - apply Horder. apply (Permutation_sym (Permutation_rev priority)).
  - apply Hline; [discriminate|vm_compute; reflexivity].
Defined.

(** ** Orphan lines *)

Lemma rulesLoop_app l1 l2 st :
  rulesLoop (l1 ++ l2) st = (st' ← rulesLoop l1 st; rulesLoop l2 st').
Proof. apply forEach_app. Qed.

Lemma rulesLoop_cons l ls st :
  rulesLoop (l :: ls) st = (st' ← rulesStep st (classify l); rulesLoop ls st').
Proof. done. Qed.

Lemma rulesLoop_ignored ls st :
  Forall (λ l, classify l = Ignored) ls → rulesLoop ls st = Ok st.
Proof.
  intros H. apply forEach_skip. eapply Forall_impl; [done|].
  intros l Hl. simpl in *. rewrite Hl. by destruct st.
Qed.

Lemma glossaryLoop_app l1 l2 st :
  glossaryLoop (l1 ++ l2) st = (st' ← glossaryLoop l1 st; glossaryLoop l2 st').
Proof. apply forEach_app. Qed.

Lemma glossaryLoop_cons l ls st :
  glossaryLoop (l :: ls) st = (st' ← glossaryStep st l; glossaryLoop ls st').
Proof. done. Qed.

Lemma glossaryStep_blank st l : trim l = [] → glossaryStep st l = Ok st.
Proof. intros H. unfold glossaryStep. destruct st. by rewrite H. Qed.

Lemma glossaryLoop_blank ls st :
  Forall (λ l, trim l = []) ls → glossaryLoop ls st = Ok st.
Proof.
  intros H. apply forEach_skip. eapply Forall_impl; [done|].
  intros l Hl. by apply glossaryStep_blank.
Qed.

(** C2, as stated, fails: the error raised for an orphan line is the
    engine's TypeError for a property read on [undefined].  It is the
    same value for an orphan Rule line and for an orphan Subcategory
    line, so it tells neither which line was the orphan nor which
    ancestor level was expected. *)
Lemma orphan_error_is_generic :
  classify (str "100.1. Some rule text.")
    = IsRule (str "100.1") (str "Some rule text.")
  ∧ classify (str "100. General") = IsSubcategory (str "100") (str "General")
  ∧ parseRules [str "100.1. Some rule text."] = Throw (TypeError "subcategories")
  ∧ parseRules [str "100. General"] = Throw (TypeError "subcategories").
Proof. split_and!; vm_compute; reflexivity. Qed.

(** C2, amended: when the first classified line of the input is a
    Subcategory, Rule or Subrule line, [parseRules] returns no tree: it
    throws the TypeError of reading [subcategories] of [undefined],
    whatever the orphan line is.  When the first non-blank line of the
    glossary is a continuation line, [parseGlossary] throws the
    TypeError of reading [meanings] of [undefined]. *)
Theorem orphan_line_throws_TypeError (pre post : list jsstring) (line : jsstring) :
  (Forall (λ l, classify l = Ignored) pre →
   ∀ lv, levelOf (classify line) = Some lv → lv ≠ LCategory →
     parseRules (pre ++ line :: post) = Throw (TypeError "subcategories"))
  ∧ (Forall (λ l, trim l = []) pre →
     trim line ≠ [] → isTermLine (trim line) = false →
     parseGlossary (pre ++ line :: post) = Throw (TypeError "meanings")).
Proof.
  split.
  - intros Hpre lv Hlv Hne. unfold parseRules.
    rewrite rulesLoop_app, (rulesLoop_ignored _ _ Hpre), bind_Ok, rulesLoop_cons.
    destruct (classify line); simpl in Hlv; by simplify_eq.
  - intros Hpre Hne Hcont. unfold parseGlossary.
    rewrite glossaryLoop_app, (glossaryLoop_blank _ _ Hpre), bind_Ok, glossaryLoop_cons.
    unfold glossaryStep, glossaryInit. rewrite decide_False by done.
    rewrite Hcont. by rewrite read_empty.
Qed.

Lemma orphan_line_throws_TypeError_witness :
  parseRules ([[]; str "Introduction"] ++ str "100.1. Some rule text."
              :: [str "1. Game Concepts"])
    = Throw (TypeError "subcategories")
  ∧ parseGlossary ([[]; [LF]] ++ str "To turn a card face down." :: [str "Abandon"])
    = Throw (TypeError "meanings").
Proof.
  split.
  - eapply (proj1 (orphan_line_throws_TypeError _ _ _)).
    + repeat constructor.
    + vm_compute. reflexivity.
    + discriminate.
  - apply (proj2 (orphan_line_throws_TypeError _ _ _)).
    + repeat constructor.
    + discriminate.
    + vm_compute. reflexivity.
Defined.

(** ** String tests *)

Lemma startsWith_prefix p s : startsWith p s = true ↔ p `prefix_of` s.
Proof.
  split.
  - intros H%startsWith_drop. by exists (drop (length p) s).
  - intros [k ->]. apply startsWith_app.
Qed.

Lemma endsWith_suffix p s : endsWith p s = true ↔ p `suffix_of` s.
Proof.
  unfold endsWith. rewrite startsWith_prefix. split.
  - intros [k E]. exists (rev k).
    apply (f_equal (@rev N)) in E. by rewrite rev_involutive, rev_app_distr, rev_involutive in E.
  - intros [k ->]. exists (rev k). by rewrite rev_app_distr.
Qed.

Lemma includes_infix p s : includes p s = true ↔ ∃ a b, s = a ++ p ++ b.
Proof.
  split.
  - induction s as [|c s IH]; simpl; intros H.
    + rewrite orb_false_r in H. apply startsWith_prefix in H as [k ->]. by exists [], k.
    + apply orb_true_iff in H as [H|H].
      * apply startsWith_prefix in H as [k ->]. by exists [], k.
      * destruct (IH H) as (a & b & ->). by exists (c :: a), b.
  - intros (a & b & ->). induction a as [|c a IH].
    + simpl. pose proof (startsWith_app p b) as H.
      destruct (p ++ b); simpl; by rewrite H.
    + simpl. rewrite IH. apply orb_true_r.
Qed.

(** The test of [parseGlossary], in words. *)
Lemma isTermLine_spec cleanLine :
  isTermLine cleanLine = true ↔
    ¬ str "." `suffix_of` cleanLine
    ∧ ¬ [RDQUO] `suffix_of` cleanLine
    ∧ ¬ ∃ a b, cleanLine = a ++ str "See rule" ++ b.
Proof.
  unfold isTermLine. rewrite !andb_true_iff, !negb_true_iff.
  rewrite <-!not_true_iff_false.
  rewrite !endsWith_suffix, includes_infix. tauto.
Qed.

(** ** parseGlossary *)

Lemma at_index_Some {A} (l : list A) (i : Z) x :
  at_index l i = Some x → ∃ n : nat, i = Z.of_nat n ∧ l !! n = Some x.
Proof.
  unfold at_index. case_decide; [done|]. intros Hl.
  exists (Z.to_nat i). split; [lia|done].
Qed.

Lemma read_Ok {A} (l : list A) (i : Z) p x :
  read l i p = Ok x → ∃ n : nat, i = Z.of_nat n ∧ l !! n = Some x.
Proof.
  unfold read. destruct (at_index l i) eqn:E; [|done].
  intros [= <-]. by apply at_index_Some.
Qed.

Lemma store_nat {A} (i : nat) (x : A) l : store (Z.of_nat i) x l = <[i := x]> l.
Proof. unfold store. by rewrite Nat2Z.id. Qed.

Lemma glossaryStep_term arr idx line :
  trim line ≠ [] → isTermLine (trim line) = true →
  glossaryStep (mkGlossaryState arr idx) line =
    Ok (mkGlossaryState (arr ++ [mkGlossaryTerm (trim line) []])
          (findIndex (λ t, bool_decide (term t = trim line))
             (arr ++ [mkGlossaryTerm (trim line) []]))).
Proof. intros Hne Ht. unfold glossaryStep. rewrite decide_False by done. by rewrite Ht. Qed.

Lemma glossaryStep_continuation arr (i : nat) line t :
  trim line ≠ [] → isTermLine (trim line) = false → arr !! i = Some t →
  glossaryStep (mkGlossaryState arr (Z.of_nat i)) line =
    Ok (mkGlossaryState
          (<[i := mkGlossaryTerm (term t) (meanings t ++ [trim line])]> arr)
          (Z.of_nat i)).
Proof.
  intros Hne Ht Hi. unfold glossaryStep. rewrite decide_False by done.
  rewrite Ht, (read_nat _ _ _ _ Hi), bind_Ok. by rewrite store_nat.
Qed.

(** The cursor after a term line: the first entry that carries the text. *)
Lemma findIndex_term arr c :
  ∃ i : nat,
    findIndex (λ t, bool_decide (term t = c)) (arr ++ [mkGlossaryTerm c []])
      = Z.of_nat i
    ∧ (∃ t, (arr ++ [mkGlossaryTerm c []]) !! i = Some t ∧ term t = c)
    ∧ (∀ j tj, (j < i)%nat → (arr ++ [mkGlossaryTerm c []]) !! j = Some tj →
               term tj ≠ c)
    ∧ ((∀ t, t ∈ arr → term t ≠ c) → i = length arr)
    ∧ ((∃ t, t ∈ arr ∧ term t = c) → (i < length arr)%nat).
Proof.
  unfold findIndex.
  destruct (index_where_inv (λ t, bool_decide (term t = c))
              (arr ++ [mkGlossaryTerm c []]))
    as [[_ H]|(i & t & -> & Hi & HP & Hmin)].
  - exfalso. specialize (H (mkGlossaryTerm c [])).
    rewrite bool_decide_eq_false in H. apply H; [|done].
    apply elem_of_app. right. by apply list_elem_of_singleton.
  - apply bool_decide_eq_true in HP.
    assert (∀ j tj, (j < i)%nat → (arr ++ [mkGlossaryTerm c []]) !! j = Some tj →
                    term tj ≠ c) as Hmin'.
    { intros j tj Hj Hl. specialize (Hmin j tj Hl Hj).
      by apply bool_decide_eq_false in Hmin. }
    exists i. split_and!; [done|by exists t|done|..].
    + intros Hnone. apply lookup_app_Some in Hi as [Hi|[Hlen Hi]].
      * exfalso. apply (Hnone t); [by eapply list_elem_of_lookup_2|done].
      * apply list_lookup_singleton_Some in Hi as [Hi _]. lia.
    + intros (t' & [k Hk]%list_elem_of_lookup_1 & Ht').
      destruct (decide (i < length arr)%nat); [done|]. exfalso.
      pose proof (lookup_lt_Some _ _ _ Hk).
      apply (Hmin' k t'); [lia| |done]. by apply lookup_app_l_Some.
Qed.

Lemma glossaryStep_inv st line st' :
  GlossaryInv st → glossaryStep st line = Ok st' → GlossaryInv st'.
Proof.
  destruct st as [arr idx]. intros [Hdup Hcur].
  destruct (decide (trim line = [])) as [Hb|Hb].
  { rewrite glossaryStep_blank by done. by intros [= <-]. }
  destruct (isTermLine (trim line)) eqn:Ht.
  - rewrite glossaryStep_term by done. intros [= <-].
    destruct (findIndex_term arr (trim line))
      as (i & -> & (t & Hi & Hti) & Hmin & _).
    split; simpl.
    + intros a b ta tb Hab Ha Hb' Hterm.
      apply lookup_app_Some in Hb' as [Hb'|[Hlen Hb']].
      * pose proof (lookup_lt_Some _ _ _ Hb').
        rewrite lookup_app_l in Ha by lia.
        exact (Hdup a b ta tb Hab Ha Hb' Hterm).
      * by apply list_lookup_singleton_Some in Hb' as [_ <-].
    + right. exists i. split; [done|]. exists t. split; [done|].
      rewrite Hti. apply Hmin.
  - unfold glossaryStep. rewrite decide_False by done. rewrite Ht.
    destruct (read arr idx "meanings") as [t|e] eqn:Hr; [|done].
    apply read_Ok in Hr as (n & -> & Hn). rewrite bind_Ok, store_nat.
    intros [= <-]. simpl in *.
    destruct Hcur as [->|(i & Hi & t0 & Hi0 & Hmin)]; [done|].
    apply Nat2Z.inj in Hi as <-. rewrite Hn in Hi0. injection Hi0 as <-.
    set (t' := mkGlossaryTerm (term t) (meanings t ++ [trim line])).
    assert (∀ k x, <[n := t']> arr !! k = Some x →
                   ∃ y, arr !! k = Some y ∧ term y = term x
                        ∧ (k ≠ n → y = x)) as Hold.
    { intros k x Hk. destruct (decide (k = n)) as [->|Hne].
      - rewrite list_lookup_insert_eq in Hk by (by eapply lookup_lt_Some).
        injection Hk as <-. by exists t.
      - rewrite list_lookup_insert_ne in Hk by done. by exists x. }
    split; simpl.
    + intros a b ta tb Hab Ha Hb' Hterm.
      apply Hold in Ha as (ya & Ha & Hta & _).
      apply Hold in Hb' as (yb & Hb' & Htb & Hsame).
      destruct (decide (b = n)) as [->|Hne].
      * exfalso. rewrite Hn in Hb'. injection Hb' as <-.
        apply (Hmin a ya Hab Ha). congruence.
      * rewrite <-(Hsame Hne). eapply Hdup; [done..|congruence].
    + right. exists n. split; [done|]. exists t'. split.
      * apply list_lookup_insert_eq. by eapply lookup_lt_Some.
      * intros j tj Hj Hl. apply Hold in Hl as (y & Hy & Hty & _).
        rewrite <-Hty. by apply (Hmin j y).
Qed.

Lemma glossaryLoop_inv lines st st' :
  GlossaryInv st → glossaryLoop lines st = Ok st' → GlossaryInv st'.
Proof.
  revert st. induction lines as [|l lines IH]; intros st Hinv.
  - by intros [= <-].
  - rewrite glossaryLoop_cons.
    destruct (glossaryStep st l) as [st1|e] eqn:E; [|done].
    rewrite bind_Ok. apply IH. by eapply glossaryStep_inv.
Qed.

Lemma glossaryInit_inv : GlossaryInv glossaryInit.
Proof. split; [|by left]. by intros i j ti tj _ Hi. Qed.

Lemma cleanLines_cons l ls :
  cleanLines (l :: ls) =
    if decide (trim l = []) then cleanLines ls else trim l :: cleanLines ls.
Proof.
  unfold cleanLines. rewrite fmap_cons, filter_cons.
  by destruct (decide (trim l = [])); [rewrite decide_False by tauto|rewrite decide_True].
Qed.

Lemma termLines_cons l ls :
  termLines (l :: ls) =
    if decide (trim l = []) then termLines ls
    else if isTermLine (trim l) then trim l :: termLines ls
    else termLines ls.
Proof.
  unfold termLines. rewrite cleanLines_cons.
  destruct (decide (trim l = [])); [done|].
  rewrite filter_cons. destruct (isTermLine (trim l)).
  - by rewrite decide_True.
  - by rewrite decide_False.
Qed.

(** One entry per term line, in the order of the lines. *)
Lemma glossaryLoop_terms lines st st' :
  glossaryLoop lines st = Ok st' →
  term <$> termsArr st' = (term <$> termsArr st) ++ termLines lines.
Proof.
  revert st. induction lines as [|l lines IH]; intros [arr idx].
  - intros [= <-]. by rewrite app_nil_r.
  - rewrite glossaryLoop_cons, termLines_cons.
    destruct (decide (trim l = [])) as [Hb|Hb].
    { rewrite glossaryStep_blank, bind_Ok by done. apply IH. }
    destruct (isTermLine (trim l)) eqn:Ht.
    + rewrite glossaryStep_term, bind_Ok by done. intros H%IH.
      rewrite H. simpl. rewrite fmap_app. simpl. by rewrite <-app_assoc.
    + unfold glossaryStep. rewrite decide_False by done. rewrite Ht.
      destruct (read arr idx "meanings") as [t|e] eqn:Hr; [|done].
      apply read_Ok in Hr as (n & -> & Hn). rewrite !bind_Ok, store_nat.
      intros H%IH. rewrite H. simpl. f_equal.
      rewrite list_fmap_insert. simpl. apply list_insert_id.
      by rewrite list_lookup_fmap, Hn.
Qed.

(** Continuation lines pile up, in order, on the entry under the cursor. *)
Lemma glossaryLoop_continuations conts arr (i : nat) t :
  arr !! i = Some t → Forall continues conts →
  glossaryLoop conts (mkGlossaryState arr (Z.of_nat i)) =
    Ok (mkGlossaryState
          (<[i := mkGlossaryTerm (term t) (meanings t ++ cleanLines conts)]> arr)
          (Z.of_nat i)).
Proof.
  intros Hi Hc. revert arr t Hi.
  induction Hc as [|l conts Hl _ IH]; intros arr t Hi.
  - simpl. rewrite app_nil_r. do 2 f_equal. symmetry. apply list_insert_id.
    by destruct t.
  - rewrite glossaryLoop_cons, cleanLines_cons.
    destruct (decide (trim l = [])) as [Hb|Hb].
    { rewrite glossaryStep_blank, bind_Ok by done. by apply IH. }
    destruct Hl as [?|Hl]; [done|].
    rewrite (glossaryStep_continuation _ _ _ t), bind_Ok by done.
    rewrite (IH _ (mkGlossaryTerm (term t) (meanings t ++ [trim l]))).
    + simpl. rewrite list_insert_insert_eq. by rewrite <-app_assoc.
    + apply list_lookup_insert_eq. by eapply lookup_lt_Some.
Qed.

(** C6, as stated, fails in one point: after a term line whose text
    repeats an earlier term, the cursor is not on the entry just
    appended.  Here the second ["Abandon"] is entry 1, the cursor is 0,
    and the definition that follows lands on entry 0. *)
Lemma glossary_cursor_not_on_repeated_term :
  glossaryLoop [str "Abandon"; str "Abandon"] glossaryInit
    = Ok (mkGlossaryState
            [mkGlossaryTerm (str "Abandon") []; mkGlossaryTerm (str "Abandon") []] 0)
  ∧ parseGlossary [str "Abandon"; str "Abandon"; str "To turn a card face down."]
    = Ok [mkGlossaryTerm (str "Abandon") [str "To turn a card face down."];
          mkGlossaryTerm (str "Abandon") []].
Proof. split; vm_compute; reflexivity. Qed.

(** C6, amended.  A trimmed non-blank line opens a new term exactly
    when it does not end with a period, does not end with U+201D and
    does not contain ["See rule"].  A new term is appended with empty
    meanings and the cursor moves to the first entry that carries its
    text: the new entry, unless an earlier entry has the same text.
    Every other non-blank line is appended to the meanings of the entry
    under the cursor, so that a run of such lines is appended in
    document order.  A term line followed by two continuation lines and
    a period-terminated line gives one term with these three meanings. *)
Theorem glossary_line_classification :
  (∀ arr idx line, trim line ≠ [] →
     (isTermLine (trim line) = true ↔
        ¬ str "." `suffix_of` trim line ∧ ¬ [RDQUO] `suffix_of` trim line
        ∧ ¬ ∃ a b, trim line = a ++ str "See rule" ++ b)
     ∧ (isTermLine (trim line) = true →
        let arr' := arr ++ [mkGlossaryTerm (trim line) []] in
        ∃ i : nat,
          glossaryStep (mkGlossaryState arr idx) line
            = Ok (mkGlossaryState arr' (Z.of_nat i))
          ∧ (∃ t, arr' !! i = Some t ∧ term t = trim line)
          ∧ (∀ j tj, (j < i)%nat → arr' !! j = Some tj → term tj ≠ trim line)
          ∧ ((∀ t, t ∈ arr → term t ≠ trim line) → i = length arr))
     ∧ (isTermLine (trim line) = false →
        ∀ (i : nat) t, idx = Z.of_nat i → arr !! i = Some t →
          glossaryStep (mkGlossaryState arr idx) line
            = Ok (mkGlossaryState
                    (<[i := mkGlossaryTerm (term t) (meanings t ++ [trim line])]> arr)
                    idx)))
  ∧ (∀ arr (i : nat) t conts, arr !! i = Some t → Forall continues conts →
       glossaryLoop conts (mkGlossaryState arr (Z.of_nat i))
         = Ok (mkGlossaryState
                 (<[i := mkGlossaryTerm (term t) (meanings t ++ cleanLines conts)]> arr)
                 (Z.of_nat i)))
  ∧ (∀ t m1 m2 m3,
       trim t ≠ [] → isTermLine (trim t) = true →
       trim m1 ≠ [] → isTermLine (trim m1) = false →
       trim m2 ≠ [] → isTermLine (trim m2) = false →
       endsWith (str ".") (trim m3) = true →
       parseGlossary [t; m1; m2; m3]
         = Ok [mkGlossaryTerm (trim t) [trim m1; trim m2; trim m3]]).
Proof.
  split_and!.
  - intros arr idx line Hne. split_and!.
    + apply isTermLine_spec.
    + intros Ht arr'. rewrite glossaryStep_term by done.
      destruct (findIndex_term arr (trim line)) as (i & -> & Hi & Hmin & Hnew & _).
      by exists i.
    + intros Ht i t -> Hi. by apply glossaryStep_continuation.
  - intros arr i t conts. apply glossaryLoop_continuations.
  - intros t m1 m2 m3 Ht1 Ht2 Hm1 Hm1' Hm2 Hm2' Hm3. unfold parseGlossary.
    assert (trim m3 ≠ []) as Hm3n.
    { intros E. rewrite E in Hm3. done. }
    assert (isTermLine (trim m3) = false) as Hm3'.
    { unfold isTermLine. by rewrite Hm3. }
    rewrite glossaryLoop_cons. unfold glossaryInit.
    rewrite glossaryStep_term, bind_Ok by done.
    destruct (findIndex_term [] (trim t)) as (i & -> & _ & _ & Hnew & _).
    rewrite Hnew by (by intros ? ?%elem_of_nil).
    rewrite (glossaryLoop_continuations _ _ 0 (mkGlossaryTerm (trim t) [])).
    + rewrite bind_Ok. simpl. rewrite !cleanLines_cons.
      by rewrite !decide_False by done.
    + done.
    + repeat (apply Forall_cons_2; [by right|]). apply Forall_nil_2.
Qed.

Lemma glossary_line_classification_witness :
  parseGlossary
    [str "Abandon";
     str "1. To turn a card face down, said " ++ [8220%N] ++ str "abandon" ++ [RDQUO];
     str "2. See rule 701.26";
     str "3. Something else."]
  = Ok [mkGlossaryTerm (str "Abandon")
          [str "1. To turn a card face down, said " ++ [8220%N] ++ str "abandon" ++ [RDQUO];
           str "2. See rule 701.26";
           str "3. Something else."]].
Proof.
  apply (proj2 (proj2 glossary_line_classification)
           (str "Abandon")
           (str "1. To turn a card face down, said " ++ [8220%N] ++ str "abandon" ++ [RDQUO])
           (str "2. See rule 701.26")
           (str "3. Something else."));
    first [discriminate | vm_compute; reflexivity].
Defined.

(** An entry keeps its place and its term, and its meanings only grow
    at the end. *)
Lemma glossaryStep_keeps st l st' (k : nat) t :
  glossaryStep st l = Ok st' → termsArr st !! k = Some t →
  ∃ t', termsArr st' !! k = Some t' ∧ term t' = term t
        ∧ meanings t `prefix_of` meanings t'.
Proof.
  destruct st as [arr idx]. intros Hstep Hk. simpl in Hk.
  destruct (decide (trim l = [])) as [Hb|Hb].
  { rewrite glossaryStep_blank in Hstep by done. injection Hstep as <-.
    by exists t. }
  destruct (isTermLine (trim l)) eqn:Ht.
  - rewrite glossaryStep_term in Hstep by done. injection Hstep as <-. simpl.
    exists t. split_and!; [|done..]. by apply lookup_app_l_Some.
  - unfold glossaryStep in Hstep. rewrite decide_False in Hstep by done.
    rewrite Ht in Hstep.
    destruct (read arr idx "meanings") as [u|e] eqn:Hr; [|done].
    apply read_Ok in Hr as (n & -> & Hn). rewrite bind_Ok, store_nat in Hstep.
    injection Hstep as <-. simpl.
    destruct (decide (k = n)) as [->|Hne].
    + rewrite Hn in Hk. injection Hk as ->.
      eexists. split; [apply list_lookup_insert_eq; by eapply lookup_lt_Some|].
      simpl. split; [done|]. by apply prefix_app_r.
    + exists t. by rewrite list_lookup_insert_ne.
Qed.

Lemma glossaryLoop_keeps lines st st' (k : nat) t :
  glossaryLoop lines st = Ok st' → termsArr st !! k = Some t →
  ∃ t', termsArr st' !! k = Some t' ∧ term t' = term t
        ∧ meanings t `prefix_of` meanings t'.
Proof.
  revert st t. induction lines as [|l lines IH]; intros st t.
  - intros [= <-] Hk. by exists t.
  - rewrite glossaryLoop_cons.
    destruct (glossaryStep st l) as [st1|e] eqn:E; [|done].
    rewrite bind_Ok. intros Hloop Hk.
    destruct (glossaryStep_keeps _ _ _ _ _ E Hk) as (t1 & Hk1 & Ht1 & Hp1).
    destruct (IH _ _ Hloop Hk1) as (t' & Hk' & Ht' & Hp').
    exists t'. split_and!; [done|congruence|by etrans].
Qed.

(** An entry is written to only while the cursor is on it, and the
    cursor comes to it only with a line that carries its term. *)
Lemma glossaryLoop_untouched lines arr idx st' (k : nat) t :
  glossaryLoop lines (mkGlossaryState arr idx) = Ok st' →
  arr !! k = Some t → term t ∉ termLines lines →
  idx ≠ Z.of_nat k ∨ opensWithTerm lines →
  termsArr st' !! k = Some t.
Proof.
  revert arr idx. induction lines as [|l lines IH]; intros arr idx.
  - by intros [= <-].
  - rewrite glossaryLoop_cons. unfold opensWithTerm.
    rewrite termLines_cons, cleanLines_cons.
    destruct (decide (trim l = [])) as [Hb|Hb].
    { rewrite glossaryStep_blank, bind_Ok by done. apply IH. }
    destruct (isTermLine (trim l)) eqn:Ht.
    + rewrite glossaryStep_term, bind_Ok by done.
      intros Hloop Hk Hnot _.
      destruct (findIndex_term arr (trim l)) as (i & Hi & (u & Hu & Hterm) & _).
      rewrite Hi in Hloop. eapply IH; [done| |by intros H; apply Hnot; right|].
      * by apply lookup_app_l_Some.
      * left. intros Heq. apply Nat2Z.inj in Heq as ->.
        rewrite (lookup_app_l_Some _ _ _ _ Hk) in Hu. injection Hu as <-.
        apply Hnot. rewrite Hterm. by left.
    + intros Hloop Hk Hnot [Hidx|Hopen]; [|congruence].
      unfold glossaryStep in Hloop. rewrite decide_False in Hloop by done.
      rewrite Ht in Hloop.
      destruct (read arr idx "meanings") as [u|e] eqn:Hr; [|done].
      apply read_Ok in Hr as (n & -> & Hn).
      rewrite !bind_Ok, store_nat in Hloop.
      eapply IH; [done| |done|by left].
      rewrite list_lookup_insert_ne; [done|]. by intros ->.
Qed.

(** C10: terms are not deduplicated, there is one entry per term line;
    an entry that repeats the term of an earlier entry never receives a
    meaning; and wherever a term line repeats an earlier term line, the
    continuation lines that follow it are appended, in order, to the
    first entry carrying that term, while the entry just appended stays
    empty, whatever the rest of the input.  The first entry ends with
    these lines when the rest opens with a term line and does not
    repeat the term again. *)
Theorem duplicate_terms_keep_first (lines : list jsstring) (terms : list GlossaryTerm) :
  parseGlossary lines = Ok terms →
  term <$> terms = termLines lines
  ∧ laterDuplicatesEmpty terms
  ∧ (∀ pre dup conts post,
       lines = pre ++ dup :: conts ++ post →
       trim dup ≠ [] → isTermLine (trim dup) = true →
       trim dup ∈ termLines pre →
       Forall continues conts →
       ∃ st (i : nat) t t',
         glossaryLoop pre glossaryInit = Ok st
         ∧ (i < length (termsArr st))%nat
         ∧ termsArr st !! i = Some t ∧ term t = trim dup
         ∧ (∀ j tj, (j < i)%nat → termsArr st !! j = Some tj → term tj ≠ trim dup)
         ∧ terms !! i = Some t' ∧ term t' = trim dup
         ∧ (∀ j tj, (j < i)%nat → terms !! j = Some tj → term tj ≠ trim dup)
         ∧ (meanings t ++ cleanLines conts) `prefix_of` meanings t'
         ∧ terms !! length (termsArr st) = Some (mkGlossaryTerm (trim dup) [])
         ∧ (opensWithTerm post → trim dup ∉ termLines post →
              meanings t' = meanings t ++ cleanLines conts)
         ∧ (post = [] →
              terms =
                <[i := mkGlossaryTerm (trim dup) (meanings t ++ cleanLines conts)]>
                  (termsArr st ++ [mkGlossaryTerm (trim dup) []]))).
Proof.
  unfold parseGlossary.
  destruct (glossaryLoop lines glossaryInit) as [st'|e] eqn:Hloop; [|done].
  rewrite bind_Ok. intros [= <-].
  destruct (glossaryLoop_inv _ _ _ glossaryInit_inv Hloop) as [Hempty _].
  split_and!; [by rewrite (glossaryLoop_terms _ _ _ Hloop)|done|].
  intros pre dup conts post -> Hne Ht Hin Hconts.
  rewrite glossaryLoop_app in Hloop.
  destruct (glossaryLoop pre glossaryInit) as [[arr idx]|e] eqn:Hpre; [|done].
  rewrite bind_Ok in Hloop. pose proof Hloop as Hrest.
  rewrite glossaryLoop_cons, glossaryStep_term, bind_Ok, glossaryLoop_app in Hloop by done.
  apply glossaryLoop_terms in Hpre as Hterms. simpl in Hterms.
  rewrite <-Hterms in Hin. apply list_elem_of_fmap in Hin as (earlier & Hterm & Hin).
  destruct (findIndex_term arr (trim dup))
    as (i & Hi & (t & Hti & Htt) & Hmin & _ & Hlt).
  specialize (Hlt (ex_intro _ earlier (conj Hin (eq_sym Hterm)))).
  rewrite Hi, (glossaryLoop_continuations _ _ _ t), bind_Ok in Hloop by done.
  rewrite Htt in Hloop.
  set (first := mkGlossaryTerm (trim dup) (meanings t ++ cleanLines conts)) in *.
  set (arr2 := <[i := first]> (arr ++ [mkGlossaryTerm (trim dup) []])) in *.
  assert (arr !! i = Some t) as Hai by (by rewrite lookup_app_l in Hti).
  assert (arr2 !! i = Some first) as Hfirst.
  { apply list_lookup_insert_eq. rewrite length_app. lia. }
  assert (arr2 !! length arr = Some (mkGlossaryTerm (trim dup) [])) as Hlast.
  { unfold arr2. rewrite list_lookup_insert_ne by lia. apply list_lookup_middle. done. }
  destruct (glossaryLoop_keeps _ _ _ _ _ Hloop Hfirst) as (t' & Ht' & Htt' & Hp').
  destruct (glossaryLoop_keeps _ _ _ _ _ Hloop Hlast) as (d & Hd & Htd & _).
  assert (d = mkGlossaryTerm (trim dup) []) as ->.
  { assert (meanings d = []) as Hm.
    { apply (Hempty i (length arr) t' d); [done..|]. by rewrite Htt', Htd. }
    destruct d. simpl in *. by subst. }
  exists (mkGlossaryState arr idx), i, t, t'. simpl.
  split_and!; try done.
  - intros j tj Hj Hl. apply (Hmin j tj Hj). by apply lookup_app_l_Some.
  - intros j tj Hj Hl.
    destruct (lookup_lt_is_Some_2 arr j) as [x Hx]; [lia|].
    destruct (glossaryLoop_keeps _ _ _ _ _ Hrest Hx) as (x' & Hx' & Hxt & _).
    simpl in Hx'. rewrite Hl in Hx'. injection Hx' as <-. rewrite Hxt.
    apply (Hmin j x Hj). by apply lookup_app_l_Some.
  - intros Hopen Hnot.
    rewrite (glossaryLoop_untouched _ _ _ _ _ _ Hloop Hfirst) in Ht'.
    + by injection Ht' as <-.
    + done.
    + by right.
  - intros ->. by injection Hloop as <-.
Qed.

Lemma duplicate_terms_keep_first_witness :
  let pre := [str "Abandon"; str "To turn a card face down."] in
  let dup := str "Abandon" in
  let conts := [str "See rule 701.26"] in
  let post := [str "Ability"; str "An ability."] in
  let terms :=
    [mkGlossaryTerm (str "Abandon")
       [str "To turn a card face down."; str "See rule 701.26"];
     mkGlossaryTerm (str "Abandon") [];
     mkGlossaryTerm (str "Ability") [str "An ability."]] in
  ∃ st (i : nat) t t',
    glossaryLoop pre glossaryInit = Ok st
    ∧ (i < length (termsArr st))%nat
    ∧ termsArr st !! i = Some t ∧ term t = trim dup
    ∧ (∀ j tj, (j < i)%nat → termsArr st !! j = Some tj → term tj ≠ trim dup)
    ∧ terms !! i = Some t' ∧ term t' = trim dup
    ∧ (∀ j tj, (j < i)%nat → terms !! j = Some tj → term tj ≠ trim dup)
    ∧ (meanings t ++ cleanLines conts) `prefix_of` meanings t'
    ∧ terms !! length (termsArr st) = Some (mkGlossaryTerm (trim dup) [])
    ∧ (opensWithTerm post → trim dup ∉ termLines post →
         meanings t' = meanings t ++ cleanLines conts)
    ∧ (post = [] →
         terms =
           <[i := mkGlossaryTerm (trim dup) (meanings t ++ cleanLines conts)]>
             (termsArr st ++ [mkGlossaryTerm (trim dup) []])).
Proof.
  intros pre dup conts post terms.
  destruct (duplicate_terms_keep_first (pre ++ dup :: conts ++ post) terms)
    as (_ & _ & H); [vm_compute; reflexivity|].
  apply H.
  - reflexivity.
  - discriminate.
  - vm_compute. reflexivity.
  - apply (bool_decide_unpack _). vm_compute. exact I.
  - apply Forall_cons_2; [right; vm_compute; reflexivity|apply Forall_nil_2].
Defined.

(** ** The tree only grows *)

Section Growth.
Context {A : Type} (R : A → A → Prop).

Lemma listExt_refl `{!Reflexive R} l : listExt R l l.
Proof. intros i x Hi. by exists x. Qed.

Lemma listExt_trans `{!Transitive R} l1 l2 l3 :
  listExt R l1 l2 → listExt R l2 l3 → listExt R l1 l3.
Proof.
  intros H12 H23 i x Hi.
  destruct (H12 i x Hi) as (y & Hy & Hxy).
  destruct (H23 i y Hy) as (z & Hz & Hyz).
  exists z. split; [done|]. by etrans.
Qed.

Lemma listExt_app `{!Reflexive R} l k : listExt R l (l ++ k).
Proof. intros i x Hi. exists x. split; [|done]. by apply lookup_app_l_Some. Qed.

Lemma listExt_insert `{!Reflexive R} l (i : nat) x x' :
  l !! i = Some x → R x x' → listExt R l (<[i := x']> l).
Proof.
  intros Hi HR j y Hj. destruct (decide (j = i)) as [->|Hne].
  - exists x'. rewrite list_lookup_insert_eq by (by eapply lookup_lt_Some).
    split; [done|]. congruence.
  - exists y. by rewrite list_lookup_insert_ne.
Qed.

Lemma listExt_elem l l' x : listExt R l l' → x ∈ l → ∃ x', x' ∈ l' ∧ R x x'.
Proof.
  intros H [i Hi]%list_elem_of_lookup_1. destruct (H i x Hi) as (x' & Hx' & HR).
  exists x'. split; [by eapply list_elem_of_lookup_2|done].
Qed.

End Growth.

#[local] Instance listExt_preorder {A} (R : A → A → Prop) `{!PreOrder R} :
  PreOrder (listExt R).
Proof.
  split.
  - intros l. apply listExt_refl. apply _.
  - intros l1 l2 l3. apply listExt_trans. apply _.
Qed.

#[local] Instance ruleExt_preorder : PreOrder ruleExt.
Proof.
  split.
  - intros r. by split_and!.
  - intros r1 r2 r3 (? & ? & ?) (? & ? & ?).
    split_and!; [congruence..|by etrans].
Qed.

#[local] Instance subcategoryExt_preorder : PreOrder subcategoryExt.
Proof.
  split.
  - intros r. by split_and!.
  - intros r1 r2 r3 (? & ? & ?) (? & ? & ?).
    split_and!; [congruence..|by etrans].
Qed.

#[local] Instance categoryExt_preorder : PreOrder categoryExt.
Proof.
  split.
  - intros r. by split_and!.
  - intros r1 r2 r3 (? & ? & ?) (? & ? & ?).
    split_and!; [congruence..|by etrans].
Qed.

#[local] Instance treeExt_preorder : PreOrder treeExt.
Proof. unfold treeExt. apply _. Qed.

Lemma hasCategory_mono t t' c : treeExt t t' → hasCategory t c → hasCategory t' c.
Proof.
  intros Ht (cat & Hcat & Hc).
  destruct (listExt_elem _ _ _ _ Ht Hcat) as (cat' & Hcat' & Hid & _).
  exists cat'. split; [done|congruence].
Qed.

Lemma hasSubcategory_mono t t' c s :
  treeExt t t' → hasSubcategory t c s → hasSubcategory t' c s.
Proof.
  intros Ht (cat & sub & Hcat & Hc & Hsub & Hs).
  destruct (listExt_elem _ _ _ _ Ht Hcat) as (cat' & Hcat' & Hid & _ & Hsubs).
  destruct (listExt_elem _ _ _ _ Hsubs Hsub) as (sub' & Hsub' & Hsid & _).
  exists cat', sub'. split_and!; [done|congruence|done|congruence].
Qed.

Lemma hasRule_mono t t' c s r x :
  treeExt t t' → hasRule t c s r x → hasRule t' c s r x.
Proof.
  intros Ht (cat & sub & rule & Hcat & Hc & Hsub & Hs & Hrule & Hr & Hx).
  destruct (listExt_elem _ _ _ _ Ht Hcat) as (cat' & Hcat' & Hid & _ & Hsubs).
  destruct (listExt_elem _ _ _ _ Hsubs Hsub) as (sub' & Hsub' & Hsid & _ & Hrules).
  destruct (listExt_elem _ _ _ _ Hrules Hrule) as (rule' & Hrule' & Hrid & Hrr & _).
  exists cat', sub', rule'. split_and!; [done|congruence|done|congruence|done|congruence..].
Qed.

Lemma hasSubrule_mono t t' c s r q y :
  treeExt t t' → hasSubrule t c s r q y → hasSubrule t' c s r q y.
Proof.
  intros Ht (cat & sub & rule & Hcat & Hc & Hsub & Hs & Hrule & Hr & Hq).
  destruct (listExt_elem _ _ _ _ Ht Hcat) as (cat' & Hcat' & Hid & _ & Hsubs).
  destruct (listExt_elem _ _ _ _ Hsubs Hsub) as (sub' & Hsub' & Hsid & _ & Hrules).
  destruct (listExt_elem _ _ _ _ Hrules Hrule) as (rule' & Hrule' & Hrid & _ & Hsr).
  destruct (listExt_elem _ _ _ _ Hsr Hq) as (q' & Hq' & <-).
  exists cat', sub', rule'. split_and!; [done|congruence|done|congruence|done|congruence|done].
Qed.

(** ** One step of parseRules *)

Section Keys.
Context {A : Type} (key : A → jsstring).
Implicit Types (l : list A) (k : jsstring).

Lemma some_key l k : some (λ y, bool_decide (key y = k)) l = true ↔ k ∈ key <$> l.
Proof.
  unfold some. rewrite existsb_exists. split.
  - intros (y & Hy%list_elem_of_In & <-%bool_decide_eq_true).
    by apply list_elem_of_fmap_2.
  - intros (y & -> & Hy)%list_elem_of_fmap. exists y.
    split; [by apply list_elem_of_In|by apply bool_decide_eq_true].
Qed.

Lemma indexOf_key l k :
  k ∈ key <$> l →
  ∃ (n : nat) y, indexOf k (key <$> l) = Z.of_nat n ∧ l !! n = Some y ∧ key y = k.
Proof.
  intros (n & -> & Hn & _)%indexOf_present.
  apply list_lookup_fmap_Some in Hn as (y & -> & Hy). by exists n, y.
Qed.

Lemma insert_same_key l (n : nat) x x' :
  l !! n = Some x → key x' = key x → key <$> <[n := x']> l = key <$> l.
Proof.
  intros Hn Hk. rewrite list_fmap_insert. apply list_insert_id.
  by rewrite list_lookup_fmap, Hn, Hk.
Qed.

Lemma elem_of_insert_inv l (n : nat) x' y : y ∈ <[n := x']> l → y = x' ∨ y ∈ l.
Proof.
  intros [i Hi]%list_elem_of_lookup_1.
  apply list_lookup_insert_Some in Hi as [(_ & -> & _)|[_ Hi]]; [by left|].
  right. by eapply list_elem_of_lookup_2.
Qed.

Lemma pushIfNew_spec l k x :
  key x = k →
  let l' := pushIfNew key k x l in
  (NoDup (key <$> l) → NoDup (key <$> l'))
  ∧ (∀ y, y ∈ l' → y ∈ l ∨ y = x)
  ∧ (k ∈ key <$> l → l' = l)
  ∧ (∃ ext, l' = l ++ ext ∧ (ext = [] ∨ ext = [x]))
  ∧ ∃ (n : nat) y, indexOf k (key <$> l') = Z.of_nat n ∧ l' !! n = Some y ∧ key y = k.
Proof.
  intros Hk l'. subst l'. unfold pushIfNew.
  destruct (some _ l) eqn:E.
  - apply some_key in E. split_and!; [done|by left|done| |by apply indexOf_key].
    exists []. by rewrite app_nil_r; split; [|left].
  - assert (k ∉ key <$> l) as Hnew.
    { intros H%some_key. congruence. }
    split_and!.
    + intros Hnd. rewrite fmap_app. apply NoDup_app. split_and!; [done| |].
      * intros z Hz ->%list_elem_of_singleton. by rewrite Hk in Hz.
      * apply NoDup_singleton.
    + intros y [Hy| ->%list_elem_of_singleton]%elem_of_app; auto.
    + done.
    + exists [x]. split; [done|by right].
    + apply indexOf_key. rewrite fmap_app. apply elem_of_app. right.
      rewrite <-Hk. apply list_elem_of_singleton. done.
Qed.

End Keys.

Lemma rulesStep_category st id title :
  let arr' := pushIfNew category_id id (mkCategory id title []) (rulesArr st) in
  rulesStep st (IsCategory id title) =
    Ok (mkRulesState arr' (indexOf id (category_id <$> arr'))
          (lastSubcategoryIndex st) (lastRuleIndex st)).
Proof. by destruct st. Qed.

Lemma rulesStep_subcategory st id title st' :
  rulesStep st (IsSubcategory id title) = Ok st' →
  ∃ (n : nat) cat,
    lastCategoryIndex st = Z.of_nat n ∧ rulesArr st !! n = Some cat
    ∧ let subs' :=
        pushIfNew subcategory_id id (mkSubcategory id title []) (subcategories cat) in
      st' = mkRulesState
              (<[n := mkCategory (category_id cat) (category_title cat) subs']>
                 (rulesArr st))
              (Z.of_nat n) (indexOf id (subcategory_id <$> subs')) (lastRuleIndex st).
Proof.
  destruct st as [arr ci si ri]. simpl.
  destruct (read arr ci "subcategories") as [cat|] eqn:Hc; [|done].
  apply read_Ok in Hc as (n & -> & Hn). rewrite bind_Ok, store_nat.
  intros [= <-]. by exists n, cat.
Qed.

Lemma rulesStep_rule st id text st' :
  rulesStep st (IsRule id text) = Ok st' →
  ∃ (n m : nat) cat sub,
    lastCategoryIndex st = Z.of_nat n ∧ rulesArr st !! n = Some cat
    ∧ lastSubcategoryIndex st = Z.of_nat m ∧ subcategories cat !! m = Some sub
    ∧ let rules' := rules sub ++ [mkRule id text []] in
      st' = mkRulesState
              (<[n := mkCategory (category_id cat) (category_title cat)
                        (<[m := mkSubcategory (subcategory_id sub)
                                  (subcategory_title sub) rules']>
                           (subcategories cat))]>
                 (rulesArr st))
              (Z.of_nat n) (Z.of_nat m) (indexOf id (rule_id <$> rules')).
Proof.
  destruct st as [arr ci si ri]. simpl.
  destruct (read arr ci "subcategories") as [cat|] eqn:Hc; [|done].
  apply read_Ok in Hc as (n & -> & Hn). rewrite bind_Ok.
  destruct (read (subcategories cat) si "rules") as [sub|] eqn:Hs; [|done].
  apply read_Ok in Hs as (m & -> & Hm). rewrite bind_Ok, !store_nat.
  intros [= <-]. by exists n, m, cat, sub.
Qed.

Lemma rulesStep_subrule st id text st' :
  rulesStep st (IsSubrule id text) = Ok st' →
  ∃ (n m k : nat) cat sub rule,
    lastCategoryIndex st = Z.of_nat n ∧ rulesArr st !! n = Some cat
    ∧ lastSubcategoryIndex st = Z.of_nat m ∧ subcategories cat !! m = Some sub
    ∧ lastRuleIndex st = Z.of_nat k ∧ rules sub !! k = Some rule
    ∧ st' = mkRulesState
              (<[n := mkCategory (category_id cat) (category_title cat)
                        (<[m := mkSubcategory (subcategory_id sub)
                                  (subcategory_title sub)
                                  (<[k := mkRule (rule_id rule) (rule_rule rule)
                                            (subrules rule ++ [mkSubrule id text])]>
                                     (rules sub))]>
                           (subcategories cat))]>
                 (rulesArr st))
              (Z.of_nat n) (Z.of_nat m) (Z.of_nat k).
Proof.
  destruct st as [arr ci si ri]. simpl.
  destruct (read arr ci "subcategories") as [cat|] eqn:Hc; [|done].
  apply read_Ok in Hc as (n & -> & Hn). rewrite bind_Ok.
  destruct (read (subcategories cat) si "rules") as [sub|] eqn:Hs; [|done].
  apply read_Ok in Hs as (m & -> & Hm). rewrite bind_Ok.
  destruct (read (rules sub) ri "subrules") as [rule|] eqn:Hr; [|done].
  apply read_Ok in Hr as (k & -> & Hk). rewrite bind_Ok, !store_nat.
  intros [= <-]. by exists n, m, k, cat, sub, rule.
Qed.

Lemma rulesStep_grows st k st' :
  rulesStep st k = Ok st' → treeExt (rulesArr st) (rulesArr st').
Proof.
  destruct k as [id title|id title|id text|id text|].
  - rewrite rulesStep_category. intros [= <-]. simpl.
    destruct (pushIfNew_spec category_id (rulesArr st) id (mkCategory id title []) eq_refl)
      as (_ & _ & _ & (ext & -> & _) & _).
    apply listExt_app, _.
  - intros (n & cat & _ & Hn & ->)%rulesStep_subcategory. simpl.
    eapply listExt_insert; [apply _|done|].
    split_and!; [done..|]. simpl.
    destruct (pushIfNew_spec subcategory_id (subcategories cat) id
                (mkSubcategory id title []) eq_refl)
      as (_ & _ & _ & (ext & -> & _) & _).
    apply listExt_app, _.
  - intros (n & m & cat & sub & _ & Hn & _ & Hm & ->)%rulesStep_rule. simpl.
    eapply listExt_insert; [apply _|done|].
    split_and!; [done..|]. simpl.
    eapply listExt_insert; [apply _|done|].
    split_and!; [done..|]. simpl. apply listExt_app, _.
  - intros (n & m & j & cat & sub & rule & _ & Hn & _ & Hm & _ & Hj & ->)%rulesStep_subrule.
    simpl.
    eapply listExt_insert; [apply _|done|].
    split_and!; [done..|]. simpl.
    eapply listExt_insert; [apply _|done|].
    split_and!; [done..|]. simpl.
    eapply listExt_insert; [apply _|done|].
    split_and!; [done..|]. simpl. apply listExt_app, _.
  - destruct st. intros [= <-]. reflexivity.
Qed.

Lemma rulesLoop_grows lines st st' :
  rulesLoop lines st = Ok st' → treeExt (rulesArr st) (rulesArr st').
Proof.
  revert st. induction lines as [|l lines IH]; intros st.
  - intros [= <-]. reflexivity.
  - rewrite rulesLoop_cons.
    destruct (rulesStep st (classify l)) as [st1|] eqn:E; [|done].
    rewrite bind_Ok. intros H%IH. etrans; [|done]. by eapply rulesStep_grows.
Qed.

Lemma rulesStep_dedup st k st' :
  Deduplicated (rulesArr st) → rulesStep st k = Ok st' →
  Deduplicated (rulesArr st').
Proof.
  intros [Hcats Hsubs].
  destruct k as [id title|id title|id text|id text|].
  - rewrite rulesStep_category. intros [= <-]. simpl.
    destruct (pushIfNew_spec category_id (rulesArr st) id (mkCategory id title []) eq_refl)
      as (Hnd & Hin & _).
    split; [by apply Hnd|].
    intros cat [Hcat| ->]%Hin; [by apply Hsubs|]. simpl. apply NoDup_nil_2.
  - intros (n & cat & _ & Hn & ->)%rulesStep_subcategory. simpl.
    split.
    + by rewrite (insert_same_key category_id _ _ cat).
    + intros c [->|Hc]%elem_of_insert_inv; [|by apply Hsubs]. simpl.
      apply (pushIfNew_spec subcategory_id); [done|].
      apply Hsubs. by eapply list_elem_of_lookup_2.
  - intros (n & m & cat & sub & _ & Hn & _ & Hm & ->)%rulesStep_rule. simpl.
    split.
    + by rewrite (insert_same_key category_id _ _ cat).
    + intros c [->|Hc]%elem_of_insert_inv; [|by apply Hsubs]. simpl.
      rewrite (insert_same_key subcategory_id _ _ sub) by done.
      apply Hsubs. by eapply list_elem_of_lookup_2.
  - intros (n & m & j & cat & sub & rule & _ & Hn & _ & Hm & _ & Hj & ->)%rulesStep_subrule.
    simpl. split.
    + by rewrite (insert_same_key category_id _ _ cat).
    + intros c [->|Hc]%elem_of_insert_inv; [|by apply Hsubs]. simpl.
      rewrite (insert_same_key subcategory_id _ _ sub) by done.
      apply Hsubs. by eapply list_elem_of_lookup_2.
  - destruct st. by intros [= <-].
Qed.

Lemma lookup_insert_here {A} (l : list A) (n : nat) x x' :
  l !! n = Some x → <[n := x']> l !! n = Some x'.
Proof. intros H. apply list_lookup_insert_eq. by eapply lookup_lt_Some. Qed.

Lemma elem_of_insert_here {A} (l : list A) (n : nat) x x' :
  l !! n = Some x → x' ∈ <[n := x']> l.
Proof. intros H. eapply list_elem_of_lookup_2. by eapply lookup_insert_here. Qed.

Lemma elem_of_snoc {A} (l : list A) x : x ∈ l ++ [x].
Proof. apply elem_of_app. right. by apply list_elem_of_singleton. Qed.

(** The cursors follow the ancestors, and the line is attached under
    them. *)
Lemma rulesStep_coherent a st k st' :
  Coherent a st → rulesStep st k = Ok st' →
  Coherent (advance a k) st' ∧ Attached a k (rulesArr st').
Proof.
  destruct a as [oc os or]. destruct st as [arr ci si ri].
  intros Hco.
  destruct k as [id title|id title|id text|id text|].
  - rewrite rulesStep_category. intros [= <-].
    unfold Coherent in *. simpl in *.
    destruct (pushIfNew_spec category_id arr id (mkCategory id title []) eq_refl)
      as (_ & _ & _ & _ & n & y & Hidx & Hy & Hkey).
    split.
    + exists y. by rewrite Hidx, at_index_nat.
    + exists y. split; [by eapply list_elem_of_lookup_2|done].
  - intros (n & cat & Hci & Hn & ->)%rulesStep_subcategory.
    unfold Coherent in *. simpl in *. subst ci.
    destruct (pushIfNew_spec subcategory_id (subcategories cat) id
                (mkSubcategory id title []) eq_refl)
      as (_ & _ & _ & _ & m & y & Hidx & Hy & Hkey).
    set (subs' := pushIfNew _ _ _ _) in *.
    set (cat' := mkCategory _ _ subs').
    assert (∀ c, oc = Some c → category_id cat' = c) as Hc.
    { intros c ->. destruct Hco as (cat0 & Hat & <- & _).
      rewrite at_index_nat, Hn in Hat. by injection Hat as <-. }
    split.
    + destruct oc as [c|]; [|done]. exists cat'.
      rewrite at_index_nat, (lookup_insert_here _ _ cat) by done.
      split_and!; [done|by apply Hc|]. exists y.
      by rewrite Hidx, at_index_nat.
    + intros c Hoc. exists cat', y.
      split_and!; [by eapply elem_of_insert_here|by apply Hc| |done].
      by eapply list_elem_of_lookup_2.
  - intros (n & m & cat & sub & Hci & Hn & Hsi & Hm & ->)%rulesStep_rule.
    unfold Coherent in *. simpl in *. subst ci si.
    set (rules' := rules sub ++ [mkRule id text []]).
    set (sub' := mkSubcategory _ _ rules').
    set (cat' := mkCategory _ _ (<[m := sub']> (subcategories cat))).
    assert (∀ c, oc = Some c → category_id cat' = c) as Hc.
    { intros c ->. destruct Hco as (cat0 & Hat & <- & _).
      rewrite at_index_nat, Hn in Hat. by injection Hat as <-. }
    assert (∀ c s, oc = Some c → os = Some s → subcategory_id sub' = s) as Hs.
    { intros c s -> ->. destruct Hco as (cat0 & Hat & _ & sub0 & Hat' & <- & _).
      rewrite at_index_nat, Hn in Hat. injection Hat as <-.
      rewrite at_index_nat, Hm in Hat'. by injection Hat' as <-. }
    destruct (indexOf_key rule_id rules' id) as (j & rule & Hidx & Hj & Hkey).
    { unfold rules'. rewrite fmap_app. apply elem_of_app. right.
      by apply list_elem_of_singleton. }
    split.
    + destruct oc as [c|]; [|done]. exists cat'.
      rewrite at_index_nat, (lookup_insert_here _ _ cat) by done.
      split_and!; [done|by apply Hc|].
      destruct os as [s|]; [|done]. exists sub'. simpl.
      rewrite at_index_nat, (lookup_insert_here _ _ sub) by done.
      split_and!; [done|by eapply Hs|]. exists rule. simpl.
      by rewrite Hidx, at_index_nat.
    + intros c s Hoc Hos. exists cat', sub', (mkRule id text []).
      split_and!; [by eapply elem_of_insert_here|by apply Hc| |by eapply Hs| |done..].
      * simpl. by eapply elem_of_insert_here.
      * apply elem_of_snoc.
  - intros (n & m & j & cat & sub & rule & Hci & Hn & Hsi & Hm & Hri & Hj & ->)%rulesStep_subrule.
    unfold Coherent in *. simpl in *. subst ci si ri.
    set (rule' := mkRule _ _ (subrules rule ++ [mkSubrule id text])).
    set (sub' := mkSubcategory _ _ (<[j := rule']> (rules sub))).
    set (cat' := mkCategory _ _ (<[m := sub']> (subcategories cat))).
    assert (∀ c, oc = Some c → category_id cat' = c) as Hc.
    { intros c ->. destruct Hco as (cat0 & Hat & <- & _).
      rewrite at_index_nat, Hn in Hat. by injection Hat as <-. }
    assert (∀ c s, oc = Some c → os = Some s → subcategory_id sub' = s) as Hs.
    { intros c s -> ->. destruct Hco as (cat0 & Hat & _ & sub0 & Hat' & <- & _).
      rewrite at_index_nat, Hn in Hat. injection Hat as <-.
      rewrite at_index_nat, Hm in Hat'. by injection Hat' as <-. }
    assert (∀ c s r, oc = Some c → os = Some s → or = Some r → rule_id rule' = r) as Hr.
    { intros c s r -> -> ->.
      destruct Hco as (cat0 & Hat & _ & sub0 & Hat' & _ & rule0 & Hat'' & <-).
      rewrite at_index_nat, Hn in Hat. injection Hat as <-.
      rewrite at_index_nat, Hm in Hat'. injection Hat' as <-.
      rewrite at_index_nat, Hj in Hat''. by injection Hat'' as <-. }
    split.
    + destruct oc as [c|]; [|done]. exists cat'.
      rewrite at_index_nat, (lookup_insert_here _ _ cat) by done.
      split_and!; [done|by apply Hc|].
      destruct os as [s|]; [|done]. exists sub'. simpl.
      rewrite at_index_nat, (lookup_insert_here _ _ sub) by done.
      split_and!; [done|by eapply Hs|].
      destruct or as [r|]; [|done]. exists rule'. simpl.
      rewrite at_index_nat, (lookup_insert_here _ _ rule) by done.
      split; [done|by eapply Hr].
    + intros c s r Hoc Hos Hor. exists cat', sub', rule'.
      split_and!; [by eapply elem_of_insert_here|by apply Hc| |by eapply Hs|
                   |by eapply Hr|].
      * simpl. by eapply elem_of_insert_here.
      * simpl. by eapply elem_of_insert_here.
      * simpl. apply elem_of_snoc.
  - by intros [= <-].
Qed.

(** ** The rule ids of the tree are those of the Rule lines *)

Lemma bind_insert_permutation {A B} (f : A → list B) (l : list A) (n : nat) x x' extra :
  l !! n = Some x → f x' ≡ₚ extra ++ f x →
  <[n := x']> l ≫= f ≡ₚ extra ++ (l ≫= f).
Proof.
  intros Hn Hf. rewrite insert_take_drop by (by eapply lookup_lt_Some).
  rewrite <-(take_drop_middle l n x Hn) at 3.
  rewrite !bind_app, !bind_cons, Hf, <-app_assoc.
  apply Permutation_app_swap_app.
Qed.

Lemma NoDup_bind_elem {A B} (f : A → list B) (l : list A) x :
  NoDup (l ≫= f) → x ∈ l → NoDup (f x).
Proof.
  intros Hnd (l1 & l2 & ->)%list_elem_of_split.
  rewrite bind_app, bind_cons in Hnd.
  apply NoDup_app in Hnd as (_ & _ & Hnd). by apply NoDup_app in Hnd as (? & _).
Qed.

Lemma bind_snoc_empty {A B} (f : A → list B) (l ext : list A) x :
  ext = [] ∨ ext = [x] → f x = [] → (l ++ ext) ≫= f = l ≫= f.
Proof.
  intros [->| ->] Hx; rewrite bind_app; simpl; [|rewrite Hx]; by rewrite !app_nil_r.
Qed.

Lemma rulesStep_ids st k st' :
  rulesStep st k = Ok st' →
  allRuleIds (rulesArr st')
    ≡ₚ match k with IsRule id _ => [id] | _ => [] end ++ allRuleIds (rulesArr st)
  ∧ allSubruleIds (rulesArr st')
    ≡ₚ match k with IsSubrule id _ => [id] | _ => [] end ++ allSubruleIds (rulesArr st).
Proof.
  unfold allRuleIds, allSubruleIds.
  destruct k as [id title|id title|id text|id text|].
  - rewrite rulesStep_category. intros [= <-]. simpl.
    destruct (pushIfNew_spec category_id (rulesArr st) id (mkCategory id title []) eq_refl)
      as (_ & _ & _ & (ext & -> & Hext) & _).
    by rewrite !(bind_snoc_empty _ _ _ _ Hext).
  - intros (n & cat & _ & Hn & ->)%rulesStep_subcategory. simpl.
    destruct (pushIfNew_spec subcategory_id (subcategories cat) id
                (mkSubcategory id title []) eq_refl)
      as (_ & _ & _ & (ext & -> & Hext) & _).
    split; apply (bind_insert_permutation _ _ _ cat _ []); try done; simpl;
      by rewrite (bind_snoc_empty _ _ _ _ Hext).
  - intros (n & m & cat & sub & _ & Hn & _ & Hm & ->)%rulesStep_rule. simpl.
    split.
    + apply (bind_insert_permutation _ _ _ cat _ [id]); [done|]. simpl.
      apply (bind_insert_permutation _ _ _ sub _ [id]); [done|]. simpl.
      rewrite fmap_app. simpl. by rewrite Permutation_app_comm.
    + apply (bind_insert_permutation _ _ _ cat _ []); [done|]. simpl.
      apply (bind_insert_permutation _ _ _ sub _ []); [done|]. simpl.
      rewrite bind_app. simpl. by rewrite app_nil_r.
  - intros (n & m & j & cat & sub & rule & _ & Hn & _ & Hm & _ & Hj & ->)%rulesStep_subrule.
    simpl. split.
    + apply (bind_insert_permutation _ _ _ cat _ []); [done|]. simpl.
      apply (bind_insert_permutation _ _ _ sub _ []); [done|]. simpl.
      by rewrite (insert_same_key rule_id _ _ rule).
    + apply (bind_insert_permutation _ _ _ cat _ [id]); [done|]. simpl.
      apply (bind_insert_permutation _ _ _ sub _ [id]); [done|]. simpl.
      apply (bind_insert_permutation _ _ _ rule _ [id]); [done|]. simpl.
      rewrite fmap_app. simpl. by rewrite Permutation_app_comm.
  - destruct st. by intros [= <-].
Qed.

Lemma rulesLoop_ids lines st st' :
  rulesLoop lines st = Ok st' →
  allRuleIds (rulesArr st') ≡ₚ ruleLineIds lines ++ allRuleIds (rulesArr st)
  ∧ allSubruleIds (rulesArr st') ≡ₚ subruleLineIds lines ++ allSubruleIds (rulesArr st).
Proof.
  revert st. induction lines as [|l lines IH]; intros st.
  - by intros [= <-].
  - rewrite rulesLoop_cons.
    destruct (rulesStep st (classify l)) as [st1|] eqn:E; [|done].
    rewrite bind_Ok. intros [H1 H2]%IH.
    apply rulesStep_ids in E as [E1 E2].
    rewrite H1, H2, E1, E2. unfold ruleLineIds, subruleLineIds. simpl.
    split; destruct (classify l); simpl;
      by rewrite ?Permutation_middle.
Qed.

(** ** The loop of parseRules *)

Lemma ancestorsFrom_app a l1 l2 :
  ancestorsFrom a (l1 ++ l2) = ancestorsFrom (ancestorsFrom a l1) l2.
Proof. apply fold_left_app. Qed.

Lemma ancestorsAfter_snoc pre line :
  ancestorsAfter (pre ++ [line]) = advance (ancestorsAfter pre) (classify line).
Proof. unfold ancestorsAfter. by rewrite ancestorsFrom_app. Qed.

Lemma rulesLoop_invariant lines a st st' :
  Deduplicated (rulesArr st) → Coherent a st → rulesLoop lines st = Ok st' →
  Deduplicated (rulesArr st') ∧ Coherent (ancestorsFrom a lines) st'.
Proof.
  revert a st. induction lines as [|l lines IH]; intros a st Hd Hc.
  - by intros [= <-].
  - rewrite rulesLoop_cons.
    destruct (rulesStep st (classify l)) as [st1|] eqn:E; [|done].
    rewrite bind_Ok. apply IH.
    + by eapply rulesStep_dedup.
    + by eapply rulesStep_coherent.
Qed.

Lemma rulesInit_invariant :
  Deduplicated (rulesArr rulesInit) ∧ Coherent (mkAncestors None None None) rulesInit.
Proof. split; [|done]. split; [apply NoDup_nil_2|]. by intros ? ?%elem_of_nil. Qed.

Lemma rulesLoop_split pre line post st st' :
  rulesLoop (pre ++ line :: post) st = Ok st' →
  ∃ st1 st2, rulesLoop pre st = Ok st1
             ∧ rulesStep st1 (classify line) = Ok st2
             ∧ rulesLoop post st2 = Ok st'.
Proof.
  rewrite rulesLoop_app.
  destruct (rulesLoop pre st) as [st1|] eqn:E1; [|done].
  rewrite bind_Ok, rulesLoop_cons.
  destruct (rulesStep st1 (classify line)) as [st2|] eqn:E2; [|done].
  rewrite bind_Ok. intros E3. by exists st1, st2.
Qed.

Lemma Attached_mono a k t t' : treeExt t t' → Attached a k t → Attached a k t'.
Proof.
  intros Ht. destruct k; simpl; [|intros H ?..|done].
  - by apply hasCategory_mono.
  - intros. by eapply hasSubcategory_mono; [|apply H].
  - intros. by eapply hasRule_mono; [|apply H].
  - intros. by eapply hasSubrule_mono; [|eapply H].
Qed.

(** Every line of an input that parses is attached, in the tree
    returned, under the ancestors named before it. *)
Lemma parseRules_attached pre line post tree :
  parseRules (pre ++ line :: post) = Ok tree →
  Attached (ancestorsAfter pre) (classify line) tree.
Proof.
  unfold parseRules.
  destruct (rulesLoop _ rulesInit) as [st'|] eqn:E; [|done].
  rewrite bind_Ok. intros [= <-].
  apply rulesLoop_split in E as (st1 & st2 & E1 & E2 & E3).
  destruct rulesInit_invariant as [Hd Hc].
  destruct (rulesLoop_invariant _ _ _ _ Hd Hc E1) as [_ Hc1].
  destruct (rulesStep_coherent _ _ _ _ Hc1 E2) as [_ Hat].
  eapply Attached_mono; [|done]. by eapply rulesLoop_grows.
Qed.

Lemma parseRules_deduplicated lines tree :
  parseRules lines = Ok tree → Deduplicated tree.
Proof.
  unfold parseRules.
  destruct (rulesLoop _ rulesInit) as [st'|] eqn:E; [|done].
  rewrite bind_Ok. intros [= <-].
  destruct rulesInit_invariant as [Hd Hc].
  by destruct (rulesLoop_invariant _ _ _ _ Hd Hc E).
Qed.

Lemma parseRules_ids lines tree :
  parseRules lines = Ok tree →
  allRuleIds tree ≡ₚ ruleLineIds lines ∧ allSubruleIds tree ≡ₚ subruleLineIds lines.
Proof.
  unfold parseRules.
  destruct (rulesLoop _ rulesInit) as [st'|] eqn:E; [|done].
  rewrite bind_Ok. intros [= <-].
  apply rulesLoop_ids in E as [E1 E2]. simpl in *.
  by rewrite E1, E2, !app_nil_r.
Qed.

Section Unique.
Context {A : Type} (key : A → jsstring).

Lemma filter_key_absent (l : list A) k :
  k ∉ key <$> l → filter (λ y, key y = k) l = [].
Proof.
  induction l as [|y l IH]; [done|]. rewrite fmap_cons, not_elem_of_cons.
  intros [Hy Hl]. rewrite filter_cons, decide_False by done. by apply IH.
Qed.

Lemma filter_key_unique (l : list A) x :
  NoDup (key <$> l) → x ∈ l → filter (λ y, key y = key x) l = [x].
Proof.
  induction l as [|y l IH]; [by intros _ ?%elem_of_nil|].
  rewrite fmap_cons, NoDup_cons. intros [Hy Hnd] [->|Hx]%elem_of_cons.
  - rewrite filter_cons, decide_True by done. f_equal. by apply filter_key_absent.
  - rewrite filter_cons, decide_False; [by apply IH|].
    intros E. apply Hy. rewrite E. by apply list_elem_of_fmap_2.
Qed.

End Unique.

(** ** Sibling ids and attachment *)

(** C5, as stated, fails on [repeatedRuleLines], whose lines all match
    one of the four patterns: the two rules of subcategory 100 carry
    the same id; and they are attached under subcategory 100, although
    the Subcategory line classified last before them is the one of
    subcategory 200. *)
Lemma repeated_rule_line_repeats_id :
  Forall (λ l, levelOf (classify l) ≠ None) repeatedRuleLines
  ∧ parseRules repeatedRuleLines =
      Ok [mkCategory (str "1") (str "Game Concepts")
            [mkSubcategory (str "100") (str "General")
               [mkRule (str "100.1") (str "Text") [];
                mkRule (str "100.1") (str "Text") []]];
          mkCategory (str "2") (str "Parts of a Card")
            [mkSubcategory (str "200") (str "General") []]]
  ∧ ¬ NoDup (rule_id <$> [mkRule (str "100.1") (str "Text") [];
                          mkRule (str "100.1") (str "Text") []]).
Proof.
  split_and!.
  - repeat (apply Forall_cons_2; [vm_compute; discriminate|]). apply Forall_nil_2.
  - vm_compute. reflexivity.
  - intros [Hnotin _]%NoDup_cons. apply Hnotin. by left.
Qed.

(** C5, amended.  In the tree [parseRules] returns, the category ids
    are pairwise distinct and so are the subcategory ids of each
    category; the rule ids of a subcategory, and the subrule ids of a
    rule, are pairwise distinct when the Rule lines, respectively the
    Subrule lines, of the input carry pairwise distinct ids (they are
    appended without a test).  A Subcategory line is attached under the
    category of the last Category line; a Rule line under the
    subcategory of the last Subcategory line, if no Category line came
    after that one; a Subrule line under a rule with the id of the last
    Rule line, if no Category or Subcategory line came after that one. *)
Theorem parseRules_tree_invariants (lines : list jsstring) (tree : list Category) :
  parseRules lines = Ok tree →
  NoDup (category_id <$> tree)
  ∧ (∀ cat, cat ∈ tree → NoDup (subcategory_id <$> subcategories cat))
  ∧ (NoDup (ruleLineIds lines) →
     ∀ cat sub, cat ∈ tree → sub ∈ subcategories cat →
                NoDup (rule_id <$> rules sub))
  ∧ (NoDup (subruleLineIds lines) →
     ∀ cat sub rule, cat ∈ tree → sub ∈ subcategories cat → rule ∈ rules sub →
                     NoDup (subrule_id <$> subrules rule))
  ∧ (∀ pre line post, lines = pre ++ line :: post →
       Attached (ancestorsAfter pre) (classify line) tree).
Proof.
  intros Hparse.
  destruct (parseRules_deduplicated _ _ Hparse) as [Hcats Hsubs].
  destruct (parseRules_ids _ _ Hparse) as [Hrules Hsubrules].
  split_and!; [done..| | |].
  - intros Hnd cat sub Hcat Hsub. rewrite <-Hrules in Hnd.
    unfold allRuleIds in Hnd.
    apply (NoDup_bind_elem _ _ cat) in Hnd; [|done].
    by apply (NoDup_bind_elem _ _ sub) in Hnd.
  - intros Hnd cat sub rule Hcat Hsub Hrule. rewrite <-Hsubrules in Hnd.
    unfold allSubruleIds in Hnd.
    apply (NoDup_bind_elem _ _ cat) in Hnd; [|done].
    apply (NoDup_bind_elem _ _ sub) in Hnd; [|done].
    by apply (NoDup_bind_elem _ _ rule) in Hnd.
  - intros pre line post ->. by eapply parseRules_attached.
Qed.

Lemma parseRules_tree_invariants_witness :
  let lines :=
    [str "1. Game Concepts"; str "100. General";
     str "100.1. These are the rules."; str "100.1a This means something."] in
  let tree :=
    [mkCategory (str "1") (str "Game Concepts")
       [mkSubcategory (str "100") (str "General")
          [mkRule (str "100.1") (str "These are the rules.")
             [mkSubrule (str "100.1a") (str "This means something.")]]]] in
  NoDup (category_id <$> tree)
  ∧ Attached (ancestorsAfter (take 3 lines)) (classify (str "100.1a This means something."))
      tree.
Proof.
  intros lines tree.
  destruct (parseRules_tree_invariants lines tree) as (H1 & _ & _ & _ & H5);
    [vm_compute; reflexivity|].
  split; [done|].
  exact (H5 (take 3 lines) (str "100.1a This means something.") [] eq_refl).
Defined.

(** ** Repeated headers *)

Lemma filter_singleton_elem {A} (key : A → jsstring) (l : list A) k x y :
  filter (λ z, key z = k) l = [x] → y ∈ l → key y = k → y = x.
Proof.
  intros Hf Hy Hk.
  assert (y ∈ filter (λ z, key z = k) l) as Hin by (by apply list_elem_of_filter).
  rewrite Hf in Hin. by apply list_elem_of_singleton in Hin.
Qed.

(** C4, as stated, fails for a Subcategory header: fed twice with a
    Category line in between, the same header yields two entities with
    the same id, one in each category. *)
Lemma repeated_subcategory_line_two_entities :
  parseRules repeatedSubcategoryLines =
    Ok [mkCategory (str "1") (str "Game Concepts")
          [mkSubcategory (str "100") (str "General") []];
        mkCategory (str "2") (str "Parts of a Card")
          [mkSubcategory (str "100") (str "General") []]]
  ∧ ∀ tree, parseRules repeatedSubcategoryLines = Ok tree →
      length (filter (λ sub, subcategory_id sub = str "100")
                (cat ← tree; subcategories cat)) = 2%nat.
Proof.
  assert (parseRules repeatedSubcategoryLines =
    Ok [mkCategory (str "1") (str "Game Concepts")
          [mkSubcategory (str "100") (str "General") []];
        mkCategory (str "2") (str "Parts of a Card")
          [mkSubcategory (str "100") (str "General") []]]) as E
    by (vm_compute; reflexivity).
  split; [done|]. intros tree. rewrite E. intros [= <-]. vm_compute. reflexivity.
Qed.

(** C4, amended.  A Category header fed twice yields exactly one
    category with its id, and every Subcategory line that follows the
    second occurrence while that category is current is attached to it.
    A Subcategory header fed twice while the same category is current
    yields exactly one subcategory with its id in that category, and
    every Rule line that follows the second occurrence while that
    subcategory is current is attached to it. *)
Theorem repeated_header_single_entity (lines : list jsstring) (tree : list Category) :
  parseRules lines = Ok tree →
  (∀ pre h1 mid h2 post c t1 t2,
     lines = pre ++ h1 :: mid ++ h2 :: post →
     classify h1 = IsCategory c t1 → classify h2 = IsCategory c t2 →
     ∃ cat, filter (λ x, category_id x = c) tree = [cat]
       ∧ ∀ between l post' s t,
           post = between ++ l :: post' →
           ofCategory (ancestorsAfter (pre ++ h1 :: mid ++ h2 :: between)) = Some c →
           classify l = IsSubcategory s t →
           ∃ sub, sub ∈ subcategories cat ∧ subcategory_id sub = s)
  ∧ (∀ pre h1 mid h2 post c s t1 t2,
     lines = pre ++ h1 :: mid ++ h2 :: post →
     classify h1 = IsSubcategory s t1 → classify h2 = IsSubcategory s t2 →
     ofCategory (ancestorsAfter pre) = Some c →
     ofCategory (ancestorsAfter (pre ++ h1 :: mid)) = Some c →
     ∃ cat sub, filter (λ x, category_id x = c) tree = [cat]
       ∧ filter (λ x, subcategory_id x = s) (subcategories cat) = [sub]
       ∧ ∀ between l post' r text,
           post = between ++ l :: post' →
           ofCategory (ancestorsAfter (pre ++ h1 :: mid ++ h2 :: between)) = Some c →
           ofSubcategory (ancestorsAfter (pre ++ h1 :: mid ++ h2 :: between)) = Some s →
           classify l = IsRule r text →
           ∃ rule, rule ∈ rules sub ∧ rule_id rule = r ∧ rule_rule rule = text).
Proof.
  intros Hparse.
  destruct (parseRules_deduplicated _ _ Hparse) as [Hcats Hsubs].
  split.
  - intros pre h1 mid h2 post c t1 t2 -> H1 H2.
    assert (pre ++ h1 :: mid ++ h2 :: post = (pre ++ h1 :: mid) ++ h2 :: post) as E
      by (by rewrite <-app_assoc).
    pose proof Hparse as Hat. rewrite E in Hat.
    apply parseRules_attached in Hat. rewrite H2 in Hat.
    destruct Hat as (cat & Hcat & <-).
    exists cat. split; [by apply filter_key_unique|].
    intros between l post' s t -> Hc Hl.
    assert (pre ++ h1 :: mid ++ h2 :: between ++ l :: post'
            = (pre ++ h1 :: mid ++ h2 :: between) ++ l :: post') as E'
      by (by rewrite <-!app_assoc; simpl; rewrite <-!app_assoc).
    pose proof Hparse as Hat. rewrite E' in Hat.
    apply parseRules_attached in Hat. rewrite Hl in Hat.
    destruct (Hat _ Hc) as (cat' & sub & Hcat' & Hid & Hsub & Hs).
    assert (cat' = cat) as ->.
    { eapply (filter_singleton_elem category_id); [|done..].
      by apply filter_key_unique. }
    by exists sub.
  - intros pre h1 mid h2 post c s t1 t2 -> H1 H2 _ Hc.
    assert (pre ++ h1 :: mid ++ h2 :: post = (pre ++ h1 :: mid) ++ h2 :: post) as E
      by (by rewrite <-app_assoc).
    pose proof Hparse as Hat. rewrite E in Hat.
    apply parseRules_attached in Hat. rewrite H2 in Hat.
    destruct (Hat _ Hc) as (cat & sub & Hcat & <- & Hsub & <-).
    exists cat, sub.
    assert (filter (λ x, category_id x = category_id cat) tree = [cat]) as Fcat
      by (by apply filter_key_unique).
    assert (filter (λ x, subcategory_id x = subcategory_id sub) (subcategories cat)
            = [sub]) as Fsub
      by (apply filter_key_unique; [by apply Hsubs|done]).
    split_and!; [done..|].
    intros between l post' r text -> Hc' Hs' Hl.
    assert (pre ++ h1 :: mid ++ h2 :: between ++ l :: post'
            = (pre ++ h1 :: mid ++ h2 :: between) ++ l :: post') as E'
      by (by rewrite <-!app_assoc; simpl; rewrite <-!app_assoc).
    pose proof Hparse as Hat'. rewrite E' in Hat'.
    apply parseRules_attached in Hat'. rewrite Hl in Hat'.
    destruct (Hat' _ _ Hc' Hs')
      as (cat' & sub' & rule & Hcat' & Hid & Hsub' & Hs & Hrule & Hr & Hx).
    assert (cat' = cat) as -> by (by eapply (filter_singleton_elem category_id)).
    assert (sub' = sub) as -> by (by eapply (filter_singleton_elem subcategory_id)).
    by exists rule.
Qed.

Lemma repeated_header_single_entity_witness :
  ∃ cat sub,
    filter (λ x, category_id x = str "1")
      [mkCategory (str "1") (str "Game Concepts")
         [mkSubcategory (str "100") (str "General")
            [mkRule (str "100.1") (str "These are the rules.")
               [mkSubrule (str "100.1a") (str "This means something.")]]]]
    = [cat]
    ∧ filter (λ x, subcategory_id x = str "100") (subcategories cat) = [sub]
    ∧ ∃ rule, rule ∈ rules sub ∧ rule_id rule = str "100.1"
              ∧ rule_rule rule = str "These are the rules.".
Proof.
  destruct (repeated_header_single_entity repeatedHeaderLines
              [mkCategory (str "1") (str "Game Concepts")
                 [mkSubcategory (str "100") (str "General")
                    [mkRule (str "100.1") (str "These are the rules.")
                       [mkSubrule (str "100.1a") (str "This means something.")]]]])
    as [_ H]; [vm_compute; reflexivity|].
  destruct (H [str "1. Game Concepts"] (str "100. General") [str "1. Game Concepts"]
              (str "100. General")
              [str "100.1. These are the rules."; str "100.1a This means something."]
              (str "1") (str "100") (str "General") (str "General"))
    as (cat & sub & Hc & Hs & Hr); [vm_compute; reflexivity..|].
  exists cat, sub. split_and!; [done..|].
  eapply (Hr [] (str "100.1. These are the rules.")
             [str "100.1a This means something."]);
    vm_compute; reflexivity.
Defined.

(** ** The scenarios of the specification, run on the code *)

Example end_to_end_scenario :
  parseRules
    [str "1. Game Concepts"; str "100. General";
     str "100.1. These are the Comprehensive Rules.";
     str "100.1a This means something."]
  = Ok [mkCategory (str "1") (str "Game Concepts")
          [mkSubcategory (str "100") (str "General")
             [mkRule (str "100.1") (str "These are the Comprehensive Rules.")
                [mkSubrule (str "100.1a") (str "This means something.")]]]].
Proof. vm_compute. reflexivity. Qed.

Example term_without_definition :
  parseGlossary [str "Abandon"; str "Ability"; str "A text."]
  = Ok [mkGlossaryTerm (str "Abandon") [];
        mkGlossaryTerm (str "Ability") [str "A text."]].
Proof. vm_compute. reflexivity. Qed.

Example unmatched_lines_are_ignored :
  parseRules [str "1. Game Concepts"; str "An introduction"; []; str "100. General"]
  = Ok [mkCategory (str "1") (str "Game Concepts")
          [mkSubcategory (str "100") (str "General") []]].
Proof. vm_compute. reflexivity. Qed.

(* ================================================================== *)
(** * Further properties of the code *)
(* ================================================================== *)

(** ** Lines that do not count *)

Lemma rulesStep_ignored st : rulesStep st Ignored = Ok st.
Proof. by destruct st. Qed.

Lemma rulesLoop_filter lines st :
  rulesLoop (filter (λ l, is_Some (levelOf (classify l))) lines) st
  = rulesLoop lines st.
Proof.
  revert st. induction lines as [|l lines IH]; intros st; [done|].
  rewrite filter_cons.
  destruct (decide (is_Some (levelOf (classify l)))) as [Hs|Hn].
  - rewrite !rulesLoop_cons.
    destruct (rulesStep st (classify l)); [by rewrite !bind_Ok|done].
  - assert (classify l = Ignored) as E.
    { destruct (classify l); try done; exfalso; apply Hn; by eexists. }
    by rewrite (rulesLoop_cons l), E, rulesStep_ignored, bind_Ok.
Qed.

(** X1: lines that match none of the four patterns, blank lines
    included, leave no trace: a document parses to the same result
    (the same tree or the same exception) with or without them. *)
Theorem parseRules_skips_unmatched_lines (lines : list jsstring) :
  parseRules (filter (λ l, is_Some (levelOf (classify l))) lines)
  = parseRules lines.
Proof. unfold parseRules. by rewrite rulesLoop_filter. Qed.

Lemma trimStart_fixed c s : is_trimmed_char c = false → trimStart (c :: s) = c :: s.
Proof. intros H. simpl. by rewrite H. Qed.

Lemma trimStart_head s :
  trimStart s = [] ∨ ∃ c s', trimStart s = c :: s' ∧ is_trimmed_char c = false.
Proof.
  induction s as [|c s IH]; [by left|]. simpl.
  destruct (is_trimmed_char c) eqn:E; [done|]. right. by exists c, s.
Qed.

Lemma trimStart_idempotent s : trimStart (trimStart s) = trimStart s.
Proof.
  destruct (trimStart_head s) as [->|(c & s' & -> & Hc)]; [done|].
  by apply trimStart_fixed.
Qed.

Lemma trimStart_app_kept u c v :
  is_trimmed_char c = false → trimStart (u ++ c :: v) = trimStart u ++ c :: v.
Proof.
  intros Hc. induction u as [|x u IH]; simpl; [by rewrite Hc|].
  by destruct (is_trimmed_char x).
Qed.

Lemma trimEnd_cons_kept c s :
  is_trimmed_char c = false → trimEnd (c :: s) = c :: trimEnd s.
Proof.
  intros Hc. unfold trimEnd. simpl.
  by rewrite trimStart_app_kept, rev_app_distr.
Qed.

Lemma trimEnd_idempotent s : trimEnd (trimEnd s) = trimEnd s.
Proof. unfold trimEnd. by rewrite rev_involutive, trimStart_idempotent. Qed.

Lemma trim_idempotent s : trim (trim s) = trim s.
Proof.
  unfold trim. destruct (trimStart_head s) as [->|(c & s' & -> & Hc)]; [done|].
  rewrite trimEnd_cons_kept by done. rewrite trimStart_fixed by done.
  by rewrite trimEnd_cons_kept, trimEnd_idempotent.
Qed.

Lemma classify_trim line : classify (trim line) = classify line.
Proof.
  unfold classify. rewrite trim_idempotent.
  destruct (decide (line = [])) as [->|Hne]; [done|].
  destruct (decide (trim line = [])) as [E|E]; [|done].
  rewrite E. vm_compute. reflexivity.
Qed.

Lemma glossaryStep_trim st line : glossaryStep st (trim line) = glossaryStep st line.
Proof. unfold glossaryStep. by rewrite trim_idempotent. Qed.

(** X2: white space and line terminators around a line never matter to
    either parser: trimming every line first gives the same result. *)
Theorem parsers_ignore_surrounding_space (lines : list jsstring) :
  parseRules (trim <$> lines) = parseRules lines
  ∧ parseGlossary (trim <$> lines) = parseGlossary lines.
Proof.
  split.
  - unfold parseRules. f_equal. generalize rulesInit.
    induction lines as [|l lines IH]; intros st; [done|].
    rewrite fmap_cons, !rulesLoop_cons, classify_trim.
    destruct (rulesStep st (classify l)); [by rewrite !bind_Ok|done].
  - unfold parseGlossary. f_equal. generalize glossaryInit.
    induction lines as [|l lines IH]; intros st; [done|].
    rewrite fmap_cons, !glossaryLoop_cons, glossaryStep_trim.
    destruct (glossaryStep st l); [by rewrite !bind_Ok|done].
Qed.

(** ** Inputs that parse *)

Lemma read_at {A} (l : list A) (i : Z) p x : at_index l i = Some x → read l i p = Ok x.
Proof. intros H. unfold read. by rewrite H. Qed.

Lemma rulesStep_named a st k :
  Coherent a st → named k a = true → ∃ st', rulesStep st k = Ok st'.
Proof.
  destruct a as [oc os or], st as [arr ci si ri].
  intros Hco Hn. unfold Coherent in Hco. simpl in Hco.
  destruct k as [id title|id title|id text|id text|]; simpl in Hn.
  - rewrite rulesStep_category. by eexists.
  - destruct oc as [c|]; [|done]. destruct Hco as (cat & Hcat & _).
    simpl. rewrite (read_at _ _ _ _ Hcat), bind_Ok. by eexists.
  - destruct oc as [c|]; [|done]. destruct os as [s|]; [|done].
    destruct Hco as (cat & Hcat & _ & sub & Hsub & _).
    simpl. rewrite (read_at _ _ _ _ Hcat), bind_Ok, (read_at _ _ _ _ Hsub), bind_Ok.
    by eexists.
  - destruct oc as [c|]; [|done]. destruct os as [s|]; [|done].
    destruct or as [r|]; [|done].
    destruct Hco as (cat & Hcat & _ & sub & Hsub & _ & rule & Hrule & _).
    simpl. rewrite (read_at _ _ _ _ Hcat), bind_Ok, (read_at _ _ _ _ Hsub), bind_Ok.
    rewrite (read_at _ _ _ _ Hrule), bind_Ok. by eexists.
  - by eexists.
Qed.

Lemma rulesLoop_wellNested lines a st :
  Coherent a st → wellNestedFrom a lines = true → ∃ st', rulesLoop lines st = Ok st'.
Proof.
  revert a st. induction lines as [|l lines IH]; intros a st Hco; simpl.
  - by eexists.
  - intros [Hn Hrest]%andb_true_iff.
    destruct (rulesStep_named _ _ _ Hco Hn) as [st1 E].
    rewrite rulesLoop_cons, E, bind_Ok. eapply IH; [|done].
    by eapply rulesStep_coherent.
Qed.

(** X3: an input in which every Subcategory line comes after a Category
    line, every Rule line after a Subcategory line of the current
    category and every Subrule line after a Rule line of the current
    subcategory is parsed without an exception. *)
Theorem parseRules_returns_on_nested_input (lines : list jsstring) :
  wellNested lines = true → ∃ tree, parseRules lines = Ok tree.
Proof.
  intros H. unfold parseRules.
  destruct (rulesLoop_wellNested lines (mkAncestors None None None) rulesInit)
    as [st' E]; [done|done|].
  rewrite E, bind_Ok. by eexists.
Qed.

Lemma parseRules_returns_on_nested_input_witness :
  ∃ tree, parseRules repeatedHeaderLines = Ok tree.
Proof.
  apply parseRules_returns_on_nested_input. vm_compute. reflexivity.
Defined.

(** ** The categories, in order of first appearance *)

Lemma fmap_insert_same {A B} (f : A → B) (l : list A) (n : nat) x x' :
  l !! n = Some x → f x' = f x → f <$> <[n := x']> l = f <$> l.
Proof.
  intros Hn Hf. rewrite list_fmap_insert. apply list_insert_id.
  by rewrite list_lookup_fmap, Hn, Hf.
Qed.

Lemma rulesStep_headers st k st' :
  rulesStep st k = Ok st' →
  let header := λ c, (category_id c, category_title c) in
  header <$> rulesArr st' =
    match k with
    | IsCategory id title =>
        if bool_decide (id ∈ (header <$> rulesArr st).*1) then header <$> rulesArr st
        else (header <$> rulesArr st) ++ [(id, title)]
    | _ => header <$> rulesArr st
    end.
Proof.
  intros Hstep header.
  destruct k as [id title|id title|id text|id text|].
  - rewrite rulesStep_category in Hstep. injection Hstep as <-. simpl.
    assert ((header <$> rulesArr st).*1 = category_id <$> rulesArr st) as ->.
    { by rewrite <-list_fmap_compose. }
    unfold pushIfNew.
    destruct (some _ (rulesArr st)) eqn:E.
    + apply some_key in E. by rewrite bool_decide_eq_true_2.
    + rewrite bool_decide_eq_false_2; [by rewrite fmap_app|].
      intros H%some_key. congruence.
  - apply rulesStep_subcategory in Hstep as (n & cat & _ & Hn & ->). simpl.
    by apply (fmap_insert_same header _ _ cat).
  - apply rulesStep_rule in Hstep as (n & m & cat & sub & _ & Hn & _ & _ & ->). simpl.
    by apply (fmap_insert_same header _ _ cat).
  - apply rulesStep_subrule in Hstep
      as (n & m & j & cat & sub & rule & _ & Hn & _ & _ & _ & _ & ->). simpl.
    by apply (fmap_insert_same header _ _ cat).
  - rewrite rulesStep_ignored in Hstep. by injection Hstep as <-.
Qed.

Lemma rulesLoop_headers lines st st' :
  rulesLoop lines st = Ok st' →
  (λ c, (category_id c, category_title c)) <$> rulesArr st' =
    fold_left (λ acc h, if bool_decide (h.1 ∈ acc.*1) then acc else acc ++ [h])
      (categoryHeaders lines)
      ((λ c, (category_id c, category_title c)) <$> rulesArr st).
Proof.
  revert st. induction lines as [|l lines IH]; intros st.
  - by intros [= <-].
  - rewrite rulesLoop_cons.
    destruct (rulesStep st (classify l)) as [st1|] eqn:E; [|done].
    rewrite bind_Ok. intros H%IH. rewrite H.
    apply rulesStep_headers in E. simpl in E. rewrite E.
    unfold categoryHeaders. simpl. by destruct (classify l).
Qed.

(** X4: the categories of the tree are the Category lines with an id
    not seen before, in document order, each with the title of its first
    occurrence; no other line changes the list of categories. *)
Theorem parseRules_categories_in_first_appearance_order
    (lines : list jsstring) (tree : list Category) :
  parseRules lines = Ok tree →
  (λ c, (category_id c, category_title c)) <$> tree
  = firstHeaders (categoryHeaders lines).
Proof.
  unfold parseRules.
  destruct (rulesLoop lines rulesInit) as [st'|] eqn:E; [|done].
  rewrite bind_Ok. intros [= <-]. by apply rulesLoop_headers in E.
Qed.

Lemma parseRules_categories_in_first_appearance_order_witness :
  (λ c, (category_id c, category_title c)) <$>
    [mkCategory (str "1") (str "Game Concepts")
       [mkSubcategory (str "100") (str "General")
          [mkRule (str "100.1") (str "Text") []; mkRule (str "100.1") (str "Text") []]];
     mkCategory (str "2") (str "Parts of a Card")
       [mkSubcategory (str "200") (str "General") []]]
  = firstHeaders (categoryHeaders repeatedRuleLines).
Proof.
  apply parseRules_categories_in_first_appearance_order. vm_compute. reflexivity.
Defined.

(** ** Longer inputs *)

(** X5: an exception ends the parse, whatever follows: if a document
    makes a parser throw, so does every document it is the beginning of.
    And when a longer document parses, its beginning parses too, and the
    tree of the longer document extends the tree of the beginning: every
    entity keeps its place, its id and its text, and only gains
    children. *)
Theorem parsers_on_longer_input (pre post : list jsstring) :
  (∀ e, parseRules pre = Throw e → parseRules (pre ++ post) = Throw e)
  ∧ (∀ e, parseGlossary pre = Throw e → parseGlossary (pre ++ post) = Throw e)
  ∧ (∀ tree, parseRules (pre ++ post) = Ok tree →
       ∃ tree0, parseRules pre = Ok tree0 ∧ treeExt tree0 tree).
Proof.
  split_and!.
  - intros e. unfold parseRules. rewrite rulesLoop_app.
    destruct (rulesLoop pre rulesInit); [done|]. by intros [= ->].
  - intros e. unfold parseGlossary. rewrite glossaryLoop_app.
    destruct (glossaryLoop pre glossaryInit); [done|]. by intros [= ->].
  - intros tree. unfold parseRules. rewrite rulesLoop_app.
    destruct (rulesLoop pre rulesInit) as [st0|]; [|done]. rewrite !bind_Ok.
    destruct (rulesLoop post st0) as [st1|] eqn:E; [|done].
    rewrite bind_Ok. intros [= <-]. exists (rulesArr st0).
    split; [done|]. by eapply rulesLoop_grows.
Qed.

Lemma parsers_on_longer_input_witness :
  parseRules ([str "100.1. Some rule text."] ++ [str "1. Game Concepts"])
  = Throw (TypeError "subcategories").
Proof.
  apply (proj1 (parsers_on_longer_input _ _)). vm_compute. reflexivity.
Defined.

(** ** The glossary: when it parses, and what comes out *)

Lemma glossaryLoop_total lines st :
  GlossaryInv st → termsArr st ≠ [] →
  ∃ st', glossaryLoop lines st = Ok st' ∧ termsArr st' ≠ [].
Proof.
  revert st. induction lines as [|l lines IH]; intros [arr idx] Hinv Hne.
  - by eexists.
  - rewrite glossaryLoop_cons.
    assert (∃ st1, glossaryStep (mkGlossaryState arr idx) l = Ok st1
                   ∧ termsArr st1 ≠ []) as (st1 & E & Hne1).
    { destruct (decide (trim l = [])) as [Hb|Hb].
      { rewrite glossaryStep_blank by done. by eexists. }
      destruct (isTermLine (trim l)) eqn:Ht.
      - rewrite glossaryStep_term by done. eexists. split; [done|]. simpl.
        by intros [? ?]%app_eq_nil.
      - destruct Hinv as [_ [?|(i & Hi & t & Hti & _)]]; [done|].
        simpl in Hi, Hti. subst idx. rewrite (glossaryStep_continuation _ _ _ t) by done.
        eexists. split; [done|]. simpl. intros E.
        apply (f_equal length) in E. rewrite length_insert in E.
        by destruct arr. }
    rewrite E, bind_Ok. apply IH; [|done]. by eapply glossaryStep_inv.
Qed.

(** X6: [parseGlossary] throws exactly when the first non-blank line is
    not a term line, and the exception is then the TypeError of reading
    [meanings] of [undefined]; with no non-blank line the result is the
    empty glossary, and after a first term line the whole input parses,
    whatever follows. *)
Theorem parseGlossary_throws_only_on_leading_orphan (lines : list jsstring) :
  match cleanLines lines with
  | [] => parseGlossary lines = Ok []
  | c :: _ =>
      if isTermLine c then ∃ terms, parseGlossary lines = Ok terms ∧ terms ≠ []
      else parseGlossary lines = Throw (TypeError "meanings")
  end.
Proof.
  unfold parseGlossary. induction lines as [|l lines IH]; [done|].
  rewrite cleanLines_cons, glossaryLoop_cons.
  destruct (decide (trim l = [])) as [Hb|Hb].
  { by rewrite glossaryStep_blank, bind_Ok. }
  destruct (isTermLine (trim l)) eqn:Ht.
  - unfold glossaryInit. rewrite glossaryStep_term, bind_Ok by done.
    edestruct (glossaryLoop_total lines) as (st' & -> & Hne).
    + eapply (glossaryStep_inv glossaryInit l); [apply glossaryInit_inv|].
      by apply glossaryStep_term.
    + simpl. done.
    + rewrite bind_Ok. by eexists.
  - unfold glossaryStep, glossaryInit. rewrite decide_False by done.
    by rewrite Ht, read_empty.
Qed.

Lemma continuationLines_cons l ls :
  continuationLines (l :: ls) =
    if decide (trim l = []) then continuationLines ls
    else if isTermLine (trim l) then continuationLines ls
    else trim l :: continuationLines ls.
Proof.
  unfold continuationLines. rewrite cleanLines_cons.
  destruct (decide (trim l = [])); [done|].
  rewrite filter_cons. destruct (isTermLine (trim l)).
  - by rewrite decide_False.
  - by rewrite decide_True.
Qed.

Lemma glossaryLoop_meanings lines st st' :
  glossaryLoop lines st = Ok st' →
  allMeanings (termsArr st') ≡ₚ continuationLines lines ++ allMeanings (termsArr st).
Proof.
  unfold allMeanings.
  revert st. induction lines as [|l lines IH]; intros [arr idx].
  - by intros [= <-].
  - rewrite glossaryLoop_cons, continuationLines_cons.
    destruct (decide (trim l = [])) as [Hb|Hb].
    { rewrite glossaryStep_blank, bind_Ok by done. apply IH. }
    destruct (isTermLine (trim l)) eqn:Ht.
    + rewrite glossaryStep_term, bind_Ok by done. intros H%IH.
      rewrite H. simpl. rewrite bind_app. simpl. by rewrite !app_nil_r.
    + unfold glossaryStep. rewrite decide_False by done. rewrite Ht.
      destruct (read arr idx "meanings") as [t|e] eqn:Hr; [|done].
      apply read_Ok in Hr as (n & -> & Hn). rewrite !bind_Ok, store_nat.
      intros H%IH. rewrite H. simpl.
      rewrite (bind_insert_permutation _ _ _ t _ [trim l]); [|done|].
      * by rewrite Permutation_middle.
      * simpl. by rewrite Permutation_app_comm.
Qed.

(** X7: no continuation line is lost or repeated: the meanings of all
    the terms returned are, up to their order across terms, the
    non-blank lines of the input that do not open a term. *)
Theorem parseGlossary_keeps_every_continuation_line
    (lines : list jsstring) (terms : list GlossaryTerm) :
  parseGlossary lines = Ok terms →
  allMeanings terms ≡ₚ continuationLines lines.
Proof.
  unfold parseGlossary.
  destruct (glossaryLoop lines glossaryInit) as [st'|] eqn:E; [|done].
  rewrite bind_Ok. intros [= <-].
  apply glossaryLoop_meanings in E. simpl in E. by rewrite app_nil_r in E.
Qed.

Lemma parseGlossary_keeps_every_continuation_line_witness :
  allMeanings
    [mkGlossaryTerm (str "Abandon")
       [str "To turn a card face down."; str "See rule 701.26";
        str "A second paragraph."];
     mkGlossaryTerm (str "Abandon") []]
  ≡ₚ continuationLines
       [str "Abandon"; str "To turn a card face down."; str "Abandon";
        str "See rule 701.26"; str "A second paragraph."].
Proof.
  apply parseGlossary_keeps_every_continuation_line. vm_compute. reflexivity.
Defined.

Lemma grouped_cons c cs :
  grouped (c :: cs) =
    if isTermLine c then ([], mkGlossaryTerm c (grouped cs).1 :: (grouped cs).2)
    else (c :: (grouped cs).1, (grouped cs).2).
Proof. done. Qed.

Lemma insert_last {A} (pre : list A) x y : <[length pre := y]> (pre ++ [x]) = pre ++ [y].
Proof. rewrite insert_app_r_alt by done. by rewrite Nat.sub_diag. Qed.

(** With the cursor on the last entry and no term repeated, the loop
    gives the pending lines to that entry and appends the later terms. *)
Lemma glossaryLoop_grouped lines pre t :
  NoDup ((term <$> pre ++ [t]) ++ termLines lines) →
  ∃ idx,
    glossaryLoop lines (mkGlossaryState (pre ++ [t]) (Z.of_nat (length pre))) =
      Ok (mkGlossaryState
            (pre ++ mkGlossaryTerm (term t) (meanings t ++ (grouped (cleanLines lines)).1)
                 :: (grouped (cleanLines lines)).2)
            idx).
Proof.
  revert pre t. induction lines as [|l lines IH]; intros pre t Hnd.
  - eexists. simpl. rewrite app_nil_r. by destruct t.
  - rewrite glossaryLoop_cons, cleanLines_cons.
    rewrite termLines_cons in Hnd.
    destruct (decide (trim l = [])) as [Hb|Hb].
    { rewrite glossaryStep_blank, bind_Ok by done. by apply IH. }
    rewrite grouped_cons. destruct (isTermLine (trim l)) eqn:Ht.
    + rewrite glossaryStep_term, bind_Ok by done.
      destruct (findIndex_term (pre ++ [t]) (trim l)) as (i & -> & _ & _ & Hnew & _).
      rewrite Hnew.
      2:{ intros t0 Ht0 E. apply NoDup_app in Hnd as (_ & Hdis & _).
          apply (Hdis (trim l)); [|by left].
          rewrite <-E. by apply list_elem_of_fmap_2. }
      destruct (IH (pre ++ [t]) (mkGlossaryTerm (trim l) [])) as [idx E].
      { rewrite fmap_app. simpl. rewrite <-app_assoc. done. }
      rewrite E. exists idx. simpl. rewrite app_nil_r, <-app_assoc. simpl.
      by destruct t.
    + rewrite (glossaryStep_continuation _ _ _ t), bind_Ok;
        [|done..|by rewrite lookup_app_r, Nat.sub_diag].
      rewrite insert_last.
      destruct (IH pre (mkGlossaryTerm (term t) (meanings t ++ [trim l]))) as [idx E].
      { by rewrite fmap_app in *. }
      rewrite E. exists idx. simpl. by rewrite <-app_assoc.
Qed.

(** X8: when no term is repeated, the cursor is always on the last
    entry, and the result is the plain grouping of the document: each
    term line, in order, with the continuation lines that follow it up
    to the next term line, in order. *)
Theorem parseGlossary_groups_lines_under_terms
    (lines : list jsstring) (terms : list GlossaryTerm) :
  NoDup (termLines lines) → parseGlossary lines = Ok terms →
  terms = (grouped (cleanLines lines)).2.
Proof.
  unfold parseGlossary. induction lines as [|l lines IH]; intros Hnd.
  - by intros [= <-].
  - rewrite glossaryLoop_cons, cleanLines_cons.
    rewrite termLines_cons in Hnd.
    destruct (decide (trim l = [])) as [Hb|Hb].
    { rewrite glossaryStep_blank, bind_Ok by done. by apply IH. }
    rewrite grouped_cons. destruct (isTermLine (trim l)) eqn:Ht.
    + unfold glossaryInit. rewrite glossaryStep_term, bind_Ok by done.
      destruct (findIndex_term [] (trim l)) as (i & -> & _ & _ & Hnew & _).
      rewrite Hnew by (by intros ? ?%elem_of_nil).
      destruct (glossaryLoop_grouped lines [] (mkGlossaryTerm (trim l) []))
        as [idx E]; [done|].
      simpl in E. simpl. rewrite E, bind_Ok. by intros [= <-].
    + unfold glossaryStep, glossaryInit. rewrite decide_False by done.
      by rewrite Ht, read_empty.
Qed.

Lemma parseGlossary_groups_lines_under_terms_witness :
  [mkGlossaryTerm (str "Abandon") [str "To turn a card face down."];
   mkGlossaryTerm (str "Ability") [];
   mkGlossaryTerm (str "Absorb") [str "A keyword ability."; str "See rule 702.64"]]
  = (grouped (cleanLines
       [str "Abandon"; str " To turn a card face down."; []; str "Ability";
        str "Absorb"; str "A keyword ability."; str "See rule 702.64"])).2.
Proof.
  apply parseGlossary_groups_lines_under_terms.
  - apply (bool_decide_unpack _). vm_compute. exact I.
  - vm_compute. reflexivity.
Defined.

(** ** The section extractors, with their anchors in place *)

Lemma indexOf_first `{EqDecision A} (x : A) (a r : list A) :
  x ∉ a → indexOf x (a ++ x :: r) = Z.of_nat (length a).
Proof.
  intros Hx. rewrite indexOf_index_where.
  apply (index_where_found _ _ _ x).
  - by apply list_lookup_middle.
  - by apply bool_decide_eq_true.
  - intros j y Hj Hlt. rewrite lookup_app_l in Hj by done.
    apply bool_decide_eq_false. intros ->. apply Hx.
    by eapply list_elem_of_lookup_2.
Qed.

(** X9: when the document has a line ["Credits"], [getRules] parses the
    lines from the second line after the first such line on: the line
    right after the heading is skipped together with everything before. *)
Theorem getRules_starts_two_lines_after_credits
    (rulesText : jsstring) (front rest : list jsstring) :
  split CR rulesText = front ++ str "Credits" :: rest →
  str "Credits" ∉ front →
  getRules rulesText = parseRules (drop 1 rest).
Proof.
  intros Hsplit Hfront. unfold getRules, rulesLines. rewrite Hsplit.
  unfold findIndex. rewrite <-indexOf_index_where, indexOf_first by done.
  rewrite splice_front by lia. f_equal.
  replace (Z.to_nat (Z.of_nat (length front) + 2)) with (length front + 2)%nat by lia.
  by rewrite drop_app_add'.
Qed.

Lemma getRules_starts_two_lines_after_credits_witness :
  getRules (str "Contents" ++ CR :: str "Credits" ++ CR :: CR
            :: str "1. Game Concepts" ++ CR :: str "100. General")
  = parseRules (drop 1 [[]; str "1. Game Concepts"; str "100. General"]).
Proof.
  apply (getRules_starts_two_lines_after_credits _ [str "Contents"]).
  - vm_compute. reflexivity.
  - apply (bool_decide_unpack _). vm_compute. exact I.
Defined.

(** X10: when the document has a glossary heading and, after it, a
    credits marker, [getGlossary] parses exactly the lines strictly
    between the first glossary heading and the first credits marker
    that follows it. *)
Theorem getGlossary_selects_from_first_heading_to_credits
    (rulesText : jsstring) (front glossary back : list jsstring) :
  split CR rulesText = front ++ GLOSSARY :: glossary ++ CREDITS :: back →
  GLOSSARY ∉ front → CREDITS ∉ glossary →
  getGlossary rulesText = parseGlossary glossary.
Proof.
  intros Hsplit Hfront Hglossary. unfold getGlossary.
  rewrite glossaryLines_first_heading, Hsplit. cbv zeta.
  rewrite indexOf_first by done. rewrite splice_front by lia.
  replace (Z.to_nat (Z.of_nat (length front) + 1)) with (length front + 1)%nat by lia.
  rewrite drop_app_add'; [|done]. simpl drop. rewrite drop_0.
  rewrite indexOf_first by done. rewrite splice_tail by lia.
  by rewrite Nat2Z.id, take_app_length.
Qed.

Lemma getGlossary_selects_from_first_heading_to_credits_witness :
  getGlossary (str "Contents" ++ CR :: GLOSSARY ++ CR :: LF :: str "Abandon"
               ++ CR :: LF :: str "To turn a card face down." ++ CR :: CREDITS
               ++ CR :: LF :: str "Design")
  = parseGlossary [LF :: str "Abandon"; LF :: str "To turn a card face down."].
Proof.
  apply (getGlossary_selects_from_first_heading_to_credits _ [str "Contents"] _
           [LF :: str "Design"]).
  - vm_compute. reflexivity.
  - apply (bool_decide_unpack _). vm_compute. exact I.
  - apply (bool_decide_unpack _). vm_compute. exact I.
Defined.

(** ** The effective date, in general *)

Lemma exec_search_absent lit g last s :
  includes lit s = false → exec_search lit g last s = None.
Proof.
  induction s as [|x s IH]; simpl; intros [H1 H2]%orb_false_iff;
    unfold exec_here; rewrite H1; [done|]. by apply IH.
Qed.

(** X11: [getEffectiveDate] throws exactly when the document has fewer
    than three lines, and then it is the TypeError of reading [match]
    of [undefined]; when the third line does not contain the fixed
    words of the sentence, the result is [undefined], wherever else in
    the document the sentence may stand. *)
Theorem getEffectiveDate_looks_at_third_line_only
    (Date_parse : jsstring → number) (rulesText : jsstring) :
  ((∃ e, getEffectiveDate Date_parse rulesText = Throw e)
   ↔ (length (split CR rulesText) ≤ 2)%nat)
  ∧ (∀ e, getEffectiveDate Date_parse rulesText = Throw e → e = TypeError "match")
  ∧ (∀ dateLine, split CR rulesText !! 2%nat = Some dateLine →
       includes effectiveDatePrefix dateLine = false →
       getEffectiveDate Date_parse rulesText = Ok None).
Proof.
  unfold getEffectiveDate.
  destruct (split CR rulesText !! 2%nat) as [dateLine|] eqn:E.
  - rewrite (read_nat _ 2 _ _ E), bind_Ok. apply lookup_lt_Some in E.
    split_and!.
    + split; [|lia]. intros [e He]. by destruct (effectiveDateMatch dateLine).
    + intros e. by destruct (effectiveDateMatch dateLine).
    + intros ? [= <-] Habs. unfold effectiveDateMatch.
      by rewrite exec_search_absent.
  - assert (read (split CR rulesText) 2 "match" = Throw (TypeError "match")) as ->.
    { unfold read, at_index. rewrite decide_False by lia.
      change (Z.to_nat 2) with 2%nat. by rewrite E. }
    apply lookup_ge_None in E. rewrite bind_Throw.
    split_and!; [split; [lia|by eexists]|by intros ? [= <-]|done].
Qed.

Lemma getEffectiveDate_looks_at_third_line_only_witness :
  getEffectiveDate HostDate.Date_parse_utc
    (str "Title" ++ CR :: str "Subtitle" ++ CR :: str "Introduction" ++ CR ::
     str "These rules are effective as of November 8, 2024.")
  = Ok None.
Proof.
  eapply (proj2 (proj2 (getEffectiveDate_looks_at_third_line_only _ _)));
    vm_compute; reflexivity.
Defined.

Lemma greedy_lengths_lookup s i k :
  greedy_lengths s !! i = Some k ↔ (k = length s - i ∧ i ≤ length s)%nat.
Proof.
  unfold greedy_lengths. rewrite rev_alt. change (rev_append ?l []) with (reverse l).
  rewrite reverse_lookup_Some, length_seq, lookup_seq. lia.
Qed.

(** The longest length that fits is the one a greedy group takes. *)
Lemma greedy_first (P : nat → bool) s n :
  P n = true → (n ≤ length s)%nat →
  (∀ m, (n < m ≤ length s)%nat → P m = false) →
  list_find (λ k, P k = true) (greedy_lengths s) = Some ((length s - n)%nat, n).
Proof.
  intros Hn Hle Hmax. apply list_find_Some. split_and!; [|done|].
  - apply greedy_lengths_lookup. lia.
  - intros j m [-> Hj]%greedy_lengths_lookup Hlt. rewrite Hmax; [done|lia].
Qed.

Lemma lang_plus_cls_intro p s :
  s ≠ [] → Forall (λ c, p c = true) s → lang (Plus (Cls p)) s.
Proof.
  intros Hne Hs. destruct Hs as [|c s Hc Hs]; [done|].
  apply (lang_cat _ _ [c] s); [by constructor|].
  clear Hne Hc. induction Hs as [|c' s Hc' _ IH]; [constructor|].
  apply (lang_star_app _ [c'] s); [by constructor|done].
Qed.

Lemma matches_plus_cls_Forall p s :
  matches (Plus (Cls p)) s = true → Forall (λ c, p c = true) s.
Proof.
  intros (c & s' & -> & Hc & Hs')%matches_lang%lang_plus_cls. by constructor.
Qed.

Lemma effectiveDateMatch_at_start phrase c after :
  phrase ≠ [] → Forall (λ x, is_dot x = true) phrase → is_dot c = true →
  match after with [] => True | t :: _ => is_dot t = false end →
  exec_here effectiveDatePrefix (Plus (Cls is_dot)) is_dot
    (effectiveDatePrefix ++ phrase ++ c :: after) = Some phrase.
Proof.
  intros Hne Hphrase Hc Hafter. unfold exec_here.
  rewrite startsWith_app, drop_app_length.
  rewrite (greedy_first _ _ (length phrase)).
  - by rewrite take_app_length.
  - rewrite take_app_length, list_lookup_middle by done.
    rewrite Hc, andb_true_r. by apply matches_lang, lang_plus_cls_intro.
  - rewrite length_app. lia.
  - intros m Hm. rewrite length_app in Hm. simpl in Hm.
    destruct (decide (m = S (length phrase))) as [->|Hne'].
    + apply andb_false_iff. right.
      rewrite lookup_app_r by lia.
      replace (S (length phrase) - length phrase)%nat with 1%nat by lia.
      simpl. by destruct after.
    + apply andb_false_iff. left. apply not_true_iff_false.
      intros Hall'%matches_plus_cls_Forall.
      destruct after as [|t after]; [simpl in Hm; lia|].
      rewrite Forall_lookup in Hall'.
      assert (is_dot t = true) as Ht; [|congruence].
      apply (Hall' (S (length phrase))).
      rewrite lookup_take_lt by lia. rewrite lookup_app_r by lia.
      by replace (S (length phrase) - length phrase)%nat with 1%nat by lia.
Qed.

Lemma effectiveDatePrefix_head x s :
  x ≠ 84%N → startsWith effectiveDatePrefix (x :: s) = false.
Proof.
  intros Hx.
  change (startsWith effectiveDatePrefix (x :: s))
    with ((84 =? x)%N && startsWith (str "hese rules are effective as of ") s).
  apply andb_false_iff. left. apply N.eqb_neq. congruence.
Qed.

Lemma exec_search_here lit g last s x :
  exec_here lit g last s = Some x → exec_search lit g last s = Some x.
Proof. intros E. destruct s; simpl; by rewrite E. Qed.

Lemma exec_search_skip lit g last y s :
  exec_here lit g last (y :: s) = None →
  exec_search lit g last (y :: s) = exec_search lit g last s.
Proof. intros E. simpl. by rewrite E. Qed.

Lemma effectiveDateMatch_after_front front phrase c after :
  84%N ∉ front →
  phrase ≠ [] → Forall (λ x, is_dot x = true) phrase → is_dot c = true →
  match after with [] => True | t :: _ => is_dot t = false end →
  effectiveDateMatch (front ++ effectiveDatePrefix ++ phrase ++ c :: after)
  = Some phrase.
Proof.
  intros Hfront Hne Hphrase Hc Hafter. unfold effectiveDateMatch.
  induction front as [|x front IH].
  - apply exec_search_here. by apply effectiveDateMatch_at_start.
  - apply not_elem_of_cons in Hfront as [Hx Hfront].
    change ((x :: front) ++ ?l) with (x :: (front ++ l)).
    rewrite exec_search_skip; [by apply IH|].
    unfold exec_here. by rewrite effectiveDatePrefix_head.
Qed.

(** X12: whatever the date phrase, and whatever character ends the
    sentence: when the third line holds the fixed words, then a
    non-empty phrase, then one more character, up to the end of the
    line or a line terminator, [getEffectiveDate] returns what
    [Date.parse] makes of the phrase.  What precedes the fixed words on
    the line does not matter, as long as the words do not start
    earlier (here: no capital T before them). *)
Theorem getEffectiveDate_parses_the_phrase
    (Date_parse : jsstring → number) (rulesText front phrase after : jsstring) (c : N) :
  split CR rulesText !! 2%nat
    = Some (front ++ effectiveDatePrefix ++ phrase ++ c :: after) →
  84%N ∉ front →
  phrase ≠ [] → Forall (λ x, is_dot x = true) phrase → is_dot c = true →
  match after with [] => True | t :: _ => is_dot t = false end →
  getEffectiveDate Date_parse rulesText = Ok (Some (Date_parse phrase)).
Proof.
  intros Hline Hfront Hne Hphrase Hc Hafter. unfold getEffectiveDate.
  rewrite (read_nat _ 2 _ _ Hline), bind_Ok.
  by rewrite effectiveDateMatch_after_front.
Qed.

Lemma getEffectiveDate_parses_the_phrase_witness :
  getEffectiveDate HostDate.Date_parse_utc
    (str "Magic: The Gathering Comprehensive Rules" ++ CR :: LF :: CR :: LF ::
     str "These rules are effective as of January 24, 2025!" ++ CR :: LF :: str "Introduction")
  = Ok (Some (HostDate.Date_parse_utc (str "January 24, 2025"))).
Proof.
  apply (getEffectiveDate_parses_the_phrase _ _ [LF] (str "January 24, 2025") [] 33%N).
  - vm_compute. reflexivity.
  - apply (bool_decide_unpack _). vm_compute. exact I.
  - discriminate.
  - apply (bool_decide_unpack _). vm_compute. exact I.
  - vm_compute. reflexivity.
  - exact I.
Defined.

(** ** The form of the ids *)

Section TreeIdsFacts.
Context (Pc Ps Pr Pq : jsstring → Prop).

Lemma rulesStep_treeIds st k st' :
  TreeIds Pc Ps Pr Pq (rulesArr st) → kindOk Pc Ps Pr Pq k → rulesStep st k = Ok st' →
  TreeIds Pc Ps Pr Pq (rulesArr st').
Proof.
  intros Htree Hk.
  destruct k as [id title|id title|id text|id text|]; simpl in Hk.
  - rewrite rulesStep_category. intros [= <-]. simpl.
    destruct (pushIfNew_spec category_id (rulesArr st) id (mkCategory id title []) eq_refl)
      as (_ & Hin & _).
    intros cat [Hcat| ->]%Hin; [by apply Htree|].
    split; [done|]. by intros sub ?%elem_of_nil.
  - intros (n & cat & _ & Hn & ->)%rulesStep_subcategory. simpl.
    pose proof (Htree cat (list_elem_of_lookup_2 _ _ _ Hn)) as [Hc Hsubs].
    destruct (pushIfNew_spec subcategory_id (subcategories cat) id
                (mkSubcategory id title []) eq_refl) as (_ & Hin & _).
    intros c [->|Hc']%elem_of_insert_inv; [|by apply Htree].
    split; [done|]. simpl. intros sub [Hsub| ->]%Hin; [by apply Hsubs|].
    split; [done|]. by intros rule ?%elem_of_nil.
  - intros (n & m & cat & sub & _ & Hn & _ & Hm & ->)%rulesStep_rule. simpl.
    pose proof (Htree cat (list_elem_of_lookup_2 _ _ _ Hn)) as [Hc Hsubs].
    pose proof (Hsubs sub (list_elem_of_lookup_2 _ _ _ Hm)) as [Hs Hrules].
    intros c [->|Hc']%elem_of_insert_inv; [|by apply Htree].
    split; [done|]. simpl. intros s [->|Hs']%elem_of_insert_inv; [|by apply Hsubs].
    split; [done|]. simpl.
    intros rule [Hrule| ->%list_elem_of_singleton]%elem_of_app; [by apply Hrules|].
    split; [done|]. by intros q ?%elem_of_nil.
  - intros (n & m & j & cat & sub & rule & _ & Hn & _ & Hm & _ & Hj & ->)%rulesStep_subrule.
    simpl.
    pose proof (Htree cat (list_elem_of_lookup_2 _ _ _ Hn)) as [Hc Hsubs].
    pose proof (Hsubs sub (list_elem_of_lookup_2 _ _ _ Hm)) as [Hs Hrules].
    pose proof (Hrules rule (list_elem_of_lookup_2 _ _ _ Hj)) as [Hr Hqs].
    intros c [->|Hc']%elem_of_insert_inv; [|by apply Htree].
    split; [done|]. simpl. intros s [->|Hs']%elem_of_insert_inv; [|by apply Hsubs].
    split; [done|]. simpl. intros r [->|Hr']%elem_of_insert_inv; [|by apply Hrules].
    split; [done|]. simpl.
    intros q [Hq| ->%list_elem_of_singleton]%elem_of_app; [by apply Hqs|done].
  - rewrite rulesStep_ignored. by intros [= <-].
Qed.

Lemma rulesLoop_treeIds lines st st' :
  TreeIds Pc Ps Pr Pq (rulesArr st) → (∀ l, kindOk Pc Ps Pr Pq (classify l)) →
  rulesLoop lines st = Ok st' → TreeIds Pc Ps Pr Pq (rulesArr st').
Proof.
  intros Htree Hk. revert st Htree.
  induction lines as [|l lines IH]; intros st Htree.
  - by intros [= <-].
  - rewrite rulesLoop_cons.
    destruct (rulesStep st (classify l)) as [st1|] eqn:E; [|done].
    rewrite bind_Ok. apply IH. by eapply rulesStep_treeIds.
Qed.

End TreeIdsFacts.

Lemma classify_id_forms line :
  kindOk categoryIdForm subcategoryIdForm ruleIdForm subruleIdForm (classify line).
Proof.
  unfold classify. destruct (decide (line = [])); [done|].
  destruct (categoryMatch (trim line)) as [[a b]|] eqn:E1.
  { apply categoryMatch_shape in E1 as (d & Hd & -> & _). by exists d. }
  destruct (subcategoryMatch (trim line)) as [[a b]|] eqn:E2.
  { by apply subcategoryMatch_shape in E2 as (rest & Ha & Hlen & _). }
  destruct (ruleMatch (trim line)) as [[a b]|] eqn:E3.
  { apply ruleMatch_shape in E3 as (ds & d & ? & ? & ? & -> & _). by exists ds, d. }
  destruct (subruleMatch (trim line)) as [[a b]|] eqn:E4; [|done].
  apply subruleMatch_shape in E4 as (ds & d & x & ? & ? & ? & ? & -> & _).
  by exists ds, d, x.
Qed.

(** X13: every id in a tree [parseRules] returns has the form of its
    level: a category id is one digit; a subcategory id is two or more
    digits; a rule id is two or more digits, a period and one digit; a
    subrule id is a rule id followed by one lower-case letter. *)
Theorem parseRules_ids_have_the_form_of_their_level
    (lines : list jsstring) (tree : list Category) :
  parseRules lines = Ok tree →
  TreeIds categoryIdForm subcategoryIdForm ruleIdForm subruleIdForm tree.
Proof.
  unfold parseRules.
  destruct (rulesLoop lines rulesInit) as [st'|] eqn:E; [|done].
  rewrite bind_Ok. intros [= <-].
  eapply rulesLoop_treeIds; [|apply classify_id_forms|done].
  by intros cat ?%elem_of_nil.
Qed.

Lemma parseRules_ids_have_the_form_of_their_level_witness :
  TreeIds categoryIdForm subcategoryIdForm ruleIdForm subruleIdForm
    [mkCategory (str "1") (str "Game Concepts")
       [mkSubcategory (str "100") (str "General")
          [mkRule (str "100.1") (str "These are the rules.")
             [mkSubrule (str "100.1a") (str "This means something.")]]]].
Proof.
  apply (parseRules_ids_have_the_form_of_their_level repeatedHeaderLines).
  vm_compute. reflexivity.
Defined.

(** ** The link to the rules text *)

Lemma tail_length_sound r n :
  tail_length r = Some n →
  ∃ y c after, r = y ++ c :: linkEnd ++ after
               ∧ length y = n ∧ matches (Plus (Cls is_dot)) y = true
               ∧ is_dot c = true.
Proof.
  unfold tail_length. intros ([i n'] & F & [= <-])%fmap_Some.
  apply list_find_Some in F as (_ & H & _). unfold tail_fits in H.
  apply andb_true_iff in H as [[Hy Hc]%andb_true_iff Hend].
  destruct (r !! n) as [c|] eqn:Hn; [|done].
  apply startsWith_drop in Hend.
  exists (take n r), c, (drop (length linkEnd) (drop (S n) r)).
  split_and!; [|by apply length_take_le, Nat.lt_le_incl, (lookup_lt_Some _ _ _ Hn)|done..].
  rewrite <-Hend. symmetry. by apply take_drop_middle.
Qed.

Lemma group_length_sound rest n len :
  group_length rest n = Some len →
  ∃ x y c after,
    rest = (x ++ DOWNLOADS ++ y ++ c :: str "txt") ++ QUOTE :: str " target=" ++ after
    ∧ len = length (x ++ DOWNLOADS ++ y ++ c :: str "txt")
    ∧ matches (Plus (Cls is_dot)) x = true
    ∧ matches (Plus (Cls is_dot)) y = true ∧ is_dot c = true.
Proof.
  unfold group_length.
  destruct (matches _ (take n rest) && startsWith DOWNLOADS (drop n rest)) eqn:H; [|done].
  apply andb_true_iff in H as [Hx Hd].
  destruct (tail_length _) as [n2|] eqn:Ht; [|done]. intros [= <-].
  apply tail_length_sound in Ht as (y & c & after & Hr & Hlen & Hy & Hc).
  assert (n < length rest)%nat as Hn.
  { destruct (decide (n < length rest)%nat); [done|].
    rewrite drop_ge in Hd by lia. done. }
  apply startsWith_drop in Hd. rewrite drop_drop, Hr in Hd.
  exists (take n rest), y, c, after. split_and!; [|..|done|done|done].
  - rewrite <-(take_drop n rest) at 1. rewrite Hd.
    unfold linkEnd. by rewrite <-!app_assoc.
  - rewrite !length_app, length_take_le by lia. simpl. lia.
Qed.

Lemma link_here_sound s url :
  link_here s = Some url →
  ∃ x y c after,
    s = linkOpen ++ url ++ QUOTE :: str " target=" ++ after
    ∧ url = x ++ DOWNLOADS ++ y ++ c :: str "txt"
    ∧ matches (Plus (Cls is_dot)) x = true
    ∧ matches (Plus (Cls is_dot)) y = true ∧ is_dot c = true.
Proof.
  unfold link_here. destruct (startsWith linkOpen s) eqn:Hp; [|done].
  apply startsWith_drop in Hp. cbv zeta.
  set (rest := drop (length linkOpen) s) in *.
  destruct (list_find _ _) as [[i n]|]; [|done].
  destruct (group_length rest n) as [len|] eqn:G; [|done]. intros [= <-].
  apply group_length_sound in G as (x & y & c & after & Hr & -> & Hx & Hy & Hc).
  exists x, y, c, after. rewrite Hr, take_app_length.
  split_and!; [|done..]. rewrite Hp at 1. by rewrite Hr, <-app_assoc.
Qed.

(** X14: the link [getRulesText] follows is read off the page between
    the opening [href=] with its quote and the closing quote with
    [ target=]; it holds [/downloads/] after at least one character, it
    ends with [txt] after one arbitrary character (the period is not
    required), and it has no line terminator.  A page without the
    opening words has no link. *)
Theorem linkMatch_reads_a_downloads_link (page : jsstring) :
  (∀ url, linkMatch page = Some url →
     ∃ before after x y c,
       page = before ++ linkOpen ++ url ++ QUOTE :: str " target=" ++ after
       ∧ url = x ++ DOWNLOADS ++ y ++ c :: str "txt"
       ∧ x ≠ [] ∧ y ≠ []
       ∧ Forall (λ u, is_line_terminator u = false) url)
  ∧ (includes linkOpen page = false → linkMatch page = None).
Proof.
  split.
  - intros url. induction page as [|u page IH]; simpl.
    + destruct (link_here []) eqn:E; [|done]. by apply link_here_sound in E as (? & ? & ? & ? & ? & _).
    + destruct (link_here (u :: page)) as [url'|] eqn:E.
      * intros [= ->].
        apply link_here_sound in E as (x & y & c & after & Hs & Hurl & Hx & Hy & Hc).
        apply matches_plus_cls_Forall in Hx as Hx', Hy as Hy'.
        exists [], after, x, y, c. split_and!; [done|done| | |].
        -- intros ->. done.
        -- intros ->. done.
        -- rewrite Hurl. unfold is_dot in *.
           rewrite !Forall_app, Forall_cons. split_and!.
           ++ eapply Forall_impl; [done|]. intros ? ?%negb_true_iff. done.
           ++ unfold DOWNLOADS. simpl. by repeat constructor.
           ++ eapply Forall_impl; [done|]. intros ? ?%negb_true_iff. done.
           ++ by apply negb_true_iff.
           ++ simpl. by repeat constructor.
      * intros (before & after & x & y & c & -> & H)%IH.
        by exists (u :: before), after, x, y, c.
  - induction page as [|u page IH]; [by intros _; vm_compute|].
    change (includes linkOpen (u :: page))
      with (startsWith linkOpen (u :: page) || includes linkOpen page).
    intros [H1 H2]%orb_false_iff.
    change (linkMatch (u :: page))
      with (match link_here (u :: page) with
            | Some url => Some url
            | None => linkMatch page
            end).
    unfold link_here. rewrite H1. by apply IH.
Qed.

Lemma linkMatch_reads_a_downloads_link_witness :
  ∃ before after x y c,
    str "<a href=" ++ [QUOTE] ++ str "https://media.wizards.com/downloads/Rules_txt"
    ++ [QUOTE] ++ str " target=_blank>"
    = before ++ linkOpen ++ str "https://media.wizards.com/downloads/Rules_txt"
      ++ QUOTE :: str " target=" ++ after
    ∧ str "https://media.wizards.com/downloads/Rules_txt"
      = x ++ DOWNLOADS ++ y ++ c :: str "txt"
    ∧ x ≠ [] ∧ y ≠ []
    ∧ Forall (λ u, is_line_terminator u = false)
        (str "https://media.wizards.com/downloads/Rules_txt").
Proof.
  apply (proj1 (linkMatch_reads_a_downloads_link _)). vm_compute. reflexivity.
Defined.

(** ** Fetching the text *)

Lemma removeAll_absent c s : c ∉ removeAll c s.
Proof. unfold removeAll. intros [H _]%list_elem_of_filter. done. Qed.

Lemma getRulesText_text_has_no_NUL fetch text :
  getRulesText fetch = Resolved (Some text) → 0%N ∉ text.
Proof.
  unfold getRulesText. destruct (fetch rulesPageUrl) as [page|]; [|done].
  destruct (negb (ok page)); [done|].
  destruct (linkMatch (responseText page)) as [url|]; [|done].
  destruct (fetch url) as [file|]; [|done].
  intros [= <-]. apply removeAll_absent.
Qed.

(** X15: what [getRulesText] resolves to and when it rejects.  A rules
    page that is not [ok] makes it throw an [Error] that quotes the
    status text.  With a page that is [ok] and holds a link, the text
    is the body of the response for that link with every NUL removed,
    whatever the status of that second response; so a text that comes
    back never holds a NUL, and it always comes from the link of the
    page. *)
Theorem getRulesText_outcomes (fetch : jsstring → promise HttpResponse) :
  (∀ page, fetch rulesPageUrl = Resolved page → ok page = false →
     getRulesText fetch
     = Rejected (ErrorThrown (str "Recieved bad response from rules page: "
                              ++ statusText page)))
  ∧ (∀ page url file,
       fetch rulesPageUrl = Resolved page → ok page = true →
       linkMatch (responseText page) = Some url → fetch url = Resolved file →
       getRulesText fetch = Resolved (Some (removeAll 0%N (responseText file))))
  ∧ (∀ text, getRulesText fetch = Resolved (Some text) →
       (0%N ∉ text)
       ∧ ∃ page url file,
           fetch rulesPageUrl = Resolved page ∧ ok page = true
           ∧ linkMatch (responseText page) = Some url
           ∧ fetch url = Resolved file
           ∧ text = removeAll 0%N (responseText file)).
Proof.
  unfold getRulesText. split_and!.
  - intros page -> Hok. by rewrite Hok.
  - intros page url file -> Hok Hlink Hfile. by rewrite Hok, Hlink, Hfile.
  - intros text. destruct (fetch rulesPageUrl) as [page|]; [|done].
    destruct (ok page) eqn:Hok; [|done]. simpl.
    destruct (linkMatch (responseText page)) as [url|] eqn:Hlink; [|done].
    destruct (fetch url) as [file|] eqn:Hfile; [|done].
    intros [= <-]. split; [apply removeAll_absent|].
    by exists page, url, file.
Qed.

Lemma getRulesText_outcomes_witness :
  getRulesText sampleNetwork
  = Resolved (Some (removeAll 0%N sampleDocument)).
Proof.
  eapply (proj1 (proj2 (getRulesText_outcomes sampleNetwork))
            _ sampleLink (mkHttpResponse false (str "Not Found") sampleDocument));
    vm_compute; reflexivity.
Defined.

(** ** The worker *)

Lemma getRulesObject_returns Date_parse fetched obj :
  getRulesObject Date_parse fetched = Ok (Some obj) →
  ∃ rulesText, fetched = Some rulesText ∧ rulesText ≠ []
    ∧ getRules rulesText = Ok (ro_rules obj)
    ∧ getGlossary rulesText = Ok (ro_glossary obj)
    ∧ getEffectiveDate Date_parse rulesText = Ok (Some (effectiveDate obj))
    ∧ truthy (effectiveDate obj) = true.
Proof.
  unfold getRulesObject. destruct fetched as [[|u text]|]; [done| |done].
  destruct (getRules _) as [rs|] eqn:Hrs; [|done]. rewrite bind_Ok.
  destruct (getGlossary _) as [g|] eqn:Hg; [|done]. rewrite bind_Ok.
  destruct (getEffectiveDate _ _) as [[d|]|] eqn:Hd; [|done..]. rewrite bind_Ok.
  destruct (truthy d) eqn:Ht; [|done]. intros [= <-].
  exists (u :: text). simpl. by rewrite Hrs, Hg, Hd.
Qed.

Lemma getRulesObject_undefined Date_parse fetched :
  getRulesObject Date_parse fetched = Ok None →
  fetched = None ∨ fetched = Some []
  ∨ ∃ rulesText rs g,
      fetched = Some rulesText ∧ getRules rulesText = Ok rs
      ∧ getGlossary rulesText = Ok g
      ∧ (getEffectiveDate Date_parse rulesText = Ok None
         ∨ ∃ d, getEffectiveDate Date_parse rulesText = Ok (Some d)
                ∧ truthy d = false).
Proof.
  unfold getRulesObject. destruct fetched as [[|u text]|]; [by right; left| |by left].
  destruct (getRules _) as [rs|] eqn:Hrs; [|done]. rewrite bind_Ok.
  destruct (getGlossary _) as [g|] eqn:Hg; [|done]. rewrite bind_Ok.
  destruct (getEffectiveDate _ _) as [[d|]|] eqn:Hd; [| |done]; rewrite bind_Ok.
  - destruct (truthy d) eqn:Ht; [done|]. intros _. right. right.
    exists (u :: text), rs, g. split_and!; [done..|]. right. by exists d.
  - intros _. right. right. exists (u :: text), rs, g. split_and!; [done..|]. by left.
Qed.

(** X16: the answers of the worker.  A URL without [/v1/rules] is
    answered 404 without any use of the network.  Otherwise an answer is
    200 or 500.  A 200 carries, as JSON, a document parsed from a
    non-empty fetched text without NUL, with both trees and a truthy
    effective date.  The 500 with its message about the effective date
    is also the answer when the page has no link, when the text is
    empty, and when [Date.parse] gives NaN or 0.  A rejection of
    [getRulesText] is not caught: the handler rejects with it. *)
Theorem handleRequest_answers
    (fetch : jsstring → promise HttpResponse) (Date_parse : jsstring → number)
    (JSON_stringify : RulesObject → jsstring) (url : jsstring) :
  (includes (str "/v1/rules") url = false →
     ∀ fetch', handleRequest fetch' Date_parse JSON_stringify url
               = Resolved (mkResponse (str "Invalid url") 404 None))
  ∧ (includes (str "/v1/rules") url = true →
     ∀ resp, handleRequest fetch Date_parse JSON_stringify url = Resolved resp →
       (status resp = 200
        ∧ contentType resp = Some (str "application/json")
        ∧ ∃ obj rulesText,
            body resp = JSON_stringify obj
            ∧ getRulesText fetch = Resolved (Some rulesText)
            ∧ rulesText ≠ [] ∧ (0%N ∉ rulesText)
            ∧ getRules rulesText = Ok (ro_rules obj)
            ∧ getGlossary rulesText = Ok (ro_glossary obj)
            ∧ getEffectiveDate Date_parse rulesText = Ok (Some (effectiveDate obj))
            ∧ truthy (effectiveDate obj) = true)
       ∨ (status resp = 500
          ∧ body resp = str "Couldn't get effective date"
          ∧ (getRulesText fetch = Resolved None
             ∨ getRulesText fetch = Resolved (Some [])
             ∨ ∃ rulesText, getRulesText fetch = Resolved (Some rulesText)
                 ∧ (getEffectiveDate Date_parse rulesText = Ok None
                    ∨ ∃ d, getEffectiveDate Date_parse rulesText = Ok (Some d)
                           ∧ truthy d = false))))
  ∧ (∀ r, getRulesText fetch = Rejected r →
       includes (str "/v1/rules") url = true →
       handleRequest fetch Date_parse JSON_stringify url = Rejected r).
Proof.
  unfold handleRequest, getRulesObjectFetched. split_and!.
  - intros -> fetch'. done.
  - intros -> resp.
    destruct (getRulesText fetch) as [fetched|] eqn:Htext; [|done].
    destruct (getRulesObject Date_parse fetched) as [[obj|]|] eqn:Hobj; [| |done].
    + intros [= <-]. left. simpl. split_and!; [done..|].
      apply getRulesObject_returns in Hobj
        as (rulesText & -> & Hne & Hrs & Hg & Hd & Ht).
      exists obj, rulesText. split_and!; [done..| |done|done|done|done].
      by apply (getRulesText_text_has_no_NUL fetch).
    + intros [= <-]. right. simpl. split_and!; [done..|].
      apply getRulesObject_undefined in Hobj
        as [->|[->|(rulesText & rs & g & -> & _ & _ & Hd)]]; [by left|by right; left|].
      right. right. by exists rulesText.
  - intros r -> ->. done.
Qed.

Lemma handleRequest_answers_witness :
  handleRequest sampleNetwork HostDate.Date_parse_utc sampleStringify
    (str "https://worker.example/v2/rules")
  = Resolved (mkResponse (str "Invalid url") 404 None).
Proof.
  apply (proj1 (handleRequest_answers sampleNetwork HostDate.Date_parse_utc
                  sampleStringify (str "https://worker.example/v2/rules"))).
  vm_compute. reflexivity.
Defined.
